(** * compile_time_regexp.hpp: pattern -> NFA -> DFA -> frozen tables

    A shallow embedding of [src/compile_time_regexp.hpp] (namespace
    [ctre::_]) and the properties of it that the specification states.

    Conventions of the embedding.

    - Integers are [Z] (values) or [nat] (sizes and array positions) with
      the wrap-around of the C++ type written out where the source can
      reach it ([u32], [u16], [u8], [to_char]).
    - [C] is the C++ type [char].  Its signedness is implementation
      defined; the development fixes the x86-64 choice (signed, see
      [CHAR_MIN]).  A value of type [C] is an integer of
      [CHAR_MIN .. CHAR_MIN + 255]; the byte written 0x80 is the char -128.
    - A pointer to a heap object is its address in the arena
      it was allocated in ([NfaParser::states] for NFA states, the
      allocation order of [new DfaState] for DFA states).
    - What is undefined behaviour or a [throw] in the source is a value
      [Abort e] of the result type: in constant evaluation (the public
      entry points are [consteval]) either one stops the compilation.
      Loops whose bound is not syntactic take a fuel argument and give
      [OutOfFuel] when it runs out. *)

From Stdlib Require Import ZArith List Bool Lia Permutation Arith.
Import ListNotations.
Open Scope Z_scope.

(** ** Results of fallible code *)

Inductive error : Type :=
| NotFound      (* throw "not found"            (map::get)            *)
| EmptyQueue    (* throw "empty q"              (unique_queue::pop)   *)
| EmptyStack    (* back() of an empty vector    (stack::pop, top)     *)
| NullDeref     (* dereference of nullptr                             *)
| OutOfBounds   (* array subscript out of range                       *)
| DivByZero.    (* x % 0                                              *)

Inductive result (A : Type) : Type :=
| Ok (a : A)
| Abort (e : error)
| OutOfFuel.

Arguments Ok {A} a.
Arguments Abort {A} e.
Arguments OutOfFuel {A}.

Definition bind {A B : Type} (r : result A) (k : A -> result B) : result B :=
  match r with
  | Ok a => k a
  | Abort e => Abort e
  | OutOfFuel => OutOfFuel
  end.

Declare Scope result_scope.
Delimit Scope result_scope with result.
Notation "x <- e ;; k" := (bind e (fun x => k))
  (at level 61, e at next level, right associativity) : result_scope.
Notation "' p <- e ;; k" := (bind e (fun x => match x with p => k end))
  (at level 61, p pattern, e at next level, right associativity) : result_scope.
Open Scope result_scope.

(** A range-for loop whose body can fail. *)
Fixpoint foreach {A S : Type} (l : list A) (s : S) (body : S -> A -> result S)
  : result S :=
  match l with
  | [] => Ok s
  | x :: r => s' <- body s x ;; foreach r s' body
  end.

(** ** Machine integers *)

(** Conversion to an unsigned type of [w] bits keeps the low [w] bits. *)
Definition u8 (z : Z) : Z := Z.land z 255.
Definition u16 (z : Z) : Z := Z.land z 65535.
Definition u32 (z : Z) : Z := Z.land z 4294967295.
Definition size_t (z : Z) : Z := Z.land z 18446744073709551615.

(** [char] is signed on the platform modelled here (x86-64). *)
Definition CHAR_MIN : Z := -128.
Definition CHAR_MAX : Z := CHAR_MIN + 255.

(** Regexp character, [using C = char]. *)
Abbreviation C := Z (only parsing).

(** Conversion of an integer to [char]. *)
Definition to_char (z : Z) : C := (z - CHAR_MIN) mod 256 + CHAR_MIN.

(** The value of a char as an unsigned byte. *)
Definition byte_of (c : C) : Z := c mod 256.

(** Array read and write with the subscript checked. *)
Definition rd {A : Type} (l : list A) (i : Z) : result A :=
  if (0 <=? i) && (i <? Z.of_nat (length l))
  then match nth_error l (Z.to_nat i) with
       | Some a => Ok a
       | None => Abort OutOfBounds
       end
  else Abort OutOfBounds.

Fixpoint upd {A : Type} (i : nat) (a : A) (l : list A) : list A :=
  match l, i with
  | [], _ => []
  | _ :: r, O => a :: r
  | x :: r, S j => x :: upd j a r
  end.

Definition wr {A : Type} (l : list A) (i : Z) (a : A) : result (list A) :=
  if (0 <=? i) && (i <? Z.of_nat (length l))
  then Ok (upd (Z.to_nat i) a l)
  else Abort OutOfBounds.

(** ** Hash functions (lines 24-73) *)

(** [fnv32]: [h *= 16777619; h ^= s[i]] over the chars of [s]; the char is
    promoted to [int] and converted to [uint32_t] for the xor. *)
Definition fnv32 (s : list C) : Z :=
  fold_left (fun h c => Z.lxor (u32 (16777619 * h)) (u32 c)) s 2166136261.

(** [hash<char>] *)
Definition hash_char (v : C) : Z := fnv32 [v].

(** [hash<uint32_t>]: the four bytes, least significant first, stored in a
    [char] array. *)
Definition hash_uint32 (v : Z) : Z :=
  fnv32 [ to_char (Z.land v 255);
          to_char (Z.land (Z.shiftr v 8) 255);
          to_char (Z.land (Z.shiftr v 16) 255);
          to_char (Z.land (Z.shiftr v 24) 255) ].

(** [hash<std::vector<uint32_t>>] *)
Definition hash_vector (v : list Z) : Z :=
  fold_left (fun h x => Z.lxor (u32 (16777619 * h)) x) v 2166136261.

(** ** stack (lines 75-98): a vector, the top is the head of the list *)

Module stack.
Section defs.
Context {T : Type}.
Definition t := list T.
Definition size (a : t) : nat := length a.
Definition empty (a : t) : bool := match a with [] => true | _ => false end.
Definition top (a : t) : result T :=
  match a with [] => Abort EmptyStack | v :: _ => Ok v end.
Definition push (a : t) (v : T) : t := v :: a.
Definition pop (a : t) : result (t * T) :=
  match a with [] => Abort EmptyStack | v :: r => Ok (r, v) end.
End defs.
Arguments t : clear implicits.
End stack.

(** ** map (lines 100-300): open addressing, linear probing *)

Module map.
Section defs.
Context {K V : Type}.
Variable keqb : K -> K -> bool.   (* operator== of K *)
Variable h : K -> Z.              (* the hasher H *)
Variable dflt : V.                (* V{} *)

(** A slot [{k, v, used}].  The key and value of an unused slot are never
    read (every read is guarded by [used], every write to an unused slot
    overwrites both), so an unused slot is [None]. *)
Local Abbreviation slot := (option (K * V)).

(** The buffer [b] with its capacity [cap = length b], and the element
    count [n]. *)
Record t : Type := mk { b : list slot; n : nat }.

Definition cap (m : t) : nat := length (b m).
Definition new_map : t := mk [] 0.
Definition size (m : t) : nat := n m.
Definition empty (m : t) : bool := Nat.eqb (n m) 0.

(** [mod(k, i, cap) = (h(k) + i) % cap], for the hash value [hk] of [k]. *)
Definition mod_ (hk : Z) (i cap : nat) : nat :=
  Z.to_nat ((hk + Z.of_nat i) mod Z.of_nat cap).

(** The slots visited by [for (i = 0; i < cap; i++) p = mod(k, i, cap)]. *)
Definition probes (k : K) (cap : nat) : list nat :=
  let hk := h k in List.map (fun i => mod_ hk i cap) (seq 0 cap).

Definition slot_at (bb : list slot) (p : nat) : slot := nth p bb None.

(** [resize]: the inner loop copies an entry to the first slot of the new
    buffer that is not used (the hash is not consulted). *)
Fixpoint put_first_unused (nb : list slot) (e : K * V) : list slot :=
  match nb with
  | [] => []
  | None :: r => Some e :: r
  | Some x :: r => Some x :: put_first_unused r e
  end.

Definition resize (m : t) : t :=
  let new_cap := Nat.max (cap m * 2) 7 in
  mk (fold_left (fun nb sl => match sl with
                              | Some e => put_first_unused nb e
                              | None => nb
                              end)
                (b m) (repeat None new_cap))
     (n m).

(** [cap < n + 1 || cap * 0.8 < n + 1].  The product is a [double]; a
    capacity is 7 * 2^j, so 0.8 * cap is never an integer and the
    comparison agrees with the exact one, 4 * cap < 5 * (n + 1). *)
Definition too_small (m : t) : bool :=
  (cap m <? n m + 1)%nat || (4 * cap m <? 5 * (n m + 1))%nat.

(** [set]: insert or update. *)
Definition set (m : t) (k : K) (v : V) : t * bool :=
  let m := if too_small m then resize m else m in
  match find (fun p => match slot_at (b m) p with
                       | None => true
                       | Some (k', _) => keqb k' k
                       end) (probes k (cap m)) with
  | Some p =>
      (mk (upd p (Some (k, v)) (b m))
          (match slot_at (b m) p with None => S (n m) | Some _ => n m end),
       true)
  | None => (m, false)
  end.

(** [getp]: the slot holding [k] (the pointer returned is a pointer into
    that slot) and the value in it. *)
Definition used_with (bb : list slot) (k : K) (p : nat) : bool :=
  match slot_at bb p with
  | Some (k', _) => keqb k' k
  | None => false
  end.

Definition getp_pos (m : t) (k : K) : option nat :=
  if empty m then None
  else find (used_with (b m) k) (probes k (cap m)).

Definition getp (m : t) (k : K) : option V :=
  match getp_pos m k with
  | Some p => match slot_at (b m) p with
              | Some (_, v) => Some v
              | None => None
              end
  | None => None
  end.

Definition get (m : t) (k : K) : result V :=
  match getp m k with
  | Some v => Ok v
  | None => Abort NotFound
  end.

Definition has (m : t) (k : K) : bool :=
  match getp m k with Some _ => true | None => false end.

(** [pop]: every probed slot that holds [k] is marked unused. *)
Definition pop (m : t) (k : K) : t :=
  if empty m then m
  else fold_left (fun m p => if used_with (b m) k p
                             then mk (upd p None (b m)) (n m - 1)
                             else m)
                 (probes k (cap m)) m.

(** A write through the reference returned by [operator[]] or [getp]. *)
Definition store (m : t) (p : nat) (v : V) : t :=
  match slot_at (b m) p with
  | Some (k, _) => mk (upd p (Some (k, v)) (b m)) (n m)
  | None => m
  end.

(** [operator[]]: the map after the access, the slot of [k] and the value
    in it. *)
Definition subscript (m : t) (k : K) : result (t * nat * V) :=
  match getp_pos m k, getp m k with
  | Some p, Some v => Ok (m, p, v)
  | _, _ =>
      let m' := fst (set m k dflt) in
      match getp_pos m' k, getp m' k with
      | Some p, Some v => Ok (m', p, v)
      | _, _ => Abort NotFound
      end
  end.

(** [m[k] = v] *)
Definition assign (m : t) (k : K) (v : V) : result t :=
  '(m', p, _) <- subscript m k ;; Ok (store m' p v).

(** [m[k].f(...)] for a member function [f] that changes the value in
    place. *)
Definition modify (m : t) (k : K) (f : V -> result V) : result t :=
  '(m', p, v) <- subscript m k ;; v' <- f v ;; Ok (store m' p v').

(** Iteration, [begin()] to [end()]: the used slots in buffer order. *)
Definition items (m : t) : list (K * V) :=
  if empty m then []
  else flat_map (fun sl => match sl with Some e => [e] | None => [] end) (b m).

Definition keys (m : t) : list K := List.map fst (items m).

End defs.
Arguments t : clear implicits.
Arguments new_map {K V}.
End map.

(** ** set (lines 302-348): a map to [bool] *)

Module set.
Section defs.
Context {T : Type}.
Variable teqb : T -> T -> bool.
Variable h : T -> Z.

Definition t : Type := map.t T bool.
Definition new_set : t := map.new_map.
Definition size (s : t) : nat := map.size s.
Definition empty (s : t) : bool := map.empty s.
(** [add]: [return m[v] = true;] *)
Definition add (s : t) (v : T) : result (t * bool) :=
  s' <- map.assign teqb h false s v true ;; Ok (s', true).
Definition has (s : t) (v : T) : bool := map.has teqb h s v.
Definition pop (s : t) (v : T) : t := map.pop teqb h s v.
(** Iteration: the keys in buffer order. *)
Definition elements (s : t) : list T := map.keys s.
(** [merge]: [for (auto &v : o) add(v);] *)
Definition merge (s o : t) : result t :=
  foreach (elements o) s (fun s v => '(s', _) <- add s v ;; Ok s').
(** [set(std::initializer_list<T> vs)] *)
Definition of_list (vs : list T) : result t :=
  foreach vs new_set (fun s v => '(s', _) <- add s v ;; Ok s').
End defs.
Arguments t : clear implicits.
Arguments new_set {T}.
End set.

(** ** unique_queue (lines 350-406) *)

Module unique_queue.
Section defs.
Context {T : Type}.
Variable teqb : T -> T -> bool.
Variable h : T -> Z.

(** The list of the nodes after the virtual head, front first, and the
    set [s]. *)
Record t : Type := mk { nodes : list T; s : set.t T }.

Definition new_queue : t := mk [] set.new_set.
Definition size (q : t) : nat := set.size (s q).
Definition empty (q : t) : bool := set.empty (s q).
Definition has (q : t) (v : T) : bool := set.has teqb h (s q) v.

Definition push (q : t) (v : T) : result (t * bool) :=
  if set.has teqb h (s q) v then Ok (q, false)
  else '(s', _) <- set.add teqb h (s q) v ;;
       Ok (mk (nodes q ++ [v]) s', true).

Definition pop (q : t) : result (t * T) :=
  if empty q then Abort EmptyQueue
  else match nodes q with
       | [] => Abort NullDeref
       | v :: rest => Ok (mk rest (set.pop teqb h (s q) v), v)
       end.

Definition front (q : t) : result T :=
  if empty q then Abort EmptyQueue
  else match nodes q with
       | [] => Abort NullDeref
       | v :: _ => Ok v
       end.
End defs.
Arguments t : clear implicits.
Arguments new_queue {T}.
End unique_queue.

(** ** Helpers (lines 419-514) *)

(** Epsilon character. *)
Definition EPSILON : C := 0.

(** Supported operators; [Op_code] gives the enumerator its char value. *)
Inductive Op : Type :=
| OP_CONCAT | OP_UNION | OP_CLOSURE | OP_LEFT_PAIR | OP_RIGHT_PAIR
| OP_PLUS | OP_OPTIONAL | OP_RANGE_START | OP_RANGE_END | OP_RANGE_TO.

Definition Op_code (o : Op) : C :=
  match o with
  | OP_CONCAT => 38        (* '&' *)
  | OP_UNION => 124        (* '|' *)
  | OP_CLOSURE => 42       (* '*' *)
  | OP_LEFT_PAIR => 40     (* '(' *)
  | OP_RIGHT_PAIR => 41    (* ')' *)
  | OP_PLUS => 43          (* '+' *)
  | OP_OPTIONAL => 63      (* '?' *)
  | OP_RANGE_START => 91   (* '[' *)
  | OP_RANGE_END => 93     (* ']' *)
  | OP_RANGE_TO => 45      (* '-' *)
  end.

Definition BACKSLASH : C := 92.

(** The enumerator a char is equal to, if any: the [case] labels of a
    [switch] over a char, and [static_cast<Op>]. *)
Definition Op_of_char (c : C) : option Op :=
  find (fun o => Op_code o =? c)
       [OP_CONCAT; OP_UNION; OP_CLOSURE; OP_LEFT_PAIR; OP_RIGHT_PAIR;
        OP_PLUS; OP_OPTIONAL; OP_RANGE_START; OP_RANGE_END; OP_RANGE_TO].

Definition IsCalculationOperator (c : C) : bool :=
  match Op_of_char c with
  | Some OP_CONCAT => true
  | Some OP_UNION => true
  | Some OP_CLOSURE => true
  | Some OP_PLUS => true
  | Some OP_OPTIONAL => true
  | _ => false
  end.

Definition GetOperatorPriority (op : Op) : Z :=
  match op with
  | OP_CONCAT => 1
  | OP_UNION => 1
  | OP_CLOSURE => 2
  | OP_PLUS => 2
  | OP_OPTIONAL => 2
  | _ => 0
  end.

Definition IsRightActingOperator (c : C) : bool :=
  match Op_of_char c with
  | Some OP_CONCAT | Some OP_UNION | Some OP_LEFT_PAIR => true
  | _ => false
  end.

Definition IsAbleInsertConcat (c : C) : bool :=
  match Op_of_char c with
  | Some OP_CONCAT | Some OP_UNION | Some OP_CLOSURE | Some OP_RIGHT_PAIR
  | Some OP_PLUS | Some OP_OPTIONAL | Some OP_RANGE_END | Some OP_RANGE_TO =>
      false
  | _ => true
  end.

(** ** Pointers

    A pointer is an address in the arena of its type: [0] is [nullptr],
    and [S i] points to the [i]-th object allocated. *)

Abbreviation ptr := nat (only parsing).
Definition nullptr : ptr := O.

Definition deref {A : Type} (heap : list A) (p : ptr) : result A :=
  match p with
  | O => Abort NullDeref
  | S i => match nth_error heap i with
           | Some a => Ok a
           | None => Abort NullDeref
           end
  end.

(** [*p = a] *)
Definition assign_at {A : Type} (heap : list A) (p : ptr) (a : A) : list A :=
  match p with
  | O => heap
  | S i => upd i a heap
  end.

(** ** NfaState, Nfa (lines 516-577) *)

Module NfaState.
(** [PtrSet = set<NfaState *, hash<State *>>], [Table = map<C, PtrSet>]. *)
Definition PtrSet : Type := set.t ptr.
Definition Table : Type := map.t C PtrSet.
Record t : Type := mk { id : Z; is_end : bool; transitions : Table }.
End NfaState.

(** [st->Id()] for the hasher [hash<State *>]; the pointers that are
    hashed are elements of pointer sets and point into the arena. *)
Definition Nfa_Id (heap : list NfaState.t) (p : ptr) : Z :=
  match deref heap p with
  | Ok st => NfaState.id st
  | _ => 0
  end.

(** [hash<State *>] over NFA states. *)
Definition hash_NfaState (heap : list NfaState.t) (p : ptr) : Z :=
  hash_uint32 (Nfa_Id heap p).

Definition PtrSet_add (heap : list NfaState.t) (s : NfaState.PtrSet) (p : ptr)
  : result NfaState.PtrSet :=
  '(s', _) <- set.add Nat.eqb (hash_NfaState heap) s p ;; Ok s'.

Definition CSet_add (s : set.t C) (c : C) : result (set.t C) :=
  '(s', _) <- set.add Z.eqb hash_char s c ;; Ok s'.

(** [NfaState::AddTransition]: [transitions[c].add(to); if (is_end) is_end
    = false;] on the state [s] points to. *)
Definition Nfa_AddTransition (heap : list NfaState.t) (s : ptr) (c : C) (to : ptr)
  : result (list NfaState.t) :=
  st <- deref heap s ;;
  tr <- map.modify Z.eqb hash_char set.new_set (NfaState.transitions st) c
          (fun ss => PtrSet_add heap ss to) ;;
  Ok (assign_at heap s
        (NfaState.mk (NfaState.id st)
                     (if NfaState.is_end st then false else NfaState.is_end st)
                     tr)).

(** [AcceptC], [Nexts] *)
Definition Nfa_AcceptC (st : NfaState.t) (c : C) : bool :=
  map.has Z.eqb hash_char (NfaState.transitions st) c.
Definition Nfa_Nexts (st : NfaState.t) (c : C) : result NfaState.PtrSet :=
  map.get Z.eqb hash_char (NfaState.transitions st) c.

Record Nfa : Type := mkNfa { start : ptr; end_ : ptr; size : nat }.

(** ** NfaParser (lines 579-858) *)

Module NfaParser.

Record t : Type := mk {
  nfa_stack : stack.t Nfa;
  op_stack : stack.t Op;
  states : list NfaState.t
}.

Definition new_parser : t := mk [] [] [].

Definition with_states (ps : t) (heap : list NfaState.t) : t :=
  mk (nfa_stack ps) (op_stack ps) heap.

(** [NewState]: [id = states.size() + 1]. *)
Definition NewState (ps : t) (is_end : bool) : t * ptr :=
  let id := u32 (Z.of_nat (length (states ps)) + 1) in
  (with_states ps (states ps ++ [NfaState.mk id is_end map.new_map]),
   S (length (states ps))).

Definition AddTransition (ps : t) (s : ptr) (c : C) (to : ptr)
  : result t :=
  heap <- Nfa_AddTransition (states ps) s c to ;; Ok (with_states ps heap).

Definition NewNfaFromSymbol (ps : t) (c : C) : result (t * Nfa) :=
  let '(ps, start) := NewState ps false in
  let '(ps, end_) := NewState ps true in
  ps <- AddTransition ps start c end_ ;;
  Ok (ps, mkNfa start end_ 2).

Definition NewNfaFromSymbols (ps : t) (chs : set.t C)
  : result (t * Nfa) :=
  let '(ps, start) := NewState ps false in
  let '(ps, end_) := NewState ps true in
  ps <- (if negb (set.empty chs)
         then foreach (set.elements chs) ps
                (fun ps c => AddTransition ps start c end_)
         else AddTransition ps start EPSILON end_) ;;
  Ok (ps, mkNfa start end_ 2).

(** [for (auto x = start; x <= end; x++) chs.add(x);] with [x] a char.
    When [end] is [CHAR_MAX] the condition never fails; in every other
    case the loop leaves within 256 tests, so the fuel below is exact. *)
Fixpoint range_loop (fuel : nat) (x e : C) (chs : set.t C) : result (set.t C) :=
  match fuel with
  | O => OutOfFuel
  | S f => if x <=? e
           then chs' <- CSet_add chs x ;; range_loop f (to_char (x + 1)) e chs'
           else Ok chs
  end.

Definition NewNfaFromRanges (ps : t) (ranges : list (C * C))
  : result (t * Nfa) :=
  chs <- foreach ranges set.new_set
           (fun chs r => range_loop 257 (fst r) (snd r) chs) ;;
  NewNfaFromSymbols ps chs.

Definition NewNfaFromConcat (ps : t) (a b : Nfa) : result (t * Nfa) :=
  ps <- AddTransition ps (end_ a) EPSILON (start b) ;;
  Ok (ps, mkNfa (start a) (end_ b) (size a + size b)).

Definition NewNfaFromUnion (ps : t) (a b : Nfa) : result (t * Nfa) :=
  let '(ps, start') := NewState ps false in
  let '(ps, end') := NewState ps true in
  ps <- AddTransition ps start' EPSILON (start a) ;;
  ps <- AddTransition ps start' EPSILON (start b) ;;
  ps <- AddTransition ps (end_ a) EPSILON end' ;;
  ps <- AddTransition ps (end_ b) EPSILON end' ;;
  Ok (ps, mkNfa start' end' (size a + size b + 2)).

Definition NewNfaFromClosure (ps : t) (a : Nfa) : result (t * Nfa) :=
  let '(ps, start') := NewState ps false in
  let '(ps, end') := NewState ps true in
  ps <- AddTransition ps (end_ a) EPSILON (start a) ;;
  ps <- AddTransition ps start' EPSILON (start a) ;;
  ps <- AddTransition ps (end_ a) EPSILON end' ;;
  ps <- AddTransition ps start' EPSILON end' ;;
  Ok (ps, mkNfa start' end' (size a + 2)).

Definition NewNfaFromPlus (ps : t) (a : Nfa) : result (t * Nfa) :=
  '(ps, p) <- NewNfaFromClosure ps a ;;
  NewNfaFromConcat ps a p.

Definition NewNfaFromOptional (ps : t) (a : Nfa) : result (t * Nfa) :=
  let '(ps, start') := NewState ps false in
  let '(ps, end') := NewState ps true in
  ps <- AddTransition ps start' EPSILON (start a) ;;
  ps <- AddTransition ps (end_ a) EPSILON end' ;;
  ps <- AddTransition ps start' EPSILON end' ;;
  Ok (ps, mkNfa start' end' (size a + 2)).

Definition pop_nfa (ps : t) : result (t * Nfa) :=
  '(st, a) <- stack.pop (nfa_stack ps) ;;
  Ok (mk st (op_stack ps) (states ps), a).

Definition push_nfa (r : t * Nfa) : t :=
  mk (stack.push (nfa_stack (fst r)) (snd r)) (op_stack (fst r))
           (states (fst r)).

Definition push_op (ps : t) (op : Op) : t :=
  mk (nfa_stack ps) (stack.push (op_stack ps) op) (states ps).

Definition pop_op (ps : t) : result (t * Op) :=
  '(st, op) <- stack.pop (op_stack ps) ;;
  Ok (mk (nfa_stack ps) st (states ps), op).

(** [Calc]: calculate on the top of the stacks. *)
Definition Calc (ps : t) : result t :=
  if stack.empty (op_stack ps) then Ok ps
  else
    '(ps, op) <- pop_op ps ;;
    match op with
    | OP_CLOSURE =>
        '(ps, a) <- pop_nfa ps ;;
        r <- NewNfaFromClosure ps a ;; Ok (push_nfa r)
    | OP_CONCAT =>
        '(ps, b) <- pop_nfa ps ;;
        '(ps, a) <- pop_nfa ps ;;
        r <- NewNfaFromConcat ps a b ;; Ok (push_nfa r)
    | OP_UNION =>
        '(ps, b) <- pop_nfa ps ;;
        '(ps, a) <- pop_nfa ps ;;
        r <- NewNfaFromUnion ps a b ;; Ok (push_nfa r)
    | OP_PLUS =>
        '(ps, a) <- pop_nfa ps ;;
        r <- NewNfaFromPlus ps a ;; Ok (push_nfa r)
    | OP_OPTIONAL =>
        '(ps, a) <- pop_nfa ps ;;
        r <- NewNfaFromOptional ps a ;; Ok (push_nfa r)
    | _ => Ok ps
    end.

(** [Normalize]: insert the concat operators. *)
Definition Normalize (s : list C) : list C :=
  fst (fold_left
         (fun (acc : list C * bool) c =>
            let '(s1, is_in_range) := acc in
            let s1 :=
              if IsAbleInsertConcat c
                 && negb (stack.empty s1)
                 && negb (IsRightActingOperator (last s1 0))
                 && negb is_in_range
              then s1 ++ [Op_code OP_CONCAT] else s1 in
            let is_in_range :=
              if c =? Op_code OP_RANGE_START then true
              else if c =? Op_code OP_RANGE_END then false
              else is_in_range in
            (s1 ++ [c], is_in_range))
         s ([], false)).

(** [while (cond(op_stack.top())) Calc();]  [Calc] pops one operator, so
    the depth of the operator stack bounds the loop. *)
Fixpoint while_Calc (fuel : nat) (cond : Op -> bool) (ps : t)
  : result t :=
  match fuel with
  | O => Ok ps
  | S f => match op_stack ps with
           | [] => Ok ps
           | top :: _ => if cond top
                         then ps' <- Calc ps ;; while_Calc f cond ps'
                         else Ok ps
           end
  end.

(** [s1[i]], with [s1[s1.size()]] the terminating ['\0']. *)
Definition char_at (s1 : list C) (i : nat) : C := nth i s1 0.

(** The loop of [case OP_RANGE_START]: the index after it and the ranges
    collected. *)
Fixpoint class_loop (fuel : nat) (s1 : list C) (i : nat) (range_start : C)
         (ranges : list (C * C)) : nat * list (C * C) :=
  match fuel with
  | O => (i, ranges)
  | S f =>
      if negb (char_at s1 i =? Op_code OP_RANGE_END) && (i <? length s1)%nat
      then let x := char_at s1 i in
           let i := S i in
           if negb (x =? Op_code OP_RANGE_TO)
           then if range_start =? EPSILON
                then class_loop f s1 i x ranges
                else class_loop f s1 i EPSILON (ranges ++ [(range_start, x)])
           else class_loop f s1 i range_start ranges
      else (i, ranges)
  end.

(** One turn of the [while (i < s1.size())] loop of [Parse]: the [switch]
    on [x = s1[i++]]. *)
Definition parse_step (s1 : list C) (i : nat) (ps : t)
  : result (nat * t) :=
  let x := char_at s1 i in
  let i := S i in
  let symbol (i : nat) (x : C) :=
    r <- NewNfaFromSymbol ps x ;; Ok (i, push_nfa r) in
  let calc_op (op : Op) :=
    ps <- while_Calc (length (op_stack ps))
            (fun top => IsCalculationOperator (Op_code top)
                        && (GetOperatorPriority op <=? GetOperatorPriority top))
            ps ;;
    Ok (i, push_op ps op) in
  match Op_of_char x with
  | Some OP_CONCAT => calc_op OP_CONCAT
  | Some OP_UNION => calc_op OP_UNION
  | Some OP_PLUS => calc_op OP_PLUS
  | Some OP_OPTIONAL => calc_op OP_OPTIONAL
  | Some OP_CLOSURE => calc_op OP_CLOSURE
  | Some OP_LEFT_PAIR => Ok (i, push_op ps OP_LEFT_PAIR)
  | Some OP_RIGHT_PAIR =>
      ps <- while_Calc (length (op_stack ps))
              (fun top => negb (Op_code top =? Op_code OP_LEFT_PAIR)) ps ;;
      '(ps, _) <- pop_op ps ;;
      Ok (i, ps)
  | Some OP_RANGE_START =>
      let '(i, ranges) := class_loop (length s1) s1 i EPSILON [] in
      r <- NewNfaFromRanges ps ranges ;; Ok (i, push_nfa r)
  | Some OP_RANGE_END => Ok (i, ps)
  | _ =>
      if x =? BACKSLASH
      then symbol (S i) (char_at s1 i)
      else symbol i x
  end.

Fixpoint parse_loop (fuel : nat) (s1 : list C) (i : nat) (ps : t)
  : result t :=
  if (i <? length s1)%nat
  then match fuel with
       | O => OutOfFuel
       | S f => '(i', ps') <- parse_step s1 i ps ;; parse_loop f s1 i' ps'
       end
  else Ok ps.

(** [Parse]: the parser after the call and the NFA on top of its stack. *)
Definition Parse (ps : t) (s : list C) : result (t * Nfa) :=
  let s1 := Normalize s in
  r <- NewNfaFromSymbol ps EPSILON ;;
  let ps := push_nfa r in
  ps <- parse_loop (length s1) s1 0 ps ;;
  ps <- while_Calc (length (op_stack ps)) (fun _ => true) ps ;;
  nfa <- stack.top (nfa_stack ps) ;;
  Ok (ps, nfa).

End NfaParser.

(** ** DfaState, Dfa (lines 862-914) *)

Module DfaState.
(** [Table = map<C, DfaState *>] *)
Definition Table : Type := map.t C ptr.
Record t : Type := mk { id : Z; is_end : bool; no : Z; transitions : Table }.
Definition HasTransition (st : t) (c : C) : bool :=
  map.has Z.eqb hash_char (transitions st) c.
Definition Next (st : t) (c : C) : result ptr :=
  map.get Z.eqb hash_char (transitions st) c.
(** [transitions[c] = to] *)
Definition AddTransition (st : t) (c : C) (to : ptr) : result t :=
  tr <- map.assign Z.eqb hash_char nullptr (transitions st) c to ;;
  Ok (mk (id st) (is_end st) (no st) tr).
End DfaState.

Definition Dfa_Id (mem : list DfaState.t) (p : ptr) : Z :=
  match deref mem p with
  | Ok st => DfaState.id st
  | _ => 0
  end.

(** [hash<State *>] over DFA states. *)
Definition hash_DfaState (mem : list DfaState.t) (p : ptr) : Z :=
  hash_uint32 (Dfa_Id mem p).

Module Dfa.
Record t : Type := mk { start : ptr; states : set.t ptr; chs : set.t C }.
Definition new_dfa (start : ptr) : t := mk start set.new_set set.new_set.

Section with_mem.
(** The arena of DFA states. *)
Variable mem : list DfaState.t.

Definition Has (dfa : t) (s : ptr) : bool :=
  set.has Nat.eqb (hash_DfaState mem) (states dfa) s.
Definition Size (dfa : t) : nat := set.size (states dfa).

Definition AddState (dfa : t) (st : ptr) : result t :=
  '(sts, _) <- set.add Nat.eqb (hash_DfaState mem) (states dfa) st ;;
  st <- deref mem st ;;
  chs' <- foreach (map.items (DfaState.transitions st)) (chs dfa)
            (fun chs p => CSet_add chs (fst p)) ;;
  Ok (mk (start dfa) sts chs').

Fixpoint Match_from (st : ptr) (s : list C) : result bool :=
  match s with
  | [] => cur <- deref mem st ;; Ok (DfaState.is_end cur)
  | c :: r =>
      cur <- deref mem st ;;
      if negb (DfaState.HasTransition cur c) then Ok false
      else st' <- DfaState.Next cur c ;; Match_from st' r
  end.

Definition Match (dfa : t) (s : list C) : result bool :=
  Match_from (start dfa) s.
End with_mem.
End Dfa.

(** ** DfaBuilder (lines 916-1067) *)

(** [std::sort] of the ids. *)
Fixpoint insert_sorted (x : Z) (l : list Z) : list Z :=
  match l with
  | [] => [x]
  | y :: r => if x <=? y then x :: l else y :: insert_sorted x r
  end.
Definition sort_ids (l : list Z) : list Z := fold_right insert_sorted [] l.

Module DfaBuilder.
Record t : Type := mk {
  nfa : Nfa;
  d : map.t Z NfaState.Table;
  states : map.t Z ptr;
  epsilon_closure_cache : map.t Z Z
}.
Definition new_builder (nfa : Nfa) : t :=
  mk nfa map.new_map map.new_map map.new_map.

(** A builder step works on the builder and on the arena of DFA states. *)
Definition st : Type := (t * list DfaState.t)%type.

Section with_heap.
(** The arena of NFA states, owned by the parser. *)
Variable heap : list NfaState.t.
(** Fuel of the loop of [EpsilonClosure]. *)
Variable cfuel : nat.

Definition HashNfaStateIds (N : NfaState.PtrSet) : result Z :=
  ids <- foreach (set.elements N) []
           (fun ids p => s <- deref heap p ;; Ok (ids ++ [NfaState.id s])) ;;
  Ok (hash_vector (sort_ids ids)).

(** [for (auto &s : N) if (s->IsEnd()) { is_end = true; break; }] *)
Fixpoint any_IsEnd (l : list ptr) : result bool :=
  match l with
  | [] => Ok false
  | p :: r => s <- deref heap p ;;
              if NfaState.is_end s then Ok true else any_IsEnd r
  end.

(** [d[id][c].merge(sts)] *)
Definition d_merge (d : map.t Z NfaState.Table) (id : Z) (c : C)
           (sts : NfaState.PtrSet) : result (map.t Z NfaState.Table) :=
  map.modify Z.eqb hash_uint32 map.new_map d id
    (fun tbl => map.modify Z.eqb hash_char set.new_set tbl c
       (fun N => set.merge Nat.eqb (hash_NfaState heap) N sts)).

(** [NewDfaState]; the parameter [id] is an [int] that holds a [uint32_t]
    hash, the conversions cancel. *)
Definition NewDfaState (s : st) (N : NfaState.PtrSet) (id : Z) : result (st * ptr) :=
  let '(bs, mem) := s in
  id <- (if id =? 0 then HashNfaStateIds N else Ok id) ;;
  is_end <- any_IsEnd (set.elements N) ;;
  d' <- foreach (set.elements N) (d bs)
          (fun d s =>
             s <- deref heap s ;;
             foreach (map.items (NfaState.transitions s)) d
               (fun d p => if negb (fst p =? EPSILON)
                           then d_merge d id (fst p) (snd p)
                           else Ok d)) ;;
  let new_state :=
    DfaState.mk id is_end (u16 (Z.of_nat (map.size (states bs)) + 1))
                map.new_map in
  let p := S (length mem) in
  states' <- map.assign Z.eqb hash_uint32 nullptr (states bs) id p ;;
  Ok (mk (nfa bs) d' states' (epsilon_closure_cache bs), mem ++ [new_state], p).

(** [EpsilonClosure]: depth first, in place. *)
Fixpoint EpsilonClosure_loop (fuel : nat) (stk : stack.t ptr) (N : NfaState.PtrSet)
  : result NfaState.PtrSet :=
  match stk with
  | [] => Ok N
  | s :: stk =>
      match fuel with
      | O => OutOfFuel
      | S f =>
          s <- deref heap s ;;
          if negb (Nfa_AcceptC s EPSILON) then EpsilonClosure_loop f stk N
          else
            nexts <- Nfa_Nexts s EPSILON ;;
            '(N, stk) <- foreach (set.elements nexts) (N, stk)
                           (fun '(N, stk) t =>
                              if negb (set.has Nat.eqb (hash_NfaState heap) N t)
                              then N' <- PtrSet_add heap N t ;;
                                   Ok (N', stack.push stk t)
                              else Ok (N, stk)) ;;
            EpsilonClosure_loop f stk N
      end
  end.

Definition EpsilonClosure (N : NfaState.PtrSet) : result NfaState.PtrSet :=
  EpsilonClosure_loop cfuel (fold_left stack.push (set.elements N) []) N.

Definition with_cache (bs : t) (c : map.t Z Z) : t :=
  mk (nfa bs) (d bs) (states bs) c.

(** [Move]: the DFA state reached from [Sp] by the character [c]. *)
Definition Move (s : st) (Sp : ptr) (c : C) : result (st * ptr) :=
  let '(bs, mem) := s in
  Sst <- deref mem Sp ;;
  tbl <- map.get Z.eqb hash_uint32 (d bs) (DfaState.id Sst) ;;
  N <- map.get Z.eqb hash_char tbl c ;;
  kid <- HashNfaStateIds N ;;
  match map.getp Z.eqb hash_uint32 (epsilon_closure_cache bs) kid with
  | Some p => T <- map.get Z.eqb hash_uint32 (states bs) p ;; Ok (bs, mem, T)
  | None =>
      N1 <- EpsilonClosure N ;;
      id <- HashNfaStateIds N1 ;;
      '(bs, mem) <- (if negb (map.has Z.eqb hash_uint32 (states bs) id)
                     then '(s', _) <- NewDfaState (bs, mem) N1 id ;; Ok s'
                     else Ok (bs, mem)) ;;
      let bs := with_cache bs
                  (fst (map.set Z.eqb hash_uint32 (epsilon_closure_cache bs) kid id)) in
      T <- map.get Z.eqb hash_uint32 (states bs) id ;;
      Ok (bs, mem, T)
  end.

(** The body of [for (auto c : chs)] in [Build]. *)
Definition Build_char (dfa : Dfa.t) (Sp : ptr)
           (x : st * unique_queue.t ptr) (c : C)
  : result (st * unique_queue.t ptr) :=
  let '(s, q) := x in
  '(bs, mem, T) <- Move s Sp c ;;
  Sst <- deref mem Sp ;;
  Sst' <- DfaState.AddTransition Sst c T ;;
  let mem := assign_at mem Sp Sst' in
  q <- (if negb (Dfa.Has mem dfa T)
           && negb (unique_queue.has Nat.eqb (hash_DfaState mem) q T)
        then '(q', _) <- unique_queue.push Nat.eqb (hash_DfaState mem) q T ;; Ok q'
        else Ok q) ;;
  Ok (bs, mem, q).

(** The body of [while (!q.empty())] in [Build]. *)
Definition Build_step (s : st) (q : unique_queue.t ptr) (dfa : Dfa.t)
  : result (st * unique_queue.t ptr * Dfa.t) :=
  '(q, Sp) <- unique_queue.pop Nat.eqb (hash_DfaState (snd s)) q ;;
  Sst <- deref (snd s) Sp ;;
  let id := DfaState.id Sst in
  '(s, q) <- match map.getp Z.eqb hash_uint32 (d (fst s)) id with
             | Some transitions =>
                 chs <- foreach (map.items transitions) set.new_set
                          (fun chs p => CSet_add chs (fst p)) ;;
                 foreach (set.elements chs) (s, q) (Build_char dfa Sp)
             | None => Ok (s, q)
             end ;;
  dfa <- Dfa.AddState (snd s) dfa Sp ;;
  Ok (s, q, dfa).

Fixpoint Build_loop (fuel : nat) (s : st) (q : unique_queue.t ptr) (dfa : Dfa.t)
  : result (list DfaState.t * Dfa.t) :=
  if unique_queue.empty q then Ok (snd s, dfa)
  else match fuel with
       | O => OutOfFuel
       | S f => '(s, q, dfa) <- Build_step s q dfa ;; Build_loop f s q dfa
       end.

(** [Build]: the arena of DFA states and the DFA. *)
Definition Build (fuel : nat) (bs : t) : result (list DfaState.t * Dfa.t) :=
  N0 <- set.of_list Nat.eqb (hash_NfaState heap) [start (nfa bs)] ;;
  N0 <- EpsilonClosure N0 ;;
  '(s, S0) <- NewDfaState (bs, []) N0 0 ;;
  '(q, _) <- unique_queue.push Nat.eqb (hash_DfaState (snd s))
               unique_queue.new_queue S0 ;;
  Build_loop fuel s q (Dfa.new_dfa S0).

End with_heap.
End DfaBuilder.

(** ** Freezing (lines 1071-1217) *)

(** [std::string_view s(a)] for a char array [a]: the chars before the
    first ['\0']. *)
Fixpoint c_str (a : list C) : list C :=
  match a with
  | [] => []
  | c :: r => if c =? 0 then [] else c :: c_str r
  end.

(** [build<pattern>()] *)
Definition build (fuel : nat) (pattern : list C)
  : result (list DfaState.t * Dfa.t) :=
  '(parser, nfa) <- NfaParser.Parse NfaParser.new_parser (c_str pattern) ;;
  DfaBuilder.Build (NfaParser.states parser) fuel fuel
                   (DfaBuilder.new_builder nfa).

(** [dfa_count<pattern>()]: the counts of the DFA that [build] returns. *)
Definition count_of (r : result (list DfaState.t * Dfa.t)) : result (nat * nat) :=
  '(mem, dfa) <- r ;;
  Ok (Dfa.Size dfa, set.size (Dfa.chs dfa)).

Definition dfa_count (fuel : nat) (pattern : list C) : result (nat * nat) :=
  count_of (build fuel pattern).

Definition DefaultAlphabetSize : Z := 128.

(** [ch % AlphabetSize]: the char is converted to [std::size_t]. *)
Definition ch_mod (AlphabetSize : Z) (ch : C) : result Z :=
  if AlphabetSize =? 0 then Abort DivByZero
  else Ok (size_t ch mod AlphabetSize).

(** [for (i = 0; i < chs.size(); i++) t[chs[i] % AlphabetSize] = i + 1;]
    with [t] an array of [uint8_t]. *)
Definition fill_index (AlphabetSize : Z) (chs : list C) (t : list Z)
  : result (list Z) :=
  foreach (seq 0 (length chs)) t
    (fun t i => ch <- rd chs (Z.of_nat i) ;;
                j <- ch_mod AlphabetSize ch ;;
                wr t j (u8 (Z.of_nat i + 1))).

Module FixedDfa.
Record t : Type := mk {
  pre_index : bool;
  AlphabetSize : Z;
  NStates : nat;
  NChars : nat;
  chs : list C;
  ch_index_table : list Z;
  transitions : list (list Z);
  st_is_end_table : list bool
}.

(** The body of [for (auto st : dfa->states)] in the constructor. *)
Definition fill_state (mem : list DfaState.t) (A : Z) (tmp : list Z)
           (x : list (list Z) * list bool) (stp : ptr)
  : result (list (list Z) * list bool) :=
  let '(transitions, st_is_end_table) := x in
  st <- deref mem stp ;;
  transitions <-
    foreach (map.items (DfaState.transitions st)) transitions
      (fun transitions p =>
         let '(ch, to) := p in
         i <- ch_mod A ch ;;
         j <- rd tmp i ;;
         to <- deref mem to ;;
         row <- rd transitions (DfaState.no st - 1) ;;
         row <- wr row (j - 1) (DfaState.no to) ;;
         wr transitions (DfaState.no st - 1) row) ;;
  st_is_end_table <-
    (if DfaState.is_end st
     then wr st_is_end_table (DfaState.no st - 1) true
     else Ok st_is_end_table) ;;
  Ok (transitions, st_is_end_table).

(** The constructor, applied to the DFA it builds. *)
Definition freeze (pre_index : bool) (A : Z) (NStates NChars : nat)
           (mem : list DfaState.t) (dfa : Dfa.t) : result t :=
  let tmp := repeat 0 (Z.to_nat A) in
  let chs := repeat 0 NChars in
  let ch_index_table := repeat 0 (if pre_index then Z.to_nat A else 1%nat) in
  let transitions := repeat (repeat 0 NChars) NStates in
  let st_is_end_table := repeat false NStates in
  '(chs, _) <- foreach (set.elements (Dfa.chs dfa)) (chs, 0)
                 (fun '(chs, i) ch => chs <- wr chs i ch ;; Ok (chs, i + 1)) ;;
  tmp <- fill_index A chs tmp ;;
  let ch_index_table :=
    if pre_index then firstn (length ch_index_table) tmp else ch_index_table in
  '(transitions, st_is_end_table) <-
    foreach (set.elements (Dfa.states dfa)) (transitions, st_is_end_table)
            (fill_state mem A tmp) ;;
  Ok (mk pre_index A NStates NChars chs ch_index_table transitions
         st_is_end_table).

(** [FixedDfa<pattern, pre_index, AlphabetSize>()]: the sizes come from
    [dfa_count<pattern>()], the tables from a second call of
    [build<pattern>()]; the two calls return the same value, which is
    bound once. *)
Definition ctor (fuel : nat) (pattern : list C) (pre_index : bool) (A : Z)
  : result t :=
  let r := build fuel pattern in
  '(NStates, NChars) <- count_of r ;;
  '(mem, dfa) <- r ;;
  freeze pre_index A NStates NChars mem dfa.

Definition Size (fd : t) : nat := NStates fd.

(** The index table [t] of [Match]. *)
Definition index_table (fd : t) : result (list Z) :=
  if pre_index fd then Ok (ch_index_table fd)
  else fill_index (AlphabetSize fd) (chs fd)
                  (repeat 0 (Z.to_nat (AlphabetSize fd))).

(** The loop of [Match]: the flag [fail] and the state [st] after it. *)
Fixpoint Match_loop (fd : t) (t : list Z) (s : list C) (st : Z)
  : result (bool * Z) :=
  match s with
  | [] => Ok (false, st)
  | ch :: r =>
      i <- ch_mod (AlphabetSize fd) ch ;;
      j <- rd t i ;;
      if j =? 0 then Ok (true, st)
      else
        row <- rd (transitions fd) (st - 1) ;;
        to <- rd row (j - 1) ;;
        if to =? 0 then Ok (true, st)
        else Match_loop fd t r to
  end.

Definition Match (fd : t) (s : list C) : result bool :=
  t <- index_table fd ;;
  '(fail, st) <- Match_loop fd t s 1 ;;
  if (fail : bool) then Ok false
  else rd (st_is_end_table fd) (st - 1).

End FixedDfa.

(** ** Public API (lines 1220-1282) *)

Definition Compile (fuel : nat) (pattern : list C) (pre_index : bool)
           (AlphabetSize : Z) : result FixedDfa.t :=
  FixedDfa.ctor fuel pattern pre_index AlphabetSize.

(** [Match<pattern, s>()]: build and match on the DFA itself. *)
Definition Match_consteval (fuel : nat) (pattern s : list C) : result bool :=
  '(mem, dfa) <- build fuel pattern ;;
  Dfa.Match mem dfa (c_str s).

(** [Match<pattern>(s)]: [Compile<pattern>().Match(s)]. *)
Definition Match (fuel : nat) (pattern : list C) (s : list C) : result bool :=
  fd <- Compile fuel pattern false DefaultAlphabetSize ;;
  FixedDfa.Match fd s.

(** Chars of a string literal. *)
Definition chars (s : list nat) : list C := List.map (fun n => to_char (Z.of_nat n)) s.

(** * Abstract views of the containers

    The predicates in which the properties of the containers are stated. *)

(** The used slots of a buffer, in buffer order. *)
Definition map_ents {K V : Type} (bb : list (option (K * V))) : list (K * V) :=
  flat_map (fun sl => match sl with Some e => [e] | None => [] end) bb.

(** The entries of a map, in iteration order. *)
Definition map_entries {K V : Type} (m : map.t K V) : list (K * V) :=
  map_ents (map.b m).

(** The keys are distinct and [n] counts the used slots. *)
Definition map_wf {K V : Type} (m : map.t K V) : Prop :=
  NoDup (List.map fst (map_entries m)) /\ map.n m = length (map_entries m).

(** The map [m'] is [m] after [m[k]] has been evaluated and [v'] written
    through the reference. *)
Definition map_written {K V : Type} (m : map.t K V) (k : K) (v' : V)
           (m' : map.t K V) : Prop :=
  map_wf m' /\
  (forall k' w, In (k', w) (map_entries m') <->
                (k' = k /\ w = v') \/ (k' <> k /\ In (k', w) (map_entries m))) /\
  (In k (List.map fst (map_entries m)) ->
   List.map fst (map_entries m') = List.map fst (map_entries m)) /\
  (~ In k (List.map fst (map_entries m)) ->
   Permutation (List.map fst (map_entries m')) (k :: List.map fst (map_entries m))).

(** The elements of a set, in iteration order. *)
Definition set_elems {T : Type} (s : set.t T) : list T :=
  List.map fst (map_entries s).
Definition set_wf {T : Type} (s : set.t T) : Prop := map_wf s.

(** The set of a queue holds the values of its nodes, each once. *)
Definition queue_wf {T : Type} (q : unique_queue.t T) : Prop :=
  set_wf (unique_queue.s q) /\ NoDup (unique_queue.nodes q) /\
  (forall x, In x (unique_queue.nodes q) <-> In x (set_elems (unique_queue.s q))).

(** * The unique queue as its clients see it *)

(** The queues that the operations of [unique_queue] produce. *)
Inductive queue_reachable {T : Type} (teqb : T -> T -> bool) (h : T -> Z)
  : unique_queue.t T -> Prop :=
| reach_new : queue_reachable teqb h unique_queue.new_queue
| reach_push (q q' : unique_queue.t T) (v : T) (r : bool) :
    queue_reachable teqb h q ->
    unique_queue.push teqb h q v = Ok (q', r) ->
    queue_reachable teqb h q'
| reach_pop (q q' : unique_queue.t T) (v : T) :
    queue_reachable teqb h q ->
    unique_queue.pop teqb h q = Ok (q', v) ->
    queue_reachable teqb h q'.

(** [q.push(v); q.pop(); q.push(v)] on a new queue: what the second push
    returns and the nodes of the queue after it. *)
Definition push_pop_push {T : Type} (teqb : T -> T -> bool) (h : T -> Z) (v : T)
  : result (bool * list T) :=
  '(q, _) <- unique_queue.push teqb h unique_queue.new_queue v ;;
  '(q, _) <- unique_queue.pop teqb h q ;;
  '(q, r) <- unique_queue.push teqb h q v ;;
  Ok (r, unique_queue.nodes q).

(** [q.push(7)] on a new queue of [uint32_t]. *)
Definition queue_of_7 : unique_queue.t Z :=
  Eval vm_compute in
    match unique_queue.push Z.eqb hash_uint32 unique_queue.new_queue 7 with
    | Ok (q, _) => q
    | _ => unique_queue.new_queue
    end.

(** * The table algorithm of the specification (sections 3, 4.5, 4.6)

    Written from the words of the specification, to be compared with
    [FixedDfa.Match].  A character of the specification is "a single 8-bit
    byte", so [ch mod A] is the residue of the byte of the char,
    [byte_of ch mod A]; the lookups are the checked reads [rd]. *)

(** "Build a temporary [tmp[A]] where [tmp[c mod A] = 1 + index_of(c in
    chs)] for each accepted [c], and 0 elsewhere." *)
Definition spec_tmp (A : Z) (chs : list C) : list Z :=
  fold_left (fun tmp ic =>
               upd (Z.to_nat (byte_of (snd ic) mod A)) (1 + Z.of_nat (fst ic)) tmp)
            (combine (seq 0 (length chs)) chs)
            (repeat 0 (Z.to_nat A)).

(** "Obtain the index table (either the persisted [index_table] or a
    freshly built one)." *)
Definition spec_index_table (fd : FixedDfa.t) : list Z :=
  if FixedDfa.pre_index fd then FixedDfa.ch_index_table fd
  else spec_tmp (FixedDfa.AlphabetSize fd) (FixedDfa.chs fd).

(** "For each byte [ch] in [s]: [j <- index_table[ch mod A]]; if [j = 0],
    fail (reject).  Else [to <- transitions[st-1][j-1]]; if [to = 0], fail.
    Else [st <- to]."  The state after the bytes of [s], or [None] when a
    lookup rejects. *)
Fixpoint spec_run (A : Z) (index_table : list Z) (transitions : list (list Z))
         (s : list C) (st : Z) : result (option Z) :=
  match s with
  | [] => Ok (Some st)
  | ch :: rest =>
      j <- rd index_table (byte_of ch mod A) ;;
      if j =? 0 then Ok None
      else
        row <- rd transitions (st - 1) ;;
        to <- rd row (j - 1) ;;
        if to =? 0 then Ok None
        else spec_run A index_table transitions rest to
  end.

(** "[st <- 1] ... If the loop completes without failure, accept iff
    [accept[st - 1]]." *)
Definition spec_match (fd : FixedDfa.t) (s : list C) : result bool :=
  r <- spec_run (FixedDfa.AlphabetSize fd) (spec_index_table fd)
                (FixedDfa.transitions fd) s 1 ;;
  match r with
  | None => Ok false
  | Some st => rd (FixedDfa.st_is_end_table fd) (st - 1)
  end.

(** The chars whose residue [ch % AlphabetSize] is the residue of their
    byte: the bytes below 0x80, and every byte when [A] divides
    [2^64 - 256] (as 128 and 256 do). *)
Definition byte_residue_ok (A : Z) (c : C) : Prop :=
  CHAR_MIN <= c <= CHAR_MAX /\ (0 <= c \/ (A | 2 ^ 64 - 256)).

(** The frozen DFA of the pattern [U] for the alphabet size 100. *)
Definition fd_U_100 : FixedDfa.t :=
  Eval vm_compute in
    match Compile 10 [85] true 100 with
    | Ok fd => fd
    | _ => FixedDfa.mk false 0 0 0 [] [] [] []
    end.

(** The frozen DFA of the pattern [ab], its index table built by [Match]. *)
Definition fd_lazy_ab : FixedDfa.t :=
  Eval vm_compute in
    match Compile 10 [97; 98] false 128 with
    | Ok fd => fd
    | _ => FixedDfa.mk false 0 0 0 [] [] [] []
    end.

(** * The NFA arena of the parser *)

(** An accepting state has no outgoing transition: its table is the one
    [NewState] gave it. *)
Definition accepting_is_final (heap : list NfaState.t) : Prop :=
  forall st, In st heap ->
             NfaState.is_end st = true -> NfaState.transitions st = map.new_map.

(** * Fuel *)

(** [r'] is the result [r] computed with more fuel: the same, unless [r]
    ran out of fuel. *)
Definition refines {A : Type} (r r' : result A) : Prop :=
  r = OutOfFuel \/ r = r'.

(** * The arena of DFA states and the builder *)

(** A pointer into the arena [heap]. *)
Definition valid_ptr {A : Type} (heap : list A) (p : ptr) : Prop :=
  (1 <= p <= length heap)%nat.

(** The arena of DFA states: the state at address [p] carries the number
    [p] (as a [uint16_t]), and its transitions lead into the arena. *)
Record mem_wf (mem : list DfaState.t) : Prop := {
  mem_no : forall p st, deref mem p = Ok st -> DfaState.no st = u16 (Z.of_nat p);
  mem_tr_wf : forall p st, deref mem p = Ok st -> map_wf (DfaState.transitions st);
  mem_tr_valid : forall p st c t,
      deref mem p = Ok st ->
      In (c, t) (map_entries (DfaState.transitions st)) -> valid_ptr mem t
}.

(** The builder: [states] maps the ids of the states created so far, one
    entry per state of the arena. *)
Record builder_inv (bs : DfaBuilder.t) (mem : list DfaState.t) : Prop := {
  b_states_wf : map_wf (DfaBuilder.states bs);
  b_states_size : map.n (DfaBuilder.states bs) = length mem;
  b_states_valid : forall id p,
      In (id, p) (map_entries (DfaBuilder.states bs)) -> valid_ptr mem p
}.

(** The invariant of the loop of [Build] while the state [cur] is being
    processed ([cur = nullptr] between two turns of the loop): every state
    of the arena is in the DFA, in the queue, or is [cur]; the characters
    on the transitions of the states in the DFA, [cur] excepted, are in
    [chs]. *)
Record build_inv (cur : ptr) (s : DfaBuilder.st) (q : unique_queue.t ptr)
       (dfa : Dfa.t) : Prop := {
  bi_mem : mem_wf (snd s);
  bi_builder : builder_inv (fst s) (snd s);
  bi_queue : queue_wf q;
  bi_queue_valid : forall p, In p (unique_queue.nodes q) -> valid_ptr (snd s) p;
  bi_states_wf : set_wf (Dfa.states dfa);
  bi_chs_wf : set_wf (Dfa.chs dfa);
  bi_states_valid : forall p, In p (set_elems (Dfa.states dfa)) -> valid_ptr (snd s) p;
  bi_cover : forall p, valid_ptr (snd s) p ->
                       In p (set_elems (Dfa.states dfa)) \/
                       In p (unique_queue.nodes q) \/ p = cur;
  bi_chs : forall p st c t,
      In p (set_elems (Dfa.states dfa)) -> p <> cur ->
      deref (snd s) p = Ok st ->
      In (c, t) (map_entries (DfaState.transitions st)) ->
      In c (set_elems (Dfa.chs dfa));
  bi_chs_conv : forall c,
      In c (set_elems (Dfa.chs dfa)) ->
      exists p st t, deref (snd s) p = Ok st /\
                     In (c, t) (map_entries (DfaState.transitions st));
  bi_start : Dfa.start dfa = 1%nat /\ valid_ptr (snd s) 1%nat
}.

(** The DFA that [Build] returns, in its arena. *)
Record dfa_wf (mem : list DfaState.t) (dfa : Dfa.t) : Prop := {
  dw_mem : mem_wf mem;
  dw_states_wf : set_wf (Dfa.states dfa);
  dw_chs_wf : set_wf (Dfa.chs dfa);
  dw_states : forall p, In p (set_elems (Dfa.states dfa)) <-> valid_ptr mem p;
  dw_chs : forall p st c t,
      deref mem p = Ok st ->
      In (c, t) (map_entries (DfaState.transitions st)) ->
      In c (set_elems (Dfa.chs dfa));
  dw_chs_conv : forall c,
      In c (set_elems (Dfa.chs dfa)) ->
      exists p st t, deref mem p = Ok st /\
                     In (c, t) (map_entries (DfaState.transitions st));
  dw_start : Dfa.start dfa = 1%nat /\ valid_ptr mem 1%nat
}.

(** * The frozen tables *)

(** A value of the transition table: 0, or the number of a state of the
    arena. *)
Definition entry_ok (mem : list DfaState.t) (t : Z) : Prop :=
  t = 0 \/ exists p st, deref mem p = Ok st /\ t = DfaState.no st.

(** The shape of the tables of a frozen DFA with [NStates] rows and
    [NChars] columns, and of an index table for it. *)
Definition transitions_shape (mem : list DfaState.t) (NStates NChars : nat)
           (transitions : list (list Z)) : Prop :=
  length transitions = NStates /\
  Forall (fun row => length row = NChars /\ Forall (entry_ok mem) row) transitions.

Definition index_shape (A : Z) (NChars : nat) (t : list Z) : Prop :=
  length t = Z.to_nat A /\ Forall (fun j => 0 <= j <= Z.of_nat NChars) t.

(** * An example: the pattern [(a|b)*ab] *)

Definition pattern_ab : list C := [40; 97; 124; 98; 41; 42; 97; 98].

(** [true] on a run that completes. *)
Definition is_Ok {A : Type} (r : result A) : bool :=
  match r with Ok _ => true | _ => false end.

(** * The contents of the frozen tables *)

(** [ch % AlphabetSize], for an alphabet that is not empty. *)
Definition residue (A : Z) (c : C) : Z := size_t c mod A.

(** The index table built from [chs]: the slot [r] holds the position,
    counted from 1, of the last char of [chs] with the residue [r], and 0
    when [chs] has none. *)
Definition index_exact (A : Z) (chs : list C) (t : list Z) : Prop :=
  length t = Z.to_nat A /\
  forall r, 0 <= r < A ->
    exists j, rd t r = Ok j /\
      ((j = 0 /\ forall c, In c chs -> residue A c <> r) \/
       (exists i c, j = Z.of_nat i + 1 /\ nth_error chs i = Some c /\
                    residue A c = r /\
                    forall k c', (i < k)%nat -> nth_error chs k = Some c' ->
                                 residue A c' <> r)).

(** The cell of the column [j] in the row of a state, after the
    transitions [items] of the state have been written: 0 when none of them
    goes to the column, else the number of the target of one that does. *)
Definition cell_exact (mem : list DfaState.t) (A : Z) (tmp : list Z)
           (items : list (C * ptr)) (j v : Z) : Prop :=
  (v = 0 /\
   forall ch to, In (ch, to) items -> rd tmp (residue A ch) <> Ok (j + 1)) \/
  (exists ch to tost,
      In (ch, to) items /\ rd tmp (residue A ch) = Ok (j + 1) /\
      deref mem to = Ok tost /\ v = DfaState.no tost).

Definition row_exact (mem : list DfaState.t) (A : Z) (tmp : list Z)
           (NChars : nat) (items : list (C * ptr)) (row : list Z) : Prop :=
  length row = NChars /\
  forall j, 0 <= j < Z.of_nat NChars ->
            exists v, rd row j = Ok v /\ cell_exact mem A tmp items j v.

(** The transition table and the table of accepting states once the
    states [done] have been written: the row of a state is at its address
    less one. *)
Definition tables_exact (mem : list DfaState.t) (A : Z) (tmp : list Z)
           (NChars : nat) (done : list ptr)
           (transitions : list (list Z)) (st_is_end_table : list bool) : Prop :=
  length transitions = length mem /\
  length st_is_end_table = length mem /\
  forall p st,
    deref mem p = Ok st ->
    exists row,
      rd transitions (Z.of_nat p - 1) = Ok row /\
      row_exact mem A tmp NChars
                (if existsb (Nat.eqb p) done
                 then map_entries (DfaState.transitions st) else []) row /\
      rd st_is_end_table (Z.of_nat p - 1)
      = Ok (if existsb (Nat.eqb p) done then DfaState.is_end st else false).

(** No char of the input [s] shares its residue with another char, one
    of the alphabet [chs]. *)
Definition collision_free (A : Z) (chs s : list C) : Prop :=
  forall c c', In c s -> In c' chs -> residue A c = residue A c' -> c = c'.

(** * Aliasing in the index table *)


(** The arena and the DFA that [build] returns for a pattern, and an
    empty DFA when it does not return. *)
Definition built (fuel : nat) (pattern : list C) : list DfaState.t * Dfa.t :=
  match build fuel pattern with
  | Ok x => x
  | _ => ([], Dfa.new_dfa nullptr)
  end.

(** * Priority of the union *)




(** * Equivalence of two frozen DFAs *)










(** * Examples of containers *)

(** The map [{97: 5, 98: 6}], built by two calls of [set]. *)
Definition sample_map : map.t Z Z :=
  Eval vm_compute in
    fst (map.set Z.eqb hash_char
                 (fst (map.set Z.eqb hash_char map.new_map 97 5)) 98 6).

(** The set [{1, 2}] of addresses, hashed as themselves. *)
Definition sample_set : set.t nat :=
  Eval vm_compute in
    match set.of_list Nat.eqb Z.of_nat [1%nat; 2%nat] with
    | Ok s => s
    | _ => set.new_set
    end.

(** The queue that holds 1, then 2. *)
Definition sample_queue : unique_queue.t nat :=
  unique_queue.mk [1%nat; 2%nat] sample_set.

(** The load of a map is at most 0.8. *)
Definition load_ok {K V : Type} (m : map.t K V) : Prop :=
  (5 * map.n m <= 4 * map.cap m)%nat.

(** * Sequences of queue operations *)

(** [for (v : l) q.push(v);] *)
Definition push_all {T : Type} (teqb : T -> T -> bool) (h : T -> Z)
           (q : unique_queue.t T) (l : list T) : result (unique_queue.t T) :=
  foreach l q (fun q v => '(q', _) <- unique_queue.push teqb h q v ;; Ok q').

(** [n] calls of [q.pop()], and the values they return, in order. *)
Fixpoint pop_n {T : Type} (teqb : T -> T -> bool) (h : T -> Z)
         (q : unique_queue.t T) (n : nat) : result (unique_queue.t T * list T) :=
  match n with
  | O => Ok (q, [])
  | S n' => '(q1, v) <- unique_queue.pop teqb h q ;;
            '(q2, l) <- pop_n teqb h q1 n' ;;
            Ok (q2, v :: l)
  end.

(** * Character classes *)

(** The chars up to the first [']'], or to the end. *)
Fixpoint class_chars (s : list C) : list C :=
  match s with
  | [] => []
  | c :: r => if c =? Op_code OP_RANGE_END then [] else c :: class_chars r
  end.

(** The chars taken two by two; a last char without a partner is left
    out. *)
Fixpoint pair_up (l : list C) : list (C * C) :=
  match l with
  | a :: b :: r => (a, b) :: pair_up r
  | _ => []
  end.

(** A char that is not the concat operator. *)
Definition not_concat (c : C) : bool := negb (c =? Op_code OP_CONCAT).

(** A char that is not the range operator ['-']. *)
Definition not_range_to (c : C) : bool := negb (c =? Op_code OP_RANGE_TO).

(** The state of the loop of [Normalize] after the chars [s]: the
    normalized chars and whether the loop is inside a class. *)
Definition Normalize_state (s : list C) : list C * bool :=
  fold_left
    (fun (acc : list C * bool) c =>
       let '(s1, is_in_range) := acc in
       let s1 :=
         if IsAbleInsertConcat c
            && negb (stack.empty s1)
            && negb (IsRightActingOperator (last s1 0))
            && negb is_in_range
         then s1 ++ [Op_code OP_CONCAT] else s1 in
       let is_in_range :=
         if c =? Op_code OP_RANGE_START then true
         else if c =? Op_code OP_RANGE_END then false
         else is_in_range in
       (s1 ++ [c], is_in_range))
    s ([], false).

(** What [Normalize] puts before a backslash that follows the chars [p]:
    the normalized [p], and the concat operator when [p] does not end in a
    right-acting operator. *)
Definition before_escape (p : list C) : list C :=
  let s1 := NfaParser.Normalize p in
  if negb (stack.empty s1) && negb (IsRightActingOperator (last s1 0))
  then s1 ++ [Op_code OP_CONCAT] else s1.

(** * Examples of frozen DFAs *)


(** * Examples of NFAs *)

(** The arena of the NFA of the pattern [a*]. *)
Definition heap_a_star : list NfaState.t :=
  Eval vm_compute in
    match NfaParser.Parse NfaParser.new_parser [97; 42] with
    | Ok (ps, _) => NfaParser.states ps
    | _ => []
    end.

(** Two sets with the states 1 to 4 of that arena, added in the two
    orders; they are iterated in different orders. *)
Definition set_1_4 : NfaState.PtrSet :=
  Eval vm_compute in
    match set.of_list Nat.eqb (hash_NfaState heap_a_star)
                      [1%nat; 2%nat; 3%nat; 4%nat] with
    | Ok s => s
    | _ => set.new_set
    end.

Definition set_4_1 : NfaState.PtrSet :=
  Eval vm_compute in
    match set.of_list Nat.eqb (hash_NfaState heap_a_star)
                      [4%nat; 3%nat; 2%nat; 1%nat] with
    | Ok s => s
    | _ => set.new_set
    end.

(** * The arena of NFA states *)

(** A transition table of a state of the arena [heap]: the map and the
    sets it holds are free of duplicates, and the sets hold addresses of
    the arena. *)
Definition table_wf (heap : list NfaState.t) (tbl : NfaState.Table) : Prop :=
  map_wf tbl /\
  forall c ss, In (c, ss) (map_entries tbl) ->
               set_wf ss /\ forall q, In q (set_elems ss) -> valid_ptr heap q.

(** The arena: the state at the address [p] has the id [p], and its table
    is as above. *)
Definition nfa_wf (heap : list NfaState.t) : Prop :=
  forall p st, deref heap p = Ok st ->
               NfaState.id st = u32 (Z.of_nat p) /\
               table_wf heap (NfaState.transitions st).

(** The state at [p] has a transition by [c] to the state at [q]. *)
Definition nfa_edge (heap : list NfaState.t) (p : ptr) (c : C) (q : ptr) : Prop :=
  exists st ss, deref heap p = Ok st /\
                In (c, ss) (map_entries (NfaState.transitions st)) /\
                In q (set_elems ss).

(** The parser: its arena is well formed and the NFAs on its stack have
    their ends in the arena. *)
Definition parser_wf (ps : NfaParser.t) : Prop :=
  nfa_wf (NfaParser.states ps) /\
  forall n, In n (NfaParser.nfa_stack ps) ->
            valid_ptr (NfaParser.states ps) (start n) /\
            valid_ptr (NfaParser.states ps) (end_ n).

(** Checks of the above, for an arena given in full. *)
Fixpoint nodupb {A : Type} (eqb : A -> A -> bool) (l : list A) : bool :=
  match l with
  | [] => true
  | x :: r => negb (existsb (eqb x) r) && nodupb eqb r
  end.

Definition map_wfb {K V : Type} (eqb : K -> K -> bool) (m : map.t K V) : bool :=
  nodupb eqb (map fst (map_entries m))
  && (map.n m =? length (map_entries m))%nat.

Definition valid_ptrb {A : Type} (heap : list A) (p : ptr) : bool :=
  (1 <=? p)%nat && (p <=? length heap)%nat.

Definition table_wfb (heap : list NfaState.t) (tbl : NfaState.Table) : bool :=
  map_wfb Z.eqb tbl
  && forallb (fun e : C * NfaState.PtrSet =>
                map_wfb Nat.eqb (snd e)
                && forallb (valid_ptrb heap) (set_elems (snd e)))
             (map_entries tbl).

Definition nfa_wfb (heap : list NfaState.t) : bool :=
  forallb (fun ie : nat * NfaState.t =>
             (NfaState.id (snd ie) =? u32 (Z.of_nat (S (fst ie))))
             && table_wfb heap (NfaState.transitions (snd ie)))
          (combine (seq 0 (length heap)) heap).

(** The parser and the NFA of the pattern [[a-c]x?]. *)
Definition parsed_class_opt : NfaParser.t * Nfa :=
  Eval vm_compute in
    match NfaParser.Parse NfaParser.new_parser [91; 97; 45; 99; 93; 120; 63] with
    | Ok r => r
    | _ => (NfaParser.new_parser, mkNfa 0 0 0)
    end.

(** * The epsilon closure *)

(** The states reached from the states of [N0] by transitions with the
    label EPSILON. *)
Inductive eps_reach (heap : list NfaState.t) (N0 : list ptr) : ptr -> Prop :=
| reach_start p : In p N0 -> eps_reach heap N0 p
| reach_step p q : eps_reach heap N0 p -> nfa_edge heap p EPSILON q ->
                   eps_reach heap N0 q.
(** * Facts about the embedding *)

(** ** Results and arrays *)

Lemma bind_Ok {A B : Type} (r : result A) (k : A -> result B) (b : B) :
  bind r k = Ok b -> exists a, r = Ok a /\ k a = Ok b.
Proof. destruct r; simpl; intros H; try discriminate. eauto. Qed.

Ltac inv_bind H :=
  let a := fresh "x" in
  let Ha := fresh "E" in
  apply bind_Ok in H; destruct H as (a & Ha & H).

Lemma upd_length {A : Type} (i : nat) (a : A) (l : list A) :
  length (upd i a l) = length l.
Proof. revert i; induction l; intros [|i]; simpl; auto. Qed.

Lemma nth_upd_eq {A : Type} (i : nat) (a d : A) (l : list A) :
  (i < length l)%nat -> nth i (upd i a l) d = a.
Proof.
  revert i; induction l; intros [|i]; simpl; intros; try lia; auto.
  apply IHl; lia.
Qed.

Lemma nth_upd_neq {A : Type} (i j : nat) (a d : A) (l : list A) :
  i <> j -> nth j (upd i a l) d = nth j l d.
Proof.
  revert i j; induction l; intros [|i] [|j]; simpl; intros; try congruence.
  apply IHl; congruence.
Qed.

Lemma nth_error_upd_eq {A : Type} (i : nat) (a : A) (l : list A) :
  (i < length l)%nat -> nth_error (upd i a l) i = Some a.
Proof.
  revert i; induction l; intros [|i]; simpl; intros; try lia; auto.
  apply IHl; lia.
Qed.

Lemma nth_error_upd_neq {A : Type} (i j : nat) (a : A) (l : list A) :
  i <> j -> nth_error (upd i a l) j = nth_error l j.
Proof.
  revert i j; induction l; intros [|i] [|j]; simpl; intros; try congruence.
  apply IHl; congruence.
Qed.

Lemma foreach_app {A S : Type} (l1 l2 : list A) (s : S) body :
  foreach (l1 ++ l2) s body = (s' <- foreach l1 s body ;; foreach l2 s' body).
Proof.
  revert s; induction l1; simpl; intros; auto.
  destruct (body s a); simpl; auto.
Qed.

(** An invariant of the loop state holds after a range-for loop. *)
Lemma foreach_inv {A S : Type} (P : S -> Prop) (l : list A) body :
  (forall s x s', In x l -> P s -> body s x = Ok s' -> P s') ->
  forall s s', P s -> foreach l s body = Ok s' -> P s'.
Proof.
  induction l as [|a l IH]; simpl; intros Hb s s' Hs H.
  - congruence.
  - inv_bind H. apply IH with (s := x); auto.
    + intros s0 y s0' Hy. apply Hb; auto.
    + eapply Hb; eauto.
Qed.

(** ** The map as a finite function *)

Module mapP.
Import map.
Section facts.
Context {K V : Type}.
Variable keqb : K -> K -> bool.
Variable h : K -> Z.
Variable dflt : V.
Hypothesis keqb_eq : forall a b, keqb a b = true <-> a = b.

Local Abbreviation slot := (option (K * V)).
Local Abbreviation t := (map.t K V).
Local Abbreviation ents := (@map_ents K V).
Local Abbreviation entries := (@map_entries K V).
Local Abbreviation wf := (@map_wf K V).
Local Abbreviation written := (@map_written K V).

Lemma ents_In (bb : list slot) (e : K * V) :
  In e (ents bb) <-> exists p, nth p bb None = Some e.
Proof.
  induction bb as [|sl bb IH]; simpl.
  - split; [tauto|]. intros [[|p] H]; discriminate.
  - rewrite in_app_iff, IH. split.
    + intros [H | [p H]].
      * destruct sl; simpl in H; [|tauto]. destruct H; [|tauto]. subst.
        exists O; reflexivity.
      * exists (S p); exact H.
    + intros [[|p] H].
      * left. rewrite H. simpl; auto.
      * right. eauto.
Qed.

Lemma ents_length (bb : list slot) : (length (ents bb) <= length bb)%nat.
Proof.
  induction bb as [|[e|] bb IH]; simpl; lia.
Qed.

Lemma nth_Some_lt (bb : list slot) (p : nat) (e : K * V) :
  nth p bb None = Some e -> (p < length bb)%nat.
Proof.
  intros H. destruct (Nat.lt_ge_cases p (length bb)); auto.
  rewrite nth_overflow in H; [discriminate | lia].
Qed.

(** With distinct keys a key lives in one slot. *)
Lemma ents_unique (bb : list slot) (p q : nat) (k : K) (v v' : V) :
  NoDup (List.map fst (ents bb)) ->
  nth p bb None = Some (k, v) -> nth q bb None = Some (k, v') -> p = q.
Proof.
  revert p q; induction bb as [|sl bb IH]; intros p q ND Hp Hq.
  - destruct p; discriminate.
  - assert (ND' : NoDup (List.map fst (ents bb))).
    { simpl in ND. rewrite map_app in ND. apply NoDup_app_remove_l in ND. exact ND. }
    assert (Hhd : forall r w, sl = Some (k, w) -> nth r bb None = Some (k, v') \/
                                                 nth r bb None = Some (k, v) -> False).
    { intros r w -> Hr. simpl in ND. inversion ND as [|? ? Hn _]; subst.
      apply Hn. apply in_map_iff.
      destruct Hr as [Hr|Hr]; [exists (k, v') | exists (k, v)]; split; auto;
        apply ents_In; eauto. }
    destruct p, q; simpl in *; auto; try (exfalso; eauto; fail).
Qed.

(** *** The probe sequence visits every slot *)

Lemma probes_lt (k : K) (c p : nat) : In p (probes h k c) -> (p < c)%nat.
Proof.
  unfold probes, mod_. rewrite in_map_iff. intros (i & <- & Hi).
  apply in_seq in Hi.
  assert (0 < Z.of_nat c) by lia.
  pose proof (Z.mod_pos_bound (h k + Z.of_nat i) (Z.of_nat c) H). lia.
Qed.

Lemma probes_cover (k : K) (c p : nat) : (p < c)%nat -> In p (probes h k c).
Proof.
  intros Hp. unfold probes, mod_. apply in_map_iff.
  assert (Hc : 0 < Z.of_nat c) by lia.
  pose proof (Z.mod_pos_bound (Z.of_nat p - h k) (Z.of_nat c) Hc) as Hb.
  exists (Z.to_nat ((Z.of_nat p - h k) mod Z.of_nat c)). split.
  - rewrite Z2Nat.id by lia.
    rewrite Zplus_mod_idemp_r.
    replace (h k + (Z.of_nat p - h k)) with (Z.of_nat p) by lia.
    rewrite Z.mod_small by lia. apply Nat2Z.id.
  - apply in_seq. lia.
Qed.

(** *** getp *)

Lemma used_with_Some (bb : list slot) (k : K) (p : nat) :
  used_with keqb bb k p = true <-> exists v, nth p bb None = Some (k, v).
Proof.
  unfold used_with, slot_at. destruct (nth p bb None) as [[k' v]|]; cbn.
  - rewrite keqb_eq. split.
    + intros ->. eauto.
    + intros [w H]. congruence.
  - split; [discriminate | intros [w H]; discriminate].
Qed.

Lemma getp_pos_Some (m : t) (k : K) (p : nat) :
  getp_pos keqb h m k = Some p -> exists v, nth p (b m) None = Some (k, v).
Proof.
  unfold getp_pos. destruct (empty m); [discriminate|].
  intros H. apply find_some in H. apply used_with_Some, H.
Qed.

Lemma getp_pos_getp (m : t) (k : K) (p : nat) (v : V) :
  getp_pos keqb h m k = Some p -> nth p (b m) None = Some (k, v) ->
  getp keqb h m k = Some v.
Proof.
  unfold getp, slot_at. intros -> ->. reflexivity.
Qed.

Lemma getp_In (m : t) (k : K) (v : V) :
  getp keqb h m k = Some v -> In (k, v) (entries m).
Proof.
  unfold getp. destruct (getp_pos keqb h m k) as [p|] eqn:E; [|discriminate].
  apply getp_pos_Some in E. destruct E as [w E]. unfold slot_at. rewrite E.
  intros [= <-]. apply ents_In. eauto.
Qed.

Lemma wf_empty_false (m : t) (e : K * V) :
  wf m -> In e (entries m) -> empty m = false.
Proof.
  intros [_ Hn] Hin. unfold empty. rewrite Hn.
  destruct (entries m); [contradiction | reflexivity].
Qed.

Lemma getp_pos_complete (m : t) (k : K) (v : V) :
  wf m -> In (k, v) (entries m) ->
  exists p, getp_pos keqb h m k = Some p /\ nth p (b m) None = Some (k, v).
Proof.
  intros W Hin. unfold getp_pos. rewrite (wf_empty_false _ _ W Hin).
  apply ents_In in Hin. destruct Hin as [p Hp].
  destruct (find (used_with keqb (b m) k) (probes h k (cap m))) as [q|] eqn:F.
  - exists q. split; auto.
    apply find_some in F. destruct F as [_ F].
    apply used_with_Some in F. destruct F as [w F].
    destruct W as [ND _].
    rewrite <- (ents_unique _ _ _ _ _ _ ND Hp F). exact Hp.
  - exfalso. eapply find_none with (x := p) in F.
    + assert (used_with keqb (b m) k p = true) by (apply used_with_Some; eauto).
      congruence.
    + apply probes_cover. eapply nth_Some_lt; eauto.
Qed.

Lemma getp_complete (m : t) (k : K) (v : V) :
  wf m -> In (k, v) (entries m) -> getp keqb h m k = Some v.
Proof.
  intros W Hin. destruct (getp_pos_complete _ _ _ W Hin) as (p & Hp & Hs).
  eapply getp_pos_getp; eauto.
Qed.

Lemma getp_iff (m : t) (k : K) (v : V) :
  wf m -> (getp keqb h m k = Some v <-> In (k, v) (entries m)).
Proof. intros W; split; [apply getp_In | apply getp_complete; auto]. Qed.

Lemma map_has_iff (m : t) (k : K) :
  wf m -> (has keqb h m k = true <-> In k (List.map fst (entries m))).
Proof.
  intros W. unfold has. rewrite in_map_iff. split.
  - destruct (getp keqb h m k) as [v|] eqn:E; [|discriminate].
    intros _. exists (k, v). split; auto. apply getp_In; auto.
  - intros ([k' v] & Hk & Hin). simpl in Hk; subst.
    rewrite (getp_complete _ _ _ W Hin). reflexivity.
Qed.

Lemma map_wf_new : wf (@new_map K V).
Proof. split; simpl; [constructor | reflexivity]. Qed.

Lemma items_entries (m : t) : wf m -> items m = entries m.
Proof.
  intros [_ Hn]. unfold items, empty. rewrite Hn.
  destruct (entries m) eqn:E; simpl; auto.
Qed.

Lemma keys_entries (m : t) : wf m -> keys m = List.map fst (entries m).
Proof. intros W. unfold keys. rewrite items_entries; auto. Qed.

(** *** resize keeps the entries and their order *)

Lemma put_first_unused_spec (es : list (K * V)) (r : nat) (e : K * V) :
  put_first_unused (List.map Some es ++ repeat None (S r)) e
  = List.map Some (es ++ [e]) ++ repeat None r.
Proof.
  induction es as [|x es IH]; [reflexivity|].
  cbn [List.map app put_first_unused]. rewrite IH. reflexivity.
Qed.

Lemma resize_fold (bb : list slot) (es : list (K * V)) (r : nat) :
  (length (ents bb) <= r)%nat ->
  fold_left (fun nb sl => match sl with
                          | Some e => put_first_unused nb e
                          | None => nb
                          end) bb (List.map Some es ++ repeat None r)
  = List.map Some (es ++ ents bb) ++ repeat None (r - length (ents bb)).
Proof.
  revert es r; induction bb as [|[e|] bb IH]; intros es r Hr.
  - simpl. rewrite app_nil_r, Nat.sub_0_r. reflexivity.
  - simpl in Hr. destruct r; [lia|]. cbn [fold_left].
    rewrite put_first_unused_spec, IH by lia.
    simpl. rewrite <- app_assoc. reflexivity.
  - simpl. apply IH; auto.
Qed.

Lemma ents_map_Some (es : list (K * V)) (r : nat) :
  ents (List.map Some es ++ repeat None r) = es.
Proof.
  induction es; simpl.
  - induction r; simpl; auto.
  - f_equal; auto.
Qed.

Lemma resize_b (m : t) :
  b (resize m) = List.map Some (entries m)
                 ++ repeat None (Nat.max (cap m * 2) 7 - length (entries m)).
Proof.
  unfold resize, entries; simpl.
  pose proof (ents_length (b m)). unfold cap.
  apply (resize_fold (b m) []). lia.
Qed.

Lemma resize_entries (m : t) : entries (resize m) = entries m.
Proof. unfold entries at 1. rewrite resize_b. apply ents_map_Some. Qed.

Lemma resize_cap (m : t) : cap (resize m) = Nat.max (cap m * 2) 7.
Proof.
  unfold cap at 1. rewrite resize_b.
  rewrite length_app, length_map, repeat_length.
  pose proof (ents_length (b m)). unfold entries, cap. lia.
Qed.

Lemma resize_wf (m : t) : wf m -> wf (resize m).
Proof. unfold wf. rewrite resize_entries. auto. Qed.

(** *** Writing a slot *)

Lemma ents_free (bb : list slot) :
  (length (ents bb) < length bb)%nat ->
  exists p, (p < length bb)%nat /\ nth p bb None = None.
Proof.
  induction bb as [|[e|] bb IH]; simpl; intros H.
  - lia.
  - destruct IH as (p & Hp & Hn); [lia|]. exists (S p). split; [lia | auto].
  - exists O. split; [lia | auto].
Qed.

Lemma ents_upd_None (bb : list slot) (p : nat) (e : K * V) :
  nth p bb None = None -> (p < length bb)%nat ->
  Permutation (ents (upd p (Some e) bb)) (e :: ents bb).
Proof.
  revert p; induction bb as [|sl bb IH]; intros [|p]; simpl; intros Hn Hp; try lia.
  - subst sl. reflexivity.
  - destruct sl as [x|]; simpl.
    + rewrite IH by (auto; lia). apply perm_swap.
    + apply IH; auto; lia.
Qed.

Lemma ents_upd_keys (bb : list slot) (p : nat) (k : K) (v0 v : V) :
  nth p bb None = Some (k, v0) ->
  List.map fst (ents (upd p (Some (k, v)) bb)) = List.map fst (ents bb).
Proof.
  revert p; induction bb as [|sl bb IH]; intros [|p]; simpl; intros Hn;
    try discriminate.
  - subst sl. reflexivity.
  - rewrite !map_app. f_equal. eauto.
Qed.

Lemma ents_upd_In (bb : list slot) (p : nat) (sl : slot) (e : K * V) :
  (p < length bb)%nat ->
  (In e (ents (upd p sl bb)) <->
   sl = Some e \/ exists q, q <> p /\ nth q bb None = Some e).
Proof.
  intros Hp. rewrite ents_In. split.
  - intros [q Hq]. destruct (Nat.eq_dec q p) as [->|Hne].
    + rewrite nth_upd_eq in Hq by auto. auto.
    + rewrite nth_upd_neq in Hq by auto. eauto.
  - intros [-> | (q & Hne & Hq)].
    + exists p. apply nth_upd_eq; auto.
    + exists q. rewrite nth_upd_neq by auto. auto.
Qed.

(** *** set, for a key that is not in the map *)

Lemma set_fresh (m : t) (k : K) (v : V) :
  wf m -> ~ In k (List.map fst (entries m)) ->
  exists m', set keqb h m k v = (m', true) /\ wf m' /\
             Permutation (entries m') ((k, v) :: entries m).
Proof.
  intros W Hk. unfold set.
  set (m1 := if too_small m then resize m else m).
  assert (W1 : wf m1) by (unfold m1; destruct (too_small m); auto using resize_wf).
  assert (E1 : entries m1 = entries m)
    by (unfold m1; destruct (too_small m); auto using resize_entries).
  assert (C1 : (n m1 < cap m1)%nat).
  { unfold m1. destruct (too_small m) eqn:T.
    - rewrite resize_cap. simpl. destruct W as [_ Hn].
      pose proof (ents_length (b m)). unfold entries, cap in *. lia.
    - unfold too_small in T. apply orb_false_iff in T. destruct T as [T _].
      apply Nat.ltb_ge in T. lia. }
  destruct (ents_free (b m1)) as (p0 & Hp0 & Hn0).
  { destruct W1 as [_ Hn]. unfold entries, cap in *. lia. }
  match goal with |- context [find ?P ?l] => destruct (find P l) as [p|] eqn:F end.
  - apply find_some in F. destruct F as [Hin F].
    apply probes_lt in Hin.
    assert (Hs : slot_at (b m1) p = None).
    { destruct (slot_at (b m1) p) as [[k' v']|] eqn:S1; auto.
      exfalso. apply Hk. apply keqb_eq in F. subst k'.
      rewrite <- E1. apply in_map_iff. exists (k, v'). split; auto.
      apply ents_In. exists p. exact S1. }
    rewrite Hs. eexists. split; [reflexivity|].
    assert (P : Permutation (ents (upd p (Some (k, v)) (b m1))) ((k, v) :: entries m)).
    { rewrite <- E1. apply ents_upd_None; auto. }
    split; [split|]; simpl; auto.
    + unfold entries; simpl.
      eapply Permutation_NoDup.
      * apply Permutation_map. symmetry. exact P.
      * simpl. constructor; auto. destruct W; auto.
    + unfold entries; simpl. rewrite (Permutation_length P). simpl.
      destruct W1 as [_ Hn]. rewrite Hn, E1. reflexivity.
  - exfalso. eapply find_none with (x := p0) in F.
    + unfold slot_at in F. rewrite Hn0 in F. discriminate.
    + apply probes_cover. exact Hp0.
Qed.

(** *** A write through a reference into the map *)

Lemma store_spec (m : t) (p : nat) (k : K) (v0 v : V) :
  wf m -> nth p (b m) None = Some (k, v0) ->
  wf (store m p v) /\
  List.map fst (entries (store m p v)) = List.map fst (entries m) /\
  (forall k' v', In (k', v') (entries (store m p v)) <->
                 (k' = k /\ v' = v) \/ (k' <> k /\ In (k', v') (entries m))).
Proof.
  intros W Hp. unfold store, slot_at. rewrite Hp. unfold entries; simpl.
  pose proof (ents_upd_keys (b m) p k v0 v Hp) as HK.
  assert (Hlt : (p < length (b m))%nat) by (eapply nth_Some_lt; eauto).
  split; [|split]; auto.
  - destruct W as [ND Hn]. split; simpl.
    + unfold entries; simpl. rewrite HK. auto.
    + unfold entries in *; simpl.
      rewrite <- (length_map fst), HK, length_map. auto.
  - intros k' v'. rewrite ents_upd_In by auto. split.
    + intros [[= <- <-] | (q & Hne & Hq)]; auto.
      right. split.
      * intros ->. apply Hne. destruct W as [ND _].
        eapply ents_unique; eauto.
      * apply ents_In. eauto.
    + intros [[-> ->] | [Hne Hin]]; auto.
      right. apply ents_In in Hin. destruct Hin as [q Hq]. exists q. split; auto.
      intros ->. rewrite Hp in Hq. congruence.
Qed.

(** *** operator[] *)

Lemma subscript_spec (m : t) (k : K) :
  wf m ->
  exists m' p v,
    subscript keqb h dflt m k = Ok (m', p, v) /\ wf m' /\
    nth p (b m') None = Some (k, v) /\
    ((m' = m /\ In (k, v) (entries m)) \/
     (~ In k (List.map fst (entries m)) /\ v = dflt /\
      Permutation (entries m') ((k, dflt) :: entries m))).
Proof.
  intros W. unfold subscript.
  destruct (getp_pos keqb h m k) as [p|] eqn:E.
  - destruct (getp_pos_Some _ _ _ E) as [v Hv].
    rewrite (getp_pos_getp _ _ _ _ E Hv).
    exists m, p, v. split; [reflexivity|]. split; [exact W|]. split; [exact Hv|].
    left. split; auto. apply ents_In; eauto.
  - assert (Hk : ~ In k (List.map fst (entries m))).
    { intros Hin. apply in_map_iff in Hin. destruct Hin as ([k' v] & Hk & Hin).
      simpl in Hk; subst.
      destruct (getp_pos_complete _ _ _ W Hin) as (p & Hp & _). congruence. }
    destruct (set_fresh m k dflt W Hk) as (m' & Hs & W' & P).
    rewrite Hs. simpl.
    assert (Hin : In (k, dflt) (entries m'))
      by (eapply Permutation_in; [symmetry; exact P | left; reflexivity]).
    destruct (getp_pos_complete _ _ _ W' Hin) as (p & Hp & Hsl).
    rewrite Hp, (getp_pos_getp _ _ _ _ Hp Hsl).
    exists m', p, dflt.
    split; [destruct (getp keqb h m k); reflexivity|].
    split; [exact W'|]. split; [exact Hsl|]. right. auto.
Qed.

Lemma subscript_store (m m1 : t) (k : K) (p : nat) (v v' : V) :
  wf m -> subscript keqb h dflt m k = Ok (m1, p, v) ->
  (In (k, v) (entries m) \/ (~ In k (List.map fst (entries m)) /\ v = dflt)) /\
  written m k v' (store m1 p v').
Proof.
  intros W E.
  destruct (subscript_spec m k W) as (m1' & p' & w & E' & W1 & Hsl & Hcase).
  rewrite E in E'. injection E' as <- <- <-.
  destruct (store_spec m1 p k v v' W1 Hsl) as (W2 & HK & HI).
  split.
  - destruct Hcase as [[_ ?] | (? & ? & _)]; auto.
  - split; [exact W2|]. destruct Hcase as [[-> Hin] | (Hk & -> & P)].
    + split; [exact HI|]. split; auto.
      intros Hk. exfalso. apply Hk. apply in_map_iff. exists (k, v). auto.
    + split; [|split].
      * intros k' w. rewrite HI. split.
        -- intros [?|[Hne Hin]]; auto. right. split; auto.
           eapply Permutation_in in Hin; [|exact P].
           destruct Hin as [[= -> ->]|]; [congruence | auto].
        -- intros [?|[Hne Hin]]; auto. right. split; auto.
           eapply Permutation_in; [symmetry; exact P|]. right; auto.
      * intros Hk'. contradiction.
      * intros _. rewrite HK. apply (Permutation_map fst) in P. exact P.
Qed.

Lemma assign_spec (m : t) (k : K) (v : V) :
  wf m -> exists m', assign keqb h dflt m k v = Ok m' /\ written m k v m'.
Proof.
  intros W. unfold assign.
  destruct (subscript_spec m k W) as (m1 & p & w & E & _).
  rewrite E. simpl. eexists. split; [reflexivity|].
  eapply subscript_store; eauto.
Qed.

Lemma modify_spec (m m' : t) (k : K) (f : V -> result V) :
  wf m -> modify keqb h dflt m k f = Ok m' ->
  exists v v',
    (In (k, v) (entries m) \/ (~ In k (List.map fst (entries m)) /\ v = dflt)) /\
    f v = Ok v' /\ written m k v' m'.
Proof.
  intros W H. unfold modify in H.
  inv_bind H. destruct x as [[m1 p] v]. inv_bind H. injection H as <-.
  exists v, x. destruct (subscript_store m m1 k p v x W E). auto.
Qed.

Lemma written_In (m m' : t) (k : K) (v : V) :
  written m k v m' -> In (k, v) (entries m').
Proof. intros (_ & HI & _). apply HI. auto. Qed.

Lemma written_keys (m m' : t) (k : K) (v : V) (k' : K) :
  written m k v m' ->
  (In k' (List.map fst (entries m')) <->
   k' = k \/ In k' (List.map fst (entries m))).
Proof.
  intros (_ & HI & _). rewrite !in_map_iff. split.
  - intros ([k1 w] & <- & Hin). simpl. apply HI in Hin.
    destruct Hin as [[-> _] | [_ Hin]]; auto.
    right. exists (k1, w). auto.
  - intros [-> | ([k1 w] & <- & Hin)].
    + exists (k, v). split; auto. apply HI. auto.
    + simpl. destruct (keqb k1 k) eqn:E.
      * apply keqb_eq in E. subst. exists (k, v). split; auto. apply HI; auto.
      * exists (k1, w). split; auto. apply HI. right. split; auto.
        intros ->. assert (keqb k k = true) by (apply keqb_eq; auto). congruence.
Qed.

(** *** pop *)

Lemma pop_fold_none (ps : list nat) (m : t) (k : K) :
  (forall p, used_with keqb (b m) k p = false) ->
  fold_left (fun m p => if used_with keqb (b m) k p
                        then mk (upd p None (b m)) (n m - 1)
                        else m) ps m = m.
Proof.
  induction ps as [|a ps IH]; simpl; intros H; auto. rewrite H. auto.
Qed.

Lemma pop_fold_one (ps : list nat) (m : t) (k : K) (p0 : nat) (v : V) :
  wf m -> nth p0 (b m) None = Some (k, v) -> In p0 ps ->
  fold_left (fun m p => if used_with keqb (b m) k p
                        then mk (upd p None (b m)) (n m - 1)
                        else m) ps m
  = mk (upd p0 None (b m)) (n m - 1).
Proof.
  intros W Hp. induction ps as [|a ps IH]; simpl; intros Hin; [contradiction|].
  assert (Hlt : (p0 < length (b m))%nat) by (eapply nth_Some_lt; eauto).
  destruct (Nat.eq_dec a p0) as [->|Hne].
  - assert (U : used_with keqb (b m) k p0 = true)
      by (apply used_with_Some; eauto).
    rewrite U. apply pop_fold_none. intros p. simpl.
    destruct (used_with keqb (upd p0 None (b m)) k p) eqn:U'; auto.
    apply used_with_Some in U'. destruct U' as [w U'].
    destruct (Nat.eq_dec p p0) as [->|Hne].
    + rewrite nth_upd_eq in U' by auto. discriminate.
    + rewrite nth_upd_neq in U' by auto.
      destruct W as [ND _]. exfalso. apply Hne.
      eapply ents_unique; eauto.
  - assert (U : used_with keqb (b m) k a = false).
    { destruct (used_with keqb (b m) k a) eqn:U'; auto.
      apply used_with_Some in U'. destruct U' as [w U'].
      destruct W as [ND _]. exfalso. apply Hne.
      eapply ents_unique; eauto. }
    rewrite U. apply IH. destruct Hin; congruence.
Qed.

Lemma ents_upd_clear (bb : list slot) (p : nat) (e : K * V) :
  nth p bb None = Some e ->
  exists l1 l2, ents bb = l1 ++ e :: l2 /\ ents (upd p None bb) = l1 ++ l2.
Proof.
  revert p; induction bb as [|sl bb IH]; intros [|p]; simpl; intros Hp;
    try discriminate.
  - subst sl. exists [], (ents bb). auto.
  - destruct (IH p Hp) as (l1 & l2 & E1 & E2).
    destruct sl as [x|]; simpl.
    + exists (x :: l1), l2. rewrite E1, E2. auto.
    + exists l1, l2. auto.
Qed.

Lemma map_pop_spec (m : t) (k : K) :
  wf m ->
  wf (pop keqb h m k) /\
  (forall k' w, In (k', w) (entries (pop keqb h m k)) <->
                k' <> k /\ In (k', w) (entries m)).
Proof.
  intros W. unfold pop, cap.
  destruct (empty m) eqn:Em.
  { split; auto. intros k' w. split; [|tauto]. intros Hin.
    rewrite (wf_empty_false _ _ W Hin) in Em. discriminate. }
  destruct (has keqb h m k) eqn:Hh.
  - unfold has in Hh. destruct (getp keqb h m k) as [v|] eqn:G; [|discriminate].
    apply getp_In in G.
    destruct (getp_pos_complete _ _ _ W G) as (p0 & _ & Hp0).
    assert (Hlt : (p0 < length (b m))%nat) by (eapply nth_Some_lt; eauto).
    rewrite (pop_fold_one _ _ _ _ _ W Hp0 (probes_cover k _ _ Hlt)).
    destruct (ents_upd_clear _ _ _ Hp0) as (l1 & l2 & E1 & E2).
    destruct W as [ND Hn]. unfold entries in *. split; [split|];
      unfold entries; simpl.
    + rewrite E2. rewrite E1, map_app in ND. simpl in ND.
      apply NoDup_remove_1 in ND. rewrite map_app. exact ND.
    + rewrite E2, Hn, E1, !length_app. simpl. lia.
    + intros k' w. rewrite ents_upd_In by auto. split.
      * intros [? | (q & Hne & Hq)]; [discriminate|]. split.
        -- intros ->. apply Hne. eapply ents_unique; eauto.
        -- apply ents_In; eauto.
      * intros [Hne Hin]. right. apply ents_In in Hin. destruct Hin as [q Hq].
        exists q. split; auto. intros ->. rewrite Hp0 in Hq. congruence.
  - assert (Hk : ~ In k (List.map fst (entries m))).
    { intros Hin. apply (map_has_iff _ _ W) in Hin. congruence. }
    rewrite pop_fold_none.
    + split; auto. intros k' w. split; [|tauto]. intros Hin. split; auto.
      intros ->. apply Hk. apply in_map_iff. exists (k, w). auto.
    + intros p. destruct (used_with keqb (b m) k p) eqn:U; auto.
      apply used_with_Some in U. destruct U as [w U]. exfalso. apply Hk.
      apply in_map_iff. exists (k, w). split; auto. apply ents_In; eauto.
Qed.

End facts.
End mapP.

(** ** The set as a finite set *)

Module setP.
Section facts.
Context {T : Type}.
Variable teqb : T -> T -> bool.
Variable h : T -> Z.
Hypothesis teqb_eq : forall a b, teqb a b = true <-> a = b.

Local Abbreviation elems := (@set_elems T).
Local Abbreviation wf := (@set_wf T).

Lemma set_wf_new : wf set.new_set.
Proof. apply mapP.map_wf_new. Qed.

Lemma elements_elems (s : set.t T) : wf s -> set.elements s = elems s.
Proof. apply mapP.keys_entries. Qed.

Lemma elems_NoDup (s : set.t T) : wf s -> NoDup (elems s).
Proof. intros [ND _]. exact ND. Qed.

Lemma size_elems (s : set.t T) : wf s -> set.size s = length (elems s).
Proof. intros [_ Hn]. unfold set.size, map.size, elems. rewrite length_map. auto. Qed.

Lemma set_empty_iff (s : set.t T) : wf s -> (set.empty s = true <-> elems s = []).
Proof.
  intros [_ Hn]. unfold set.empty, map.empty, elems. rewrite Hn.
  destruct (map_entries s); simpl; split; intros; auto; discriminate.
Qed.

Lemma set_has_iff (s : set.t T) (v : T) :
  wf s -> (set.has teqb h s v = true <-> In v (elems s)).
Proof. apply mapP.map_has_iff; auto. Qed.

Lemma add_spec (s : set.t T) (v : T) :
  wf s ->
  exists s', set.add teqb h s v = Ok (s', true) /\ wf s' /\
             (forall x, In x (elems s') <-> x = v \/ In x (elems s)) /\
             (In v (elems s) -> elems s' = elems s) /\
             (~ In v (elems s) -> Permutation (elems s') (v :: elems s)).
Proof.
  intros W. unfold set.add.
  destruct (mapP.assign_spec teqb h false teqb_eq s v true W) as (s' & E & Hw).
  rewrite E. simpl. exists s'. split; auto.
  split; [apply Hw|]. split.
  - intros x. eapply mapP.written_keys; eauto.
  - destruct Hw as (_ & _ & H1 & H2). split; auto.
Qed.

Lemma set_pop_spec (s : set.t T) (v : T) :
  wf s ->
  wf (set.pop teqb h s v) /\
  (forall x, In x (elems (set.pop teqb h s v)) <-> x <> v /\ In x (elems s)).
Proof.
  intros W. destruct (mapP.map_pop_spec teqb h teqb_eq s v W) as [W' HI].
  split; auto. intros x. unfold elems. rewrite !in_map_iff. split.
  - intros ([k w] & <- & Hin). apply HI in Hin. destruct Hin. split; auto.
    exists (k, w). auto.
  - intros (Hne & ([k w] & <- & Hin)). exists (k, w). split; auto.
    apply HI. auto.
Qed.

Lemma foreach_add (l : list T) (s : set.t T) :
  wf s ->
  exists s', foreach l s (fun s v => '(s', _) <- set.add teqb h s v ;; Ok s') = Ok s'
             /\ wf s' /\ (forall x, In x (elems s') <-> In x l \/ In x (elems s)).
Proof.
  revert s; induction l as [|a l IH]; simpl; intros s W.
  - exists s. split; auto. split; auto. tauto.
  - destruct (add_spec s a W) as (s1 & E & W1 & HI & _). rewrite E. simpl.
    destruct (IH s1 W1) as (s' & E' & W' & HI'). exists s'. split; auto.
    split; auto. intros x. rewrite HI', HI. intuition.
Qed.

Lemma merge_spec (s o : set.t T) :
  wf s -> wf o ->
  exists s', set.merge teqb h s o = Ok s' /\ wf s' /\
             (forall x, In x (elems s') <-> In x (elems o) \/ In x (elems s)).
Proof.
  intros W Wo. unfold set.merge. rewrite (elements_elems o Wo).
  apply foreach_add; auto.
Qed.

Lemma of_list_spec (l : list T) :
  exists s', set.of_list teqb h l = Ok s' /\ wf s' /\
             (forall x, In x (elems s') <-> In x l).
Proof.
  destruct (foreach_add l set.new_set set_wf_new) as (s' & E & W & HI).
  exists s'. split; auto. split; auto. intros x. rewrite HI. simpl. tauto.
Qed.

End facts.
End setP.

(** ** The unique queue *)

Module queueP.
Import unique_queue.
Section facts.
Context {T : Type}.
Variable teqb : T -> T -> bool.
Variable h : T -> Z.
Hypothesis teqb_eq : forall a b, teqb a b = true <-> a = b.

Local Abbreviation wf := (@queue_wf T).

Lemma queue_wf_new : wf new_queue.
Proof using.
  split; [apply setP.set_wf_new|]. split; [constructor|].
  intros x; split; intros [].
Qed.

Lemma queue_empty_iff (q : unique_queue.t T) :
  wf q -> (empty q = true <-> nodes q = []).
Proof.
  intros (W & _ & HI). unfold empty. rewrite (setP.set_empty_iff _ W). split.
  - intros E. destruct (nodes q) as [|x r]; auto.
    assert (In x (set_elems (s q))) by (apply HI; left; auto).
    rewrite E in H. contradiction.
  - intros E. destruct (set_elems (s q)) as [|x r] eqn:E'; auto.
    assert (In x (nodes q)) by (apply HI; left; auto).
    rewrite E in H. contradiction.
Qed.

Lemma queue_has_iff (q : unique_queue.t T) (v : T) :
  wf q -> (has teqb h q v = true <-> In v (nodes q)).
Proof.
  intros (W & _ & HI). unfold has. rewrite (setP.set_has_iff teqb h teqb_eq _ _ W).
  symmetry. apply HI.
Qed.

Lemma queue_push_spec (q : unique_queue.t T) (v : T) :
  wf q ->
  exists q' r, push teqb h q v = Ok (q', r) /\ wf q' /\
               (r = false <-> In v (nodes q)) /\
               (r = false -> q' = q) /\
               (r = true -> nodes q' = nodes q ++ [v]).
Proof.
  intros Wq. pose proof Wq as (W & ND & HI). unfold push.
  destruct (set.has teqb h (s q) v) eqn:Hh.
  - exists q, false. split; auto. split; auto.
    apply (setP.set_has_iff teqb h teqb_eq _ _ W) in Hh. apply HI in Hh.
    split; [tauto|]. split; [auto | discriminate].
  - assert (Hn : ~ In v (set_elems (s q))).
    { intros Hin. apply (setP.set_has_iff teqb h teqb_eq _ _ W) in Hin. congruence. }
    destruct (setP.add_spec teqb h teqb_eq (s q) v W) as (s' & E & W' & HI' & _).
    rewrite E. simpl. eexists _, true. split; [reflexivity|].
    split; [|split; [|split]]; simpl; auto.
    + split; [exact W'|]. split; simpl.
      * apply NoDup_app; auto.
        -- constructor; [intros []|constructor].
        -- intros x Hx [<-|[]]. apply Hn, HI, Hx.
      * intros x. rewrite in_app_iff, HI', HI. simpl. intuition.
    + split; [discriminate|]. intros Hin. exfalso. apply Hn, HI, Hin.
    + discriminate.
Qed.

Lemma queue_pop_spec (q : unique_queue.t T) (v : T) (rest : list T) :
  wf q -> nodes q = v :: rest ->
  exists q', pop teqb h q = Ok (q', v) /\ wf q' /\ nodes q' = rest.
Proof.
  intros Wq E. pose proof Wq as (W & ND & HI). unfold pop.
  destruct (empty q) eqn:Em.
  { apply (queue_empty_iff q Wq) in Em. congruence. }
  rewrite E. eexists. split; [reflexivity|]. split; auto.
  destruct (setP.set_pop_spec teqb h teqb_eq (s q) v W) as [W' HI'].
  rewrite E in ND. inversion ND as [|? ? Hnv ND']; subst.
  split; [exact W'|]. split; simpl; auto.
  intros x. rewrite HI', <- HI, E. simpl. split.
  - intros Hx. split; [|auto]. intros ->. contradiction.
  - intros [Hne [->|Hx]]; [congruence | auto].
Qed.

Lemma queue_pop_empty (q : unique_queue.t T) :
  wf q -> nodes q = [] -> pop teqb h q = Abort EmptyQueue.
Proof.
  intros Wq E. unfold pop. apply (queue_empty_iff q Wq) in E. rewrite E. reflexivity.
Qed.

End facts.
End queueP.

(** ** More fuel gives the same result *)

Lemma refines_refl {A : Type} (r : result A) : refines r r.
Proof. right; reflexivity. Qed.


Lemma bind_refines {A B : Type} (r r' : result A) (k k' : A -> result B) :
  refines r r' -> (forall a, refines (k a) (k' a)) ->
  refines (bind r k) (bind r' k').
Proof.
  intros [->| <-] Hk.
  - left; reflexivity.
  - destruct r; simpl; auto using refines_refl.
Qed.

Lemma foreach_refines {A S : Type} (l : list A) (s : S) body body' :
  (forall s x, refines (body s x) (body' s x)) ->
  refines (foreach l s body) (foreach l s body').
Proof.
  intros Hb. revert s; induction l as [|x l IH]; simpl; intros s.
  - apply refines_refl.
  - apply bind_refines; auto.
Qed.

Module fuelP.
Import DfaBuilder.
Section mono.
Variable heap : list NfaState.t.

Lemma EpsilonClosure_loop_mono (fuel fuel' : nat) stk N :
  (fuel <= fuel')%nat ->
  refines (EpsilonClosure_loop heap fuel stk N)
          (EpsilonClosure_loop heap fuel' stk N).
Proof.
  revert fuel' stk N; induction fuel as [|f IH]; intros fuel' stk N Hle.
  - destruct stk; simpl; [|left; reflexivity].
    destruct fuel'; apply refines_refl.
  - destruct fuel' as [|f']; [lia|]. destruct stk as [|s stk]; simpl.
    + apply refines_refl.
    + apply bind_refines; [apply refines_refl|]. intros st.
      destruct (negb (Nfa_AcceptC st EPSILON)); [apply IH; lia|].
      apply bind_refines; [apply refines_refl|]. intros nexts.
      apply bind_refines; [apply refines_refl|]. intros [N' stk'].
      apply IH; lia.
Qed.

Lemma Move_mono (cf cf' : nat) s Sp c :
  (cf <= cf')%nat -> refines (Move heap cf s Sp c) (Move heap cf' s Sp c).
Proof.
  intros Hle. unfold Move. destruct s as [bs mem].
  apply bind_refines; [apply refines_refl|]. intros Sst.
  apply bind_refines; [apply refines_refl|]. intros tbl.
  apply bind_refines; [apply refines_refl|]. intros N.
  apply bind_refines; [apply refines_refl|]. intros kid.
  destruct (map.getp Z.eqb hash_uint32 (epsilon_closure_cache bs) kid);
    [apply refines_refl|].
  apply bind_refines; [|intros; apply refines_refl].
  unfold EpsilonClosure. apply EpsilonClosure_loop_mono; auto.
Qed.

Lemma Build_char_mono (cf cf' : nat) dfa Sp x c :
  (cf <= cf')%nat ->
  refines (Build_char heap cf dfa Sp x c) (Build_char heap cf' dfa Sp x c).
Proof.
  intros Hle. unfold Build_char. destruct x as [s q].
  apply bind_refines; [apply Move_mono; auto | intros; apply refines_refl].
Qed.

Lemma Build_step_mono (cf cf' : nat) s q dfa :
  (cf <= cf')%nat ->
  refines (Build_step heap cf s q dfa) (Build_step heap cf' s q dfa).
Proof.
  intros Hle. unfold Build_step.
  apply bind_refines; [apply refines_refl|]. intros [q' Sp].
  apply bind_refines; [apply refines_refl|]. intros Sst.
  apply bind_refines; [|intros; apply refines_refl].
  destruct (map.getp Z.eqb hash_uint32 (d (fst s)) (DfaState.id Sst));
    [|apply refines_refl].
  apply bind_refines; [apply refines_refl|]. intros chs.
  apply foreach_refines. intros x c. apply Build_char_mono; auto.
Qed.

Lemma Build_loop_mono (cf cf' fuel fuel' : nat) s q dfa :
  (cf <= cf')%nat -> (fuel <= fuel')%nat ->
  refines (Build_loop heap cf fuel s q dfa) (Build_loop heap cf' fuel' s q dfa).
Proof.
  intros Hc. revert fuel' s q dfa; induction fuel as [|f IH];
    intros fuel' s q dfa Hle; simpl.
  - destruct fuel'; simpl; destruct (unique_queue.empty q);
      try apply refines_refl; left; reflexivity.
  - destruct fuel' as [|f']; [lia|]. simpl.
    destruct (unique_queue.empty q); [apply refines_refl|].
    apply bind_refines; [apply Build_step_mono; auto|].
    intros [[s' q'] dfa']. apply IH; lia.
Qed.

Lemma Build_mono (cf cf' fuel fuel' : nat) bs :
  (cf <= cf')%nat -> (fuel <= fuel')%nat ->
  refines (Build heap cf fuel bs) (Build heap cf' fuel' bs).
Proof.
  intros Hc Hf. unfold Build.
  apply bind_refines; [apply refines_refl|]. intros N0.
  apply bind_refines; [unfold EpsilonClosure; apply EpsilonClosure_loop_mono; auto|].
  intros N1.
  apply bind_refines; [apply refines_refl|]. intros [s S0].
  apply bind_refines; [apply refines_refl|]. intros [q r].
  apply Build_loop_mono; auto.
Qed.

End mono.

Lemma build_mono (fuel fuel' : nat) (pattern : list C) :
  (fuel <= fuel')%nat -> refines (build fuel pattern) (build fuel' pattern).
Proof.
  intros Hle. unfold build.
  apply bind_refines; [apply refines_refl|]. intros [parser nfa].
  apply Build_mono; auto.
Qed.

Lemma Compile_mono (fuel fuel' : nat) (pattern : list C) (pre_index : bool) (A : Z) :
  (fuel <= fuel')%nat ->
  refines (Compile fuel pattern pre_index A) (Compile fuel' pattern pre_index A).
Proof.
  intros Hle. unfold Compile, FixedDfa.ctor, count_of.
  destruct (build_mono fuel fuel' pattern Hle) as [E|E]; rewrite E.
  - left; reflexivity.
  - apply refines_refl.
Qed.

End fuelP.

(** * The claims of the specification *)

(** ** unique_queue *)

Lemma queue_reachable_wf {T : Type} (teqb : T -> T -> bool) (h : T -> Z)
      (teqb_eq : forall a b, teqb a b = true <-> a = b) (q : unique_queue.t T) :
  queue_reachable teqb h q -> queue_wf q.
Proof.
  induction 1 as [|q q' v r _ IH E|q q' v _ IH E].
  - apply queueP.queue_wf_new.
  - destruct (queueP.queue_push_spec teqb h teqb_eq q v IH) as (q1 & r1 & E1 & W & _).
    rewrite E in E1. injection E1 as <- <-. exact W.
  - destruct (unique_queue.nodes q) as [|x rest] eqn:N.
    + rewrite (queueP.queue_pop_empty teqb h q IH N) in E. discriminate.
    + destruct (queueP.queue_pop_spec teqb h teqb_eq q x rest IH N) as (q1 & E1 & W & _).
      rewrite E in E1. injection E1 as <- <-. exact W.
Qed.

(** C6, as the specification states it, fails: the value 7 is pushed on a
    new queue of [uint32_t] and popped; the second [push(7)] returns
    [true] and the queue holds 7 again. *)
Lemma unique_queue_repush_after_pop :
  push_pop_push Z.eqb hash_uint32 7 = Ok (true, [7]) /\
  push_pop_push Z.eqb hash_uint32 7 <> Ok (false, []).
Proof. split; [vm_compute; reflexivity | vm_compute; discriminate]. Qed.

(** C6, amended: on every queue that the operations produce, [push(v)]
    returns [false] and leaves the queue as it is exactly when [v] is in
    the queue at the time of the call, and otherwise appends [v] and
    returns [true]; [pop] takes the value out of the set as well, so a
    [push(v)] that follows the [pop] of [v] returns [true] and enqueues [v]
    again. *)
Theorem unique_queue_push_false_iff_enqueued
        {T : Type} (teqb : T -> T -> bool) (h : T -> Z)
        (teqb_eq : forall a b, teqb a b = true <-> a = b)
        (q : unique_queue.t T) (v : T) :
  queue_reachable teqb h q ->
  (exists q' r,
      unique_queue.push teqb h q v = Ok (q', r) /\
      (r = false <-> In v (unique_queue.nodes q)) /\
      (r = false -> q' = q) /\
      (r = true -> unique_queue.nodes q' = unique_queue.nodes q ++ [v])) /\
  (forall q1, unique_queue.pop teqb h q = Ok (q1, v) ->
              exists q2, unique_queue.push teqb h q1 v = Ok (q2, true) /\
                         unique_queue.nodes q2 = unique_queue.nodes q1 ++ [v]).
Proof.
  intros R. pose proof (queue_reachable_wf teqb h teqb_eq q R) as W. split.
  - destruct (queueP.queue_push_spec teqb h teqb_eq q v W) as (q' & r & E & _ & H1 & H2 & H3).
    exists q', r. split; [exact E|]. split; [exact H1|]. split; [exact H2 | exact H3].
  - intros q1 E.
    destruct (unique_queue.nodes q) as [|x rest] eqn:N.
    { rewrite (queueP.queue_pop_empty teqb h q W N) in E. discriminate. }
    destruct (queueP.queue_pop_spec teqb h teqb_eq q x rest W N) as (q1' & E1 & W1 & N1).
    rewrite E in E1. injection E1 as <- <-.
    destruct (queueP.queue_push_spec teqb h teqb_eq q1 v W1) as (q2 & r & E2 & _ & H1 & _ & H3).
    destruct r.
    + exists q2. auto.
    + exfalso. destruct W as (_ & ND & _). rewrite N in ND.
      apply NoDup_cons_iff in ND. destruct ND as [Hn _]. apply Hn.
      rewrite <- N1. apply H1. reflexivity.
Qed.

Lemma unique_queue_push_false_iff_enqueued_witness :
  (exists q' r,
      unique_queue.push Z.eqb hash_uint32 queue_of_7 7 = Ok (q', r) /\
      (r = false <-> In 7 (unique_queue.nodes queue_of_7)) /\
      (r = false -> q' = queue_of_7) /\
      (r = true -> unique_queue.nodes q' = unique_queue.nodes queue_of_7 ++ [7])) /\
  (forall q1, unique_queue.pop Z.eqb hash_uint32 queue_of_7 = Ok (q1, 7) ->
              exists q2, unique_queue.push Z.eqb hash_uint32 q1 7 = Ok (q2, true) /\
                         unique_queue.nodes q2 = unique_queue.nodes q1 ++ [7]).
Proof.
  apply (unique_queue_push_false_iff_enqueued Z.eqb hash_uint32 Z.eqb_eq
           queue_of_7 7).
  apply (reach_push Z.eqb hash_uint32 unique_queue.new_queue queue_of_7 7 true).
  - apply reach_new.
  - vm_compute. reflexivity.
Defined.

(** ** The empty pattern *)


Lemma size_t_range (z : Z) : 0 <= size_t z < 18446744073709551616.
Proof.
  unfold size_t. change 18446744073709551615 with (Z.ones 64).
  rewrite Z.land_ones by lia. apply Z.mod_pos_bound. reflexivity.
Qed.

Lemma ch_mod_range (A : Z) (ch : C) :
  0 < A -> exists m, ch_mod A ch = Ok m /\ 0 <= m < A.
Proof.
  intros HA. unfold ch_mod.
  replace (A =? 0) with false by (symmetry; apply Z.eqb_neq; lia).
  eexists. split; [reflexivity|]. apply Z.mod_pos_bound; auto.
Qed.





(** ** The accepting flag of NFA states *)

Lemma deref_In {A : Type} (heap : list A) (p : ptr) (a : A) :
  deref heap p = Ok a -> In a heap.
Proof.
  destruct p as [|i]; simpl; [discriminate|].
  destruct (nth_error heap i) eqn:E; [|discriminate].
  intros [= <-]. eapply nth_error_In; eauto.
Qed.

Lemma deref_lt {A : Type} (heap : list A) (p : ptr) (a : A) :
  deref heap p = Ok a -> (1 <= p <= length heap)%nat.
Proof.
  destruct p as [|i]; simpl; [discriminate|].
  destruct (nth_error heap i) eqn:E; [|discriminate].
  intros _. assert (nth_error heap i <> None) by congruence.
  apply nth_error_Some in H. lia.
Qed.

Lemma deref_assign_at_eq {A : Type} (heap : list A) (p : ptr) (a a' : A) :
  deref heap p = Ok a -> deref (assign_at heap p a') p = Ok a'.
Proof.
  intros H. pose proof (deref_lt _ _ _ H). destruct p as [|i]; [lia|].
  simpl. rewrite nth_error_upd_eq by lia. reflexivity.
Qed.

Lemma deref_assign_at_neq {A : Type} (heap : list A) (p q : ptr) (a' : A) :
  p <> q -> deref (assign_at heap p a') q = deref heap q.
Proof.
  intros H. destruct p as [|i], q as [|j]; simpl; auto.
  rewrite nth_error_upd_neq by congruence. reflexivity.
Qed.

Lemma In_upd {A : Type} (i : nat) (a x : A) (l : list A) :
  In x (upd i a l) -> x = a \/ In x l.
Proof.
  revert i; induction l as [|y l IH]; intros [|i]; simpl; auto.
  - intros [->|H]; auto.
  - intros [->|H]; auto. destruct (IH i H); auto.
Qed.

Lemma In_assign_at {A : Type} (heap : list A) (p : ptr) (a x : A) :
  In x (assign_at heap p a) -> x = a \/ In x heap.
Proof. destruct p; simpl; auto. apply In_upd. Qed.

(** [AddTransition] clears the flag of the state it is called on. *)
Lemma Nfa_AddTransition_clears (heap heap' : list NfaState.t) (s : ptr) (c : C) (to : ptr) :
  Nfa_AddTransition heap s c to = Ok heap' ->
  exists st', deref heap' s = Ok st' /\ NfaState.is_end st' = false.
Proof.
  unfold Nfa_AddTransition. intros H. inv_bind H. inv_bind H.
  injection H as <-. eexists. split.
  - eapply deref_assign_at_eq; eauto.
  - simpl. destruct (NfaState.is_end x); reflexivity.
Qed.

Lemma Nfa_AddTransition_final (heap heap' : list NfaState.t) (s : ptr) (c : C) (to : ptr) :
  Nfa_AddTransition heap s c to = Ok heap' ->
  accepting_is_final heap -> accepting_is_final heap'.
Proof.
  unfold Nfa_AddTransition. intros H Inv. inv_bind H. inv_bind H.
  injection H as <-. intros st Hin He.
  apply In_assign_at in Hin. destruct Hin as [->|Hin]; [|auto].
  simpl in He. destruct (NfaState.is_end x); discriminate.
Qed.

Module parserP.
Import NfaParser.

Definition inv (ps : NfaParser.t) : Prop := accepting_is_final (states ps).

Lemma NewState_inv (ps : NfaParser.t) (is_end : bool) :
  inv ps -> inv (fst (NewState ps is_end)).
Proof.
  unfold inv, NewState. simpl. intros Inv st Hin He.
  apply in_app_iff in Hin. destruct Hin as [Hin|[<-|[]]]; auto.
Qed.

Lemma AddTransition_inv (ps ps' : NfaParser.t) (s : ptr) (c : C) (to : ptr) :
  AddTransition ps s c to = Ok ps' -> inv ps -> inv ps'.
Proof.
  unfold AddTransition. intros H Inv. inv_bind H. injection H as <-.
  unfold inv; simpl. eapply Nfa_AddTransition_final; eauto.
Qed.

Ltac step_inv H :=
  repeat match type of H with
         | (let '(_, _) := NewState ?ps ?b in _) = Ok _ =>
             let I := fresh "I" in
             pose proof (NewState_inv ps b) as I;
             destruct (NewState ps b) as [? ?]; simpl in I
         | bind (AddTransition ?ps ?s ?c ?to) _ = Ok _ =>
             let ps' := fresh "ps" in
             let E := fresh "E" in
             apply bind_Ok in H; destruct H as (ps' & E & H);
             apply AddTransition_inv in E; [|solve [auto 12]]
         end.

Lemma NewNfaFromSymbol_inv (ps : NfaParser.t) (c : C) r :
  NewNfaFromSymbol ps c = Ok r -> inv ps -> inv (fst r).
Proof.
  unfold NewNfaFromSymbol. intros H Inv. step_inv H.
  injection H as <-. simpl. auto 12.
Qed.

Lemma NewNfaFromSymbols_inv (ps : NfaParser.t) (chs : set.t C) r :
  NewNfaFromSymbols ps chs = Ok r -> inv ps -> inv (fst r).
Proof.
  unfold NewNfaFromSymbols. intros H Inv. step_inv H.
  inv_bind H. injection H as <-. simpl.
  destruct (negb (set.empty chs)).
  - eapply (foreach_inv inv); [| |exact E]; auto.
    intros s c s' _ Hs Hb. simpl in Hb. eapply AddTransition_inv; eauto.
  - eapply AddTransition_inv; eauto.
Qed.

Lemma NewNfaFromRanges_inv (ps : NfaParser.t) ranges r :
  NewNfaFromRanges ps ranges = Ok r -> inv ps -> inv (fst r).
Proof.
  unfold NewNfaFromRanges. intros H Inv. inv_bind H.
  eapply NewNfaFromSymbols_inv; eauto.
Qed.

Lemma NewNfaFromConcat_inv (ps : NfaParser.t) (a b : Nfa) r :
  NewNfaFromConcat ps a b = Ok r -> inv ps -> inv (fst r).
Proof.
  unfold NewNfaFromConcat. intros H Inv. step_inv H.
  injection H as <-. simpl. auto 12.
Qed.

Lemma NewNfaFromUnion_inv (ps : NfaParser.t) (a b : Nfa) r :
  NewNfaFromUnion ps a b = Ok r -> inv ps -> inv (fst r).
Proof.
  unfold NewNfaFromUnion. intros H Inv. step_inv H.
  injection H as <-. simpl. auto 12.
Qed.

Lemma NewNfaFromClosure_inv (ps : NfaParser.t) (a : Nfa) r :
  NewNfaFromClosure ps a = Ok r -> inv ps -> inv (fst r).
Proof.
  unfold NewNfaFromClosure. intros H Inv. step_inv H.
  injection H as <-. simpl. auto 12.
Qed.

Lemma NewNfaFromOptional_inv (ps : NfaParser.t) (a : Nfa) r :
  NewNfaFromOptional ps a = Ok r -> inv ps -> inv (fst r).
Proof.
  unfold NewNfaFromOptional. intros H Inv. step_inv H.
  injection H as <-. simpl. auto 12.
Qed.

Lemma NewNfaFromPlus_inv (ps : NfaParser.t) (a : Nfa) r :
  NewNfaFromPlus ps a = Ok r -> inv ps -> inv (fst r).
Proof.
  unfold NewNfaFromPlus. intros H Inv. inv_bind H. destruct x as [ps1 p].
  eapply NewNfaFromConcat_inv; eauto.
  eapply (NewNfaFromClosure_inv ps a (ps1, p)); eauto.
Qed.

Lemma pop_nfa_states (ps : NfaParser.t) r :
  pop_nfa ps = Ok r -> states (fst r) = states ps.
Proof.
  unfold pop_nfa. intros H. inv_bind H. destruct x. injection H as <-. reflexivity.
Qed.

Lemma pop_op_states (ps : NfaParser.t) r :
  pop_op ps = Ok r -> states (fst r) = states ps.
Proof.
  unfold pop_op. intros H. inv_bind H. destruct x. injection H as <-. reflexivity.
Qed.

Lemma pop_nfa_inv (ps : NfaParser.t) r :
  pop_nfa ps = Ok r -> inv ps -> inv (fst r).
Proof. intros H. unfold inv. rewrite (pop_nfa_states _ _ H). auto. Qed.

Lemma push_nfa_inv r : inv (fst r) -> inv (push_nfa r).
Proof. unfold inv, push_nfa. simpl. auto. Qed.

Ltac pop_step H I :=
  let E := fresh "E" in
  let x := fresh "x" in
  apply bind_Ok in H; destruct H as (x & E & H);
  apply pop_nfa_inv in E; [|exact I]; destruct x as [? ?]; simpl in E;
  clear I; rename E into I.

Lemma Calc_inv (ps ps' : NfaParser.t) : Calc ps = Ok ps' -> inv ps -> inv ps'.
Proof.
  unfold Calc. destruct (stack.empty (op_stack ps)); [intros [= <-]; auto|].
  intros H Inv. inv_bind H. destruct x as [ps1 op].
  assert (I1 : inv ps1)
    by (unfold inv; apply pop_op_states in E; simpl in E; rewrite E; auto).
  destruct op; try (injection H as <-; exact I1).
  - pop_step H I1. pop_step H I1. inv_bind H. injection H as <-.
    apply push_nfa_inv. eapply NewNfaFromConcat_inv; eauto.
  - pop_step H I1. pop_step H I1. inv_bind H. injection H as <-.
    apply push_nfa_inv. eapply NewNfaFromUnion_inv; eauto.
  - pop_step H I1. inv_bind H. injection H as <-.
    apply push_nfa_inv. eapply NewNfaFromClosure_inv; eauto.
  - pop_step H I1. inv_bind H. injection H as <-.
    apply push_nfa_inv. eapply NewNfaFromPlus_inv; eauto.
  - pop_step H I1. inv_bind H. injection H as <-.
    apply push_nfa_inv. eapply NewNfaFromOptional_inv; eauto.
Qed.

Lemma while_Calc_inv (fuel : nat) cond (ps ps' : NfaParser.t) :
  while_Calc fuel cond ps = Ok ps' -> inv ps -> inv ps'.
Proof.
  revert ps; induction fuel as [|f IH]; simpl; intros ps H Inv.
  - injection H as <-; auto.
  - destruct (op_stack ps) as [|top rest]; [injection H as <-; auto|].
    destruct (cond top); [|injection H as <-; auto].
    inv_bind H. eapply IH; eauto. eapply Calc_inv; eauto.
Qed.

Lemma parse_step_inv (s1 : list C) (i : nat) (ps : NfaParser.t) r :
  parse_step s1 i ps = Ok r -> inv ps -> inv (snd r).
Proof.
  unfold parse_step. intros H Inv.
  assert (Hsym : forall (j : nat) (x : C) (r : nat * NfaParser.t),
             (r0 <- NewNfaFromSymbol ps x ;; Ok (j, push_nfa r0)) = Ok r ->
                               inv (snd r)).
  { intros j x r0 H0. inv_bind H0. injection H0 as <-. simpl.
    apply push_nfa_inv. eapply NewNfaFromSymbol_inv; eauto. }
  assert (Hop : forall (op : Op) (r : nat * NfaParser.t),
             (ps0 <- while_Calc (length (op_stack ps))
                       (fun top => IsCalculationOperator (Op_code top)
                                   && (GetOperatorPriority op <=? GetOperatorPriority top))
                       ps ;; Ok (S i, push_op ps0 op)) = Ok r -> inv (snd r)).
  { intros op r0 H0. inv_bind H0. injection H0 as <-. simpl.
    apply while_Calc_inv in E; auto. }
  destruct (Op_of_char (char_at s1 i)) as [[]|]; eauto.
  - injection H as <-. exact Inv.
  - inv_bind H. inv_bind H. destruct x0 as [ps1 o]. injection H as <-. simpl.
    unfold inv. apply pop_op_states in E0. simpl in E0. rewrite E0.
    eapply while_Calc_inv; eauto.
  - destruct (class_loop (length s1) s1 (S i) EPSILON []) as [j ranges].
    inv_bind H. injection H as <-. simpl.
    apply push_nfa_inv. eapply NewNfaFromRanges_inv; eauto.
  - injection H as <-. exact Inv.
  - destruct (char_at s1 i =? BACKSLASH); eauto.
  - destruct (char_at s1 i =? BACKSLASH); eauto.
Qed.

Lemma parse_loop_inv (fuel : nat) (s1 : list C) (i : nat) (ps ps' : NfaParser.t) :
  parse_loop fuel s1 i ps = Ok ps' -> inv ps -> inv ps'.
Proof.
  revert i ps; induction fuel as [|f IH]; simpl; intros i ps H Inv.
  - destruct (i <? length s1)%nat; [discriminate | injection H as <-; auto].
  - destruct (i <? length s1)%nat; [|injection H as <-; auto].
    inv_bind H. destruct x as [i' ps1].
    eapply IH; eauto. eapply (parse_step_inv s1 i ps (i', ps1)); eauto.
Qed.

Lemma Parse_inv (ps : NfaParser.t) (s : list C) r :
  Parse ps s = Ok r -> inv ps -> inv (fst r).
Proof.
  unfold Parse. intros H Inv.
  inv_bind H. inv_bind H. inv_bind H. inv_bind H. injection H as <-. simpl.
  eapply while_Calc_inv; eauto. eapply parse_loop_inv; eauto.
  apply push_nfa_inv. eapply NewNfaFromSymbol_inv; eauto.
Qed.

End parserP.

(** C9: (1) every call of [NfaState::AddTransition] leaves the state it
    is called on non-accepting; (2) after [Concat(A, B)] the state
    [A.end] is non-accepting; (3) in the arena of every NFA that [Parse]
    builds an accepting state has no outgoing transition (its table was
    never written), so a state is accepting only if no transition was
    added after it was marked accepting at its creation. *)
Theorem accepting_flag_cleared_by_AddTransition :
  (forall heap heap' s c to,
      Nfa_AddTransition heap s c to = Ok heap' ->
      exists st', deref heap' s = Ok st' /\ NfaState.is_end st' = false) /\
  (forall ps ps' a b n,
      NfaParser.NewNfaFromConcat ps a b = Ok (ps', n) ->
      exists st', deref (NfaParser.states ps') (end_ a) = Ok st' /\
                  NfaState.is_end st' = false) /\
  (forall pattern ps nfa,
      NfaParser.Parse NfaParser.new_parser pattern = Ok (ps, nfa) ->
      forall p st, deref (NfaParser.states ps) p = Ok st ->
                   NfaState.is_end st = true ->
                   map.items (NfaState.transitions st) = []).
Proof.
  split; [|split].
  - apply Nfa_AddTransition_clears.
  - intros ps ps' a b n H. unfold NfaParser.NewNfaFromConcat in H.
    inv_bind H. injection H as <- _.
    unfold NfaParser.AddTransition in E. inv_bind E. injection E as <-. simpl.
    eapply Nfa_AddTransition_clears; eauto.
  - intros pattern ps nfa H p st Hd He.
    apply parserP.Parse_inv in H.
    + simpl in H. rewrite (H st (deref_In _ _ _ Hd) He). reflexivity.
    + intros st0 [].
Qed.

(** ** The invariant of the DFA builder *)

Lemma valid_ptr_deref {A : Type} (heap : list A) (p : ptr) :
  valid_ptr heap p -> exists a, deref heap p = Ok a.
Proof.
  unfold valid_ptr. destruct p as [|i]; [lia|]. intros H. simpl.
  destruct (nth_error heap i) eqn:E; eauto.
  apply nth_error_None in E. lia.
Qed.

Lemma deref_app_l {A : Type} (heap x : list A) (p : ptr) (a : A) :
  deref heap p = Ok a -> deref (heap ++ x) p = Ok a.
Proof.
  intros H. pose proof (deref_lt _ _ _ H). destruct p as [|i]; [lia|].
  simpl in *. rewrite nth_error_app1 by lia. exact H.
Qed.

Lemma deref_app_last {A : Type} (heap : list A) (a0 : A) :
  deref (heap ++ [a0]) (S (length heap)) = Ok a0.
Proof. simpl. rewrite nth_error_app2, Nat.sub_diag by lia. reflexivity. Qed.

Lemma deref_app_inv {A : Type} (heap : list A) (a0 : A) (p : ptr) (a : A) :
  deref (heap ++ [a0]) p = Ok a ->
  deref heap p = Ok a \/ (p = S (length heap) /\ a = a0).
Proof.
  intros H. pose proof (deref_lt _ _ _ H) as Hl. rewrite length_app in Hl.
  simpl in Hl. destruct (Nat.eq_dec p (S (length heap))) as [->|Hne].
  - rewrite deref_app_last in H. injection H as <-. auto.
  - left. destruct p as [|i]; [lia|]. simpl in *.
    rewrite nth_error_app1 in H by lia. exact H.
Qed.

Lemma valid_ptr_app {A : Type} (heap x : list A) (p : ptr) :
  valid_ptr heap p -> valid_ptr (heap ++ x) p.
Proof. unfold valid_ptr. rewrite length_app. lia. Qed.

Lemma length_assign_at {A : Type} (heap : list A) (p : ptr) (a : A) :
  length (assign_at heap p a) = length heap.
Proof. destruct p; simpl; auto using upd_length. Qed.

Lemma valid_ptr_assign_at {A : Type} (heap : list A) (p q : ptr) (a : A) :
  valid_ptr heap q -> valid_ptr (assign_at heap p a) q.
Proof. unfold valid_ptr. rewrite length_assign_at. tauto. Qed.

Lemma valid_ptr_assign_at_inv {A : Type} (heap : list A) (p q : ptr) (a : A) :
  valid_ptr (assign_at heap p a) q -> valid_ptr heap q.
Proof. unfold valid_ptr. rewrite length_assign_at. tauto. Qed.

Lemma map_wf_new_entries {K V : Type} : map_entries (@map.new_map K V) = [].
Proof. reflexivity. Qed.

Module buildP.
Import DfaBuilder.

Section with_heap.
Variable heap : list NfaState.t.
Variable cf : nat.

Lemma mem_wf_app (mem : list DfaState.t) (st : DfaState.t) :
  mem_wf mem ->
  DfaState.no st = u16 (Z.of_nat (S (length mem))) ->
  DfaState.transitions st = map.new_map ->
  mem_wf (mem ++ [st]).
Proof.
  intros W Hno Htr. split.
  - intros p st0 H. apply deref_app_inv in H. destruct H as [H|[-> ->]]; auto.
    eapply mem_no; eauto.
  - intros p st0 H. apply deref_app_inv in H. destruct H as [H|[-> ->]].
    + eapply mem_tr_wf; eauto.
    + rewrite Htr. apply mapP.map_wf_new.
  - intros p st0 c t H Hin. apply deref_app_inv in H. destruct H as [H|[-> ->]].
    + apply valid_ptr_app. eapply mem_tr_valid; eauto.
    + rewrite Htr in Hin. contradiction.
Qed.

Lemma NewDfaState_spec bs mem N id bs' mem' p :
  NewDfaState heap (bs, mem) N id = Ok (bs', mem', p) ->
  builder_inv bs mem -> mem_wf mem ->
  (forall id', (if id =? 0 then HashNfaStateIds heap N else Ok id) = Ok id' ->
               ~ In id' (List.map fst (map_entries (states bs)))) ->
  exists st id',
    mem' = mem ++ [st] /\ p = S (length mem) /\
    builder_inv bs' mem' /\ mem_wf mem' /\
    DfaState.transitions st = map.new_map /\
    (if id =? 0 then HashNfaStateIds heap N else Ok id) = Ok id' /\
    map_written (states bs) id' p (states bs').
Proof.
  unfold NewDfaState. intros H B W Hfresh.
  inv_bind H. rename x into id'. inv_bind H. inv_bind H. inv_bind H.
  injection H as <- <- <-.
  destruct (mapP.assign_spec Z.eqb hash_uint32 nullptr Z.eqb_eq (states bs) id'
              (S (length mem)) (b_states_wf _ _ B)) as (m' & Em & Hw).
  rewrite E2 in Em. injection Em as <-.
  specialize (Hfresh id' E).
  eexists _, id'. split; [reflexivity|]. split; [reflexivity|].
  split; [|split; [|split; [reflexivity|split; [exact E|exact Hw]]]].
  - destruct Hw as (Wm & HI & _ & HP). specialize (HP Hfresh). split; simpl.
    + exact Wm.
    + destruct Wm as [_ Hn]. rewrite Hn.
      rewrite <- (length_map fst), (Permutation_length HP). simpl.
      rewrite length_map. destruct (b_states_wf _ _ B) as [_ Hn0].
      rewrite <- Hn0, (b_states_size _ _ B), length_app. simpl. lia.
    + intros k v Hin. apply HI in Hin. destruct Hin as [[-> ->]|[_ Hin]].
      * unfold valid_ptr. rewrite length_app. simpl. lia.
      * apply valid_ptr_app. eapply b_states_valid; eauto.
  - apply mem_wf_app; auto. cbn [DfaState.no]. unfold map.size.
    rewrite (b_states_size _ _ B). f_equal. lia.
Qed.

Lemma map_get_In {K V : Type} keqb h (m : map.t K V) (k : K) (v : V) :
  (forall a b, keqb a b = true <-> a = b) ->
  map.get keqb h m k = Ok v -> In (k, v) (map_entries m).
Proof.
  intros Heq. unfold map.get. destruct (map.getp keqb h m k) eqn:E; [|discriminate].
  intros [= <-]. eapply mapP.getp_In; eauto.
Qed.

Lemma Move_spec bs mem Sp c bs' mem' T :
  Move heap cf (bs, mem) Sp c = Ok (bs', mem', T) ->
  builder_inv bs mem -> mem_wf mem ->
  builder_inv bs' mem' /\ mem_wf mem' /\ valid_ptr mem' T /\
  (mem' = mem \/
   exists st, mem' = mem ++ [st] /\ T = S (length mem) /\
              DfaState.transitions st = map.new_map).
Proof.
  unfold Move. intros H B W.
  inv_bind H. inv_bind H. inv_bind H. inv_bind H. rename x2 into kid.
  destruct (map.getp Z.eqb hash_uint32 (epsilon_closure_cache bs) kid) as [p|].
  - inv_bind H. injection H as <- <- <-.
    split; auto. split; auto. split; auto.
    eapply b_states_valid; eauto. eapply map_get_In; eauto using Z.eqb_eq.
  - inv_bind H. rename x2 into N1. inv_bind H. rename x2 into id.
    inv_bind H. destruct x2 as [bs1 mem1]. inv_bind H. injection H as <- <- <-.
    rename x2 into T. simpl in E6.
    apply (map_get_In _ _ _ _ _ Z.eqb_eq) in E6.
    destruct (negb (map.has Z.eqb hash_uint32 (states bs) id)) eqn:Hh.
    + inv_bind E5. destruct x2 as [[bs2 mem2] p]. injection E5 as <- <-.
      apply negb_true_iff in Hh.
      assert (Eid : (if id =? 0 then HashNfaStateIds heap N1 else Ok id) = Ok id)
        by (destruct (id =? 0); auto).
      destruct (NewDfaState_spec _ _ _ _ _ _ _ E7 B W) as
          (st & id' & -> & -> & B' & W' & Htr & Eid' & Hw).
      { intros id' E' Hin. rewrite Eid in E'. injection E' as <-.
        apply (mapP.map_has_iff Z.eqb hash_uint32 Z.eqb_eq _ _ (b_states_wf _ _ B)) in Hin.
        congruence. }
      rewrite Eid in Eid'. injection Eid' as <-.
      assert (ET : T = S (length mem)).
      { destruct Hw as (_ & HI & _). apply HI in E6.
        destruct E6 as [[_ ?]|[? _]]; congruence. }
      split; [|split; [auto|split]].
      * destruct B'. split; auto.
      * subst T. unfold valid_ptr. rewrite length_app. simpl. lia.
      * right. exists st. auto.
    + injection E5 as <- <-. split; [|split; [auto|split; [|auto]]].
      * destruct B. split; auto.
      * eapply b_states_valid; eauto.
Qed.

Lemma foreach_CSet_add {A : Type} (f : A -> C) (l : list A) (s : set.t C) :
  set_wf s ->
  exists s', foreach l s (fun s p => CSet_add s (f p)) = Ok s' /\ set_wf s' /\
             (forall x, In x (set_elems s') <-> In x (List.map f l) \/ In x (set_elems s)).
Proof.
  revert s; induction l as [|a l IH]; simpl; intros s W.
  - exists s. split; auto. split; auto. tauto.
  - unfold CSet_add at 1.
    destruct (setP.add_spec Z.eqb hash_char Z.eqb_eq s (f a) W) as (s1 & E & W1 & HI & _).
    rewrite E. simpl.
    destruct (IH s1 W1) as (s' & E' & W' & HI'). exists s'. split; auto.
    split; auto. intros x. rewrite HI', HI. intuition.
Qed.

Lemma mem_wf_AddTransition mem Sp Sst c T Sst' :
  mem_wf mem -> deref mem Sp = Ok Sst -> valid_ptr mem T ->
  DfaState.AddTransition Sst c T = Ok Sst' ->
  mem_wf (assign_at mem Sp Sst') /\ deref (assign_at mem Sp Sst') Sp = Ok Sst' /\
  (forall c0 t, In (c0, t) (map_entries (DfaState.transitions Sst)) ->
                exists t', In (c0, t') (map_entries (DfaState.transitions Sst'))).
Proof.
  intros W Hd VT H. unfold DfaState.AddTransition in H. inv_bind H.
  injection H as <-.
  destruct (mapP.assign_spec Z.eqb hash_char nullptr Z.eqb_eq
              (DfaState.transitions Sst) c T (mem_tr_wf _ W _ _ Hd)) as (tr' & Et & Hw).
  rewrite E in Et. injection Et as <-.
  set (Sst' := DfaState.mk _ _ _ _).
  assert (Hsp : deref (assign_at mem Sp Sst') Sp = Ok Sst')
    by (eapply deref_assign_at_eq; eauto).
  split; [|split; [exact Hsp|]].
  2:{ intros c0 t Hin. simpl. destruct Hw as (_ & HI & _).
      destruct (Z.eq_dec c0 c) as [->|Hne].
      - exists T. apply HI. auto.
      - exists t. apply HI. auto. }
  split.
  - intros p st H. destruct (Nat.eq_dec p Sp) as [->|Hne].
    + rewrite Hsp in H. injection H as <-. simpl. eapply mem_no; eauto.
    + rewrite deref_assign_at_neq in H by congruence. eapply mem_no; eauto.
  - intros p st H. destruct (Nat.eq_dec p Sp) as [->|Hne].
    + rewrite Hsp in H. injection H as <-. simpl. apply Hw.
    + rewrite deref_assign_at_neq in H by congruence. eapply mem_tr_wf; eauto.
  - intros p st c0 t H Hin. apply valid_ptr_assign_at.
    destruct (Nat.eq_dec p Sp) as [->|Hne].
    + rewrite Hsp in H. injection H as <-. simpl in Hin.
      destruct Hw as (_ & HI & _). apply HI in Hin.
      destruct Hin as [[_ ->]|[_ Hin]]; auto. eapply mem_tr_valid; eauto.
    + rewrite deref_assign_at_neq in H by congruence. eapply mem_tr_valid; eauto.
Qed.

(** The test [!dfa->Has(T) && !q.has(T)] and the push that depends on it. *)
Lemma enqueue_spec mem dfa (q q1 : unique_queue.t ptr) T :
  queue_wf q -> set_wf (Dfa.states dfa) ->
  (if negb (Dfa.Has mem dfa T)
      && negb (unique_queue.has Nat.eqb (hash_DfaState mem) q T)
   then '(q', _) <- unique_queue.push Nat.eqb (hash_DfaState mem) q T ;; Ok q'
   else Ok q) = Ok q1 ->
  queue_wf q1 /\
  (forall p, In p (unique_queue.nodes q1) -> In p (unique_queue.nodes q) \/ p = T) /\
  (forall p, In p (unique_queue.nodes q) -> In p (unique_queue.nodes q1)) /\
  (In T (set_elems (Dfa.states dfa)) \/ In T (unique_queue.nodes q1)).
Proof.
  intros Wq Ws H.
  destruct (Dfa.Has mem dfa T) eqn:Hh; simpl in H.
  - injection H as <-. split; auto. split; auto. split; auto. left.
    apply (setP.set_has_iff Nat.eqb (hash_DfaState mem) Nat.eqb_eq _ _ Ws). exact Hh.
  - destruct (unique_queue.has Nat.eqb (hash_DfaState mem) q T) eqn:Hq; simpl in H.
    + injection H as <-. split; auto. split; auto. split; auto. right.
      apply (queueP.queue_has_iff Nat.eqb (hash_DfaState mem) Nat.eqb_eq _ _ Wq). exact Hq.
    + inv_bind H. destruct x as [q' r]. injection H as <-.
      destruct (queueP.queue_push_spec Nat.eqb (hash_DfaState mem) Nat.eqb_eq q T Wq)
        as (q2 & r2 & E2 & W2 & Hr & _ & Happ).
      rewrite E in E2. injection E2 as <- <-.
      assert (r = true).
      { destruct r; auto. exfalso.
        assert (In T (unique_queue.nodes q)) by (apply Hr; auto).
        apply (queueP.queue_has_iff Nat.eqb (hash_DfaState mem) Nat.eqb_eq _ _ Wq) in H.
        congruence. }
      subst r. rewrite (Happ eq_refl).
      split; auto. split; [|split].
      * intros p Hp. apply in_app_iff in Hp. destruct Hp as [|[<-|[]]]; auto.
      * intros p Hp. apply in_app_iff. auto.
      * right. apply in_app_iff. right. left. reflexivity.
Qed.

Lemma Build_char_spec dfa Sp bs mem q c s' q' :
  Build_char heap cf dfa Sp ((bs, mem), q) c = Ok (s', q') ->
  build_inv Sp (bs, mem) q dfa -> valid_ptr mem Sp ->
  build_inv Sp s' q' dfa /\ valid_ptr (snd s') Sp.
Proof.
  unfold Build_char. intros H I V.
  inv_bind H. destruct x as [[bs1 mem1] T]. inv_bind H. rename x into Sst.
  inv_bind H. rename x into Sst'. inv_bind H. rename x into q1.
  injection H as <- <-.
  destruct I as [Wm B Wq Vq Ws Wc Vs Cov Chs Chc St]. cbn [fst snd] in *.
  destruct (Move_spec _ _ _ _ _ _ _ E B Wm) as (B1 & W1 & VT & Hmem).
  destruct (mem_wf_AddTransition _ _ _ _ _ _ W1 E0 VT E1) as (W2 & Hsp & Hkeep).
  destruct (enqueue_spec _ _ _ _ _ Wq Ws E2) as (Wq1 & Hq1 & Hq2 & HT).
  assert (Hext : forall p, valid_ptr mem p -> valid_ptr mem1 p).
  { intros p Hp. destruct Hmem as [-> | (st & -> & _)]; auto using valid_ptr_app. }
  assert (Hold : forall p, valid_ptr mem p -> deref mem1 p = deref mem p).
  { intros p Hp. destruct Hmem as [-> | (st & -> & _)]; auto.
    destruct (valid_ptr_deref _ _ Hp) as [a Ha]. rewrite Ha.
    apply deref_app_l; auto. }
  split; [|apply valid_ptr_assign_at; auto].
  split; cbn [fst snd]; auto.
  - destruct B1 as [b1 b2 b3].
    split; [exact b1 | rewrite length_assign_at; exact b2 |].
    intros id p Hin. apply valid_ptr_assign_at. eauto.
  - intros p Hp. apply valid_ptr_assign_at. apply Hq1 in Hp.
    destruct Hp as [Hp| ->]; auto.
  - intros p Hp. apply valid_ptr_assign_at. auto.
  - intros p Hp. apply valid_ptr_assign_at_inv in Hp.
    destruct Hmem as [->|(st & -> & -> & _)].
    + destruct (Cov p Hp) as [?|[?|?]]; auto.
    + unfold valid_ptr in Hp. rewrite length_app in Hp. simpl in Hp.
      destruct (Nat.eq_dec p (S (length mem))) as [->|Hne].
      * destruct HT; auto.
      * assert (Hp' : valid_ptr mem p) by (unfold valid_ptr; lia).
        destruct (Cov p Hp') as [?|[?|?]]; auto.
  - intros p st c0 t Hp Hne Hd Hin.
    rewrite deref_assign_at_neq in Hd by congruence.
    rewrite (Hold p (Vs p Hp)) in Hd. eapply Chs; eauto.
  - intros c0 Hc0. destruct (Chc c0 Hc0) as (p & st & t & Hd & Hin).
    assert (Hp : valid_ptr mem p) by (eapply deref_lt; eauto).
    rewrite <- (Hold p Hp) in Hd.
    destruct (Nat.eq_dec p Sp) as [->|Hne].
    + rewrite E0 in Hd. injection Hd as <-.
      destruct (Hkeep _ _ Hin) as [t' Hin']. exists Sp, Sst', t'. auto.
    + exists p, st, t. rewrite deref_assign_at_neq by congruence. auto.
  - destruct St as [St1 St2]. split; auto. apply valid_ptr_assign_at. auto.
Qed.

Lemma AddState_spec mem dfa Sp dfa' st :
  set_wf (Dfa.states dfa) -> set_wf (Dfa.chs dfa) ->
  deref mem Sp = Ok st -> map_wf (DfaState.transitions st) ->
  Dfa.AddState mem dfa Sp = Ok dfa' ->
  Dfa.start dfa' = Dfa.start dfa /\
  set_wf (Dfa.states dfa') /\ set_wf (Dfa.chs dfa') /\
  (forall p, In p (set_elems (Dfa.states dfa')) <->
             p = Sp \/ In p (set_elems (Dfa.states dfa))) /\
  (forall x, In x (set_elems (Dfa.chs dfa')) <->
             In x (List.map fst (map_entries (DfaState.transitions st))) \/
             In x (set_elems (Dfa.chs dfa))).
Proof.
  intros Ws Wc Hd Wt H. unfold Dfa.AddState in H.
  inv_bind H. destruct x as [sts r]. inv_bind H. inv_bind H. injection H as <-.
  rewrite Hd in E0. injection E0 as <-.
  destruct (setP.add_spec Nat.eqb (hash_DfaState mem) Nat.eqb_eq _ Sp Ws)
    as (s1 & E' & W1 & HI & _).
  rewrite E in E'. injection E' as <- _.
  rewrite (mapP.items_entries _ Wt) in E1.
  destruct (foreach_CSet_add fst (map_entries (DfaState.transitions st)) _ Wc)
    as (c1 & Ec & Wc1 & HIc).
  rewrite E1 in Ec. injection Ec as <-.
  simpl. auto.
Qed.

Lemma Build_step_spec s q dfa s' q' dfa' :
  Build_step heap cf s q dfa = Ok (s', q', dfa') ->
  build_inv nullptr s q dfa -> build_inv nullptr s' q' dfa'.
Proof.
  unfold Build_step. intros H I.
  inv_bind H. destruct x as [q1 Sp]. inv_bind H. rename x into Sst.
  inv_bind H. destruct x as [s2 q2]. inv_bind H. injection H as <- <- <-.
  rename x into dfa'.
  (* the pop *)
  assert (Hpop : exists rest, unique_queue.nodes q = Sp :: rest /\
                              queue_wf q1 /\ unique_queue.nodes q1 = rest).
  { pose proof (bi_queue _ _ _ _ I) as Wq.
    destruct (unique_queue.nodes q) as [|v rest] eqn:N.
    - rewrite (queueP.queue_pop_empty Nat.eqb (hash_DfaState (snd s)) q Wq N) in E.
      discriminate.
    - destruct (queueP.queue_pop_spec Nat.eqb (hash_DfaState (snd s)) Nat.eqb_eq
                  q v rest Wq N) as (q1' & E' & W' & N').
      rewrite E in E'. injection E' as <- <-. eauto. }
  destruct Hpop as (rest & N & Wq1 & N1).
  assert (V : valid_ptr (snd s) Sp)
    by (apply (bi_queue_valid _ _ _ _ I); rewrite N; left; auto).
  assert (I1 : build_inv Sp s q1 dfa).
  { destruct I as [Wm B Wq Vq Ws Wc Vs Cov Chs Chc St]. split; auto.
    - intros p Hp. apply Vq. rewrite N. right. congruence.
    - intros p Hp. destruct (Cov p Hp) as [?|[Hq|?]]; auto.
      + rewrite N in Hq. destruct Hq as [<-|Hq]; auto. right. left. congruence.
      + subst p. unfold valid_ptr, nullptr in Hp. lia.
    - intros p st c t Hp Hne. apply Chs; auto.
      intros ->. apply Vs in Hp. unfold valid_ptr, nullptr in Hp. lia. }
  (* the loop over the characters *)
  assert (I2 : build_inv Sp s2 q2 dfa /\ valid_ptr (snd s2) Sp).
  { destruct (map.getp Z.eqb hash_uint32 (d (fst s)) (DfaState.id Sst)) as [tr|].
    - inv_bind E1.
      set (P := fun x : st * unique_queue.t ptr =>
                  build_inv Sp (fst x) (snd x) dfa /\ valid_ptr (snd (fst x)) Sp).
      assert (Hbody : forall s0 c s0',
                 In c (set.elements x) -> P s0 ->
                 Build_char heap cf dfa Sp s0 c = Ok s0' -> P s0').
      { intros [[bs0 mem0] q0] c [s0' q0'] _ [Hi Hv] Hb. unfold P.
        cbn [fst snd] in *. eapply Build_char_spec; eauto. }
      exact (foreach_inv P _ _ Hbody (s, q1) (s2, q2) (conj I1 V) E1).
    - injection E1 as <- <-. auto. }
  destruct I2 as [I2 V2].
  destruct (valid_ptr_deref _ _ V2) as [Sst2 Hd2].
  destruct I2 as [Wm B Wq Vq Ws Wc Vs Cov Chs Chc St].
  destruct (AddState_spec _ _ _ _ _ Ws Wc Hd2 (mem_tr_wf _ Wm _ _ Hd2) E2)
    as (Hst & Ws' & Wc' & HIs & HIc).
  split; auto.
  - intros p Hp. apply HIs in Hp. destruct Hp as [->|Hp]; auto.
  - intros p Hp. rewrite HIs. destruct (Cov p Hp) as [?|[?|?]]; auto.
  - intros p st0 c t Hp _ Hd Hin. apply HIc. apply HIs in Hp.
    destruct (Nat.eq_dec p Sp) as [->|Hne].
    + left. rewrite Hd2 in Hd. injection Hd as <-.
      apply in_map_iff. exists (c, t). auto.
    + right. destruct Hp as [?|Hp]; [congruence|]. eapply Chs; eauto.
  - intros c Hc. apply HIc in Hc. destruct Hc as [Hc|Hc]; auto.
    apply in_map_iff in Hc. destruct Hc as ([c' t] & <- & Hin).
    exists Sp, Sst2, t. auto.
  - rewrite Hst. auto.
Qed.

Lemma Build_loop_spec fuel s q dfa mem dfa' :
  Build_loop heap cf fuel s q dfa = Ok (mem, dfa') ->
  build_inv nullptr s q dfa -> dfa_wf mem dfa'.
Proof.
  revert s q dfa; induction fuel as [|f IH]; simpl; intros s q dfa H I.
  - destruct (unique_queue.empty q) eqn:Em; [|discriminate].
    injection H as <- <-.
    apply (queueP.queue_empty_iff _ (bi_queue _ _ _ _ I)) in Em.
    destruct I as [Wm B Wq Vq Ws Wc Vs Cov Chs Chc St]. split; auto.
    + intros p. split; auto. intros Hp.
      destruct (Cov p Hp) as [?|[Hq|?]]; auto.
      * rewrite Em in Hq. contradiction.
      * subst p. unfold valid_ptr, nullptr in Hp. lia.
    + intros p st c t Hd Hin.
      assert (Hp : valid_ptr (snd s) p) by (eapply deref_lt; eauto).
      destruct (Cov p Hp) as [?|[Hq|?]].
      * eapply Chs; eauto. intros ->. unfold valid_ptr, nullptr in Hp. lia.
      * rewrite Em in Hq. contradiction.
      * subst p. unfold valid_ptr, nullptr in Hp. lia.
  - destruct (unique_queue.empty q) eqn:Em.
    + apply (IH s q dfa); auto. destruct f; simpl; rewrite Em; auto.
    + inv_bind H. destruct x as [[s1 q1] dfa1].
      eapply IH; eauto. eapply Build_step_spec; eauto.
Qed.

Lemma Build_spec fuel nfa mem dfa :
  Build heap cf fuel (new_builder nfa) = Ok (mem, dfa) -> dfa_wf mem dfa.
Proof.
  unfold Build. intros H.
  inv_bind H. inv_bind H. inv_bind H. destruct x1 as [[bs1 mem1] S0].
  inv_bind H. destruct x1 as [q r].
  assert (B0 : builder_inv (new_builder nfa) []).
  { split; simpl.
    - apply mapP.map_wf_new.
    - reflexivity.
    - intros id p []. }
  assert (W0 : mem_wf []).
  { split; intros [|p] st; simpl; try discriminate;
      destruct p; discriminate. }
  destruct (NewDfaState_spec _ _ _ _ _ _ _ E1 B0 W0)
    as (st & id' & -> & -> & B1 & W1 & Htr & _ & _).
  { intros id' _ []. }
  simpl in *.
  destruct (queueP.queue_push_spec Nat.eqb (hash_DfaState [st]) Nat.eqb_eq
              unique_queue.new_queue 1%nat (queueP.queue_wf_new))
    as (q2 & r2 & E2' & Wq & Hr & _ & Happ).
  rewrite E2 in E2'. injection E2' as <- <-.
  assert (r = true).
  { destruct r; auto. exfalso. assert (H0 : In 1%nat []) by (apply Hr; auto).
    contradiction. }
  subst r. specialize (Happ eq_refl). simpl in Happ.
  eapply Build_loop_spec; eauto.
  split; simpl; auto.
  - intros p Hp. rewrite Happ in Hp. destruct Hp as [<-|[]].
    unfold valid_ptr; simpl; lia.
  - apply setP.set_wf_new.
  - apply setP.set_wf_new.
  - intros p [].
  - intros p Hp. unfold valid_ptr in Hp. simpl in Hp. right. left.
    rewrite Happ. left. lia.
  - intros c [].
  - split; auto. unfold valid_ptr; simpl; lia.
Qed.

End with_heap.

Lemma build_spec (fuel : nat) (pattern : list C) mem dfa :
  build fuel pattern = Ok (mem, dfa) -> dfa_wf mem dfa.
Proof.
  unfold build. intros H. inv_bind H. destruct x as [parser nfa].
  eapply Build_spec; eauto.
Qed.

End buildP.

(** ** The tables that the constructor of FixedDfa fills *)

Lemma rd_Ok {A : Type} (l : list A) (i : Z) (a : A) :
  rd l i = Ok a -> 0 <= i < Z.of_nat (length l) /\ nth_error l (Z.to_nat i) = Some a.
Proof.
  unfold rd. destruct (0 <=? i) eqn:E1; [|discriminate].
  destruct (i <? Z.of_nat (length l)) eqn:E2; [|discriminate]. simpl.
  destruct (nth_error l (Z.to_nat i)); [|discriminate]. intros [= <-].
  apply Z.leb_le in E1. apply Z.ltb_lt in E2. auto.
Qed.

Lemma rd_In {A : Type} (l : list A) (i : Z) (a : A) : rd l i = Ok a -> In a l.
Proof. intros H. apply rd_Ok in H. eapply nth_error_In. apply H. Qed.

Lemma rd_in_range {A : Type} (l : list A) (i : Z) :
  0 <= i < Z.of_nat (length l) -> exists a, rd l i = Ok a.
Proof.
  intros Hi. unfold rd.
  replace (0 <=? i) with true by (symmetry; apply Z.leb_le; lia).
  replace (i <? Z.of_nat (length l)) with true by (symmetry; apply Z.ltb_lt; lia).
  simpl. destruct (nth_error l (Z.to_nat i)) eqn:E; eauto.
  apply nth_error_None in E. lia.
Qed.

Lemma wr_Ok {A : Type} (l l' : list A) (i : Z) (a : A) :
  wr l i a = Ok l' ->
  0 <= i < Z.of_nat (length l) /\ l' = upd (Z.to_nat i) a l.
Proof.
  unfold wr. destruct (0 <=? i) eqn:E1; [|discriminate].
  destruct (i <? Z.of_nat (length l)) eqn:E2; [|discriminate]. simpl.
  intros [= <-]. apply Z.leb_le in E1. apply Z.ltb_lt in E2. auto.
Qed.

Lemma wr_in_range {A : Type} (l : list A) (i : Z) (a : A) :
  0 <= i < Z.of_nat (length l) -> wr l i a = Ok (upd (Z.to_nat i) a l).
Proof.
  intros Hi. unfold wr.
  replace (0 <=? i) with true by (symmetry; apply Z.leb_le; lia).
  replace (i <? Z.of_nat (length l)) with true by (symmetry; apply Z.ltb_lt; lia).
  reflexivity.
Qed.

Lemma Forall_upd {A : Type} (P : A -> Prop) (i : nat) (a : A) (l : list A) :
  Forall P l -> P a -> Forall P (upd i a l).
Proof.
  intros H Ha. revert i; induction H; intros [|i]; simpl; auto.
Qed.

Lemma upd_app_length {A : Type} (pre : list A) (x a : A) (r : list A) :
  upd (length pre) a (pre ++ x :: r) = pre ++ a :: r.
Proof. induction pre; simpl; congruence. Qed.

Lemma u8_range (z : Z) : 0 <= z -> 0 <= u8 z <= z.
Proof.
  intros Hz. unfold u8. change 255 with (Z.ones 8).
  rewrite Z.land_ones by lia. split.
  - apply Z.mod_pos_bound. reflexivity.
  - apply Z.mod_le; lia.
Qed.

Lemma u16_range (z : Z) : 0 <= z -> 0 <= u16 z <= z.
Proof.
  intros Hz. unfold u16. change 65535 with (Z.ones 16).
  rewrite Z.land_ones by lia. split.
  - apply Z.mod_pos_bound. reflexivity.
  - apply Z.mod_le; lia.
Qed.

Lemma u16_small (z : Z) : 0 <= z <= 65535 -> u16 z = z.
Proof.
  intros Hz. unfold u16. change 65535 with (Z.ones 16).
  rewrite Z.land_ones by lia. apply Z.mod_small. lia.
Qed.

Lemma u8_small (z : Z) : 0 <= z <= 255 -> u8 z = z.
Proof.
  intros Hz. unfold u8. change 255 with (Z.ones 8).
  rewrite Z.land_ones by lia. apply Z.mod_small. lia.
Qed.

Module freezeP.

(** The loop that fills [chs] copies the alphabet, in iteration order. *)
Lemma fill_chs (l pre : list Z) (n : nat) :
  foreach l (pre ++ repeat 0 (length l + n), Z.of_nat (length pre))
          (fun '(chs, i) ch => chs <- wr chs i ch ;; Ok (chs, i + 1))
  = Ok (pre ++ l ++ repeat 0 n, Z.of_nat (length pre + length l)).
Proof.
  revert pre; induction l as [|c l IH]; intros pre; simpl.
  - rewrite Nat.add_0_r. reflexivity.
  - rewrite wr_in_range by (rewrite length_app; simpl; lia).
    rewrite Nat2Z.id, upd_app_length. simpl.
    replace (pre ++ c :: repeat 0 (length l + n))
      with ((pre ++ [c]) ++ repeat 0 (length l + n))
      by (rewrite <- app_assoc; reflexivity).
    replace (Z.of_nat (length pre) + 1) with (Z.of_nat (length (pre ++ [c])))
      by (rewrite length_app; simpl; lia).
    rewrite IH. rewrite <- app_assoc, length_app. simpl.
    do 2 f_equal. lia.
Qed.

(** The index table keeps its size, and holds 0 or positions of [chs]. *)
Lemma fill_index_shape (A : Z) (chs : list Z) (t0 t : list Z) :
  fill_index A chs t0 = Ok t ->
  index_shape A (length chs) t0 -> index_shape A (length chs) t.
Proof.
  unfold fill_index. intros H Sh.
  apply (foreach_inv (index_shape A (length chs))) in H; auto.
  intros s i s' Hi [Hl Hf] Hb. apply in_seq in Hi.
  inv_bind Hb. inv_bind Hb. apply wr_Ok in Hb. destruct Hb as [_ ->].
  split.
  - rewrite upd_length. auto.
  - apply Forall_upd; auto.
    pose proof (u8_range (Z.of_nat i + 1)). lia.
Qed.

Lemma fill_index_total (A : Z) (chs : list Z) (t0 : list Z) :
  0 < A -> length t0 = Z.to_nat A ->
  exists t, fill_index A chs t0 = Ok t.
Proof.
  intros HA Hl. unfold fill_index.
  assert (G : forall l t1, length t1 = Z.to_nat A ->
                           (forall i, In i l -> (i < length chs)%nat) ->
                           exists t, foreach l t1
                                       (fun t i => ch <- rd chs (Z.of_nat i) ;;
                                                   j <- ch_mod A ch ;;
                                                   wr t j (u8 (Z.of_nat i + 1))) = Ok t).
  { induction l as [|i l IH]; simpl; intros t1 Ht1 Hin; eauto.
    destruct (rd_in_range chs (Z.of_nat i)) as [ch Ech].
    { specialize (Hin i (or_introl eq_refl)). lia. }
    rewrite Ech. simpl.
    destruct (ch_mod_range A ch HA) as (m & Em & Hm). rewrite Em. simpl.
    rewrite wr_in_range by lia. simpl.
    apply IH; auto. rewrite upd_length. auto. }
  apply G; auto. intros i Hi. apply in_seq in Hi. lia.
Qed.

Section tables.
Variable mem : list DfaState.t.
Variable A : Z.
Variable tmp : list Z.
Variables NStates NChars : nat.

(** [fill_state] keeps the shape of the tables. *)
Lemma fill_state_shape tr et stp tr' et' :
  FixedDfa.fill_state mem A tmp (tr, et) stp = Ok (tr', et') ->
  transitions_shape mem NStates NChars tr /\ length et = NStates ->
  transitions_shape mem NStates NChars tr' /\ length et' = NStates.
Proof.
  unfold FixedDfa.fill_state. intros H [Sh Hl].
  inv_bind H. rename x into st. inv_bind H. rename x into tr1.
  inv_bind H. injection H as <- <-.
  split.
  - apply (foreach_inv (transitions_shape mem NStates NChars)) in E0; auto.
    intros tr0 [ch to] tr0' _ [Hl0 Hf0] Hb.
    inv_bind Hb. inv_bind Hb. inv_bind Hb. rename x1 into tost.
    inv_bind Hb. rename x1 into row. inv_bind Hb. rename x1 into row'.
    apply wr_Ok in Hb. destruct Hb as [_ ->].
    apply wr_Ok in E6. destruct E6 as [_ ->].
    apply rd_In in E5.
    rewrite Forall_forall in Hf0. destruct (Hf0 _ E5) as [Hrl Hrf].
    split.
    + rewrite upd_length. auto.
    + apply Forall_upd; [apply Forall_forall; auto|].
      split.
      * rewrite upd_length. auto.
      * apply Forall_upd; auto. right. eauto.
  - destruct (DfaState.is_end st).
    + apply wr_Ok in E1. destruct E1 as [_ ->]. rewrite upd_length. auto.
    + injection E1 as <-. auto.
Qed.

End tables.

(** The tables of the frozen DFA, for a DFA that satisfies the invariant
    of the builder and the counts that [dfa_count] takes of it. *)
Lemma freeze_shape pre_index A mem dfa fd :
  FixedDfa.freeze pre_index A (Dfa.Size dfa) (set.size (Dfa.chs dfa)) mem dfa = Ok fd ->
  dfa_wf mem dfa ->
  FixedDfa.pre_index fd = pre_index /\
  FixedDfa.AlphabetSize fd = A /\
  FixedDfa.NStates fd = Dfa.Size dfa /\
  FixedDfa.NChars fd = length (set_elems (Dfa.chs dfa)) /\
  FixedDfa.chs fd = set_elems (Dfa.chs dfa) /\
  (exists t, FixedDfa.index_table fd = Ok t /\
             index_shape A (FixedDfa.NChars fd) t) /\
  transitions_shape mem (FixedDfa.NStates fd) (FixedDfa.NChars fd)
                    (FixedDfa.transitions fd) /\
  length (FixedDfa.st_is_end_table fd) = FixedDfa.NStates fd.
Proof.
  unfold FixedDfa.freeze. intros H W.
  pose proof (dw_chs_wf _ _ W) as Wc.
  rewrite (setP.elements_elems _ Wc) in H.
  rewrite (setP.size_elems _ Wc) in H.
  pose proof (fill_chs (set_elems (Dfa.chs dfa)) [] 0) as Hc.
  simpl in Hc. rewrite Nat.add_0_r, app_nil_r in Hc. rewrite Hc in H.
  cbn [bind] in H. clear Hc.
  inv_bind H. rename x into tmp. inv_bind H. destruct x as [tr et].
  injection H as <-. cbn.
  assert (Sh0 : index_shape A (length (set_elems (Dfa.chs dfa)))
                            (repeat 0 (Z.to_nat A))).
  { split; [apply repeat_length|]. apply Forall_forall. intros x Hx.
    apply repeat_spec in Hx. lia. }
  pose proof (fill_index_shape _ _ _ _ E Sh0) as Sht.
  set (NS := Dfa.Size dfa) in *.
  set (NC := length (set_elems (Dfa.chs dfa))) in *.
  assert (Sh : transitions_shape mem NS NC tr /\ length et = NS).
  { set (P := fun x : list (list Z) * list bool =>
                transitions_shape mem NS NC (fst x) /\ length (snd x) = NS).
    assert (Hb : forall s0 x0 s0', In x0 (set.elements (Dfa.states dfa)) -> P s0 ->
                                   FixedDfa.fill_state mem A tmp s0 x0 = Ok s0' -> P s0').
    { intros [tr0 et0] stp [tr0' et0'] _ HP Hf. unfold P in *. cbn [fst snd] in *.
      eapply fill_state_shape; eauto. }
    apply (foreach_inv P _ _ Hb _ (tr, et)) in E0; auto.
    unfold P; cbn [fst snd]. split; [split|].
    - apply repeat_length.
    - apply Forall_forall. intros row Hr. apply repeat_spec in Hr. subst row.
      split; [apply repeat_length|]. apply Forall_forall. intros x Hx.
      apply repeat_spec in Hx. left. auto.
    - apply repeat_length. }
  destruct Sh as [Sh Hl].
  repeat (split; [reflexivity|]). split; [|split; auto].
  unfold FixedDfa.index_table. cbn.
  destruct pre_index.
  - eexists. split; [reflexivity|]. rewrite repeat_length.
    destruct Sht as [Hlt Hft]. rewrite <- Hlt, firstn_all. split; auto.
  - exists tmp. split; auto.
Qed.

End freezeP.

(** ** The invariants of the frozen tables *)

Lemma Size_length mem dfa : dfa_wf mem dfa -> Dfa.Size dfa = length mem.
Proof.
  intros W. unfold Dfa.Size. rewrite (setP.size_elems _ (dw_states_wf _ _ W)).
  assert (P : Permutation (set_elems (Dfa.states dfa)) (seq 1 (length mem))).
  { apply NoDup_Permutation.
    - apply setP.elems_NoDup, W.
    - apply seq_NoDup.
    - intros x. rewrite (dw_states _ _ W), in_seq. unfold valid_ptr. lia. }
  rewrite (Permutation_length P), length_seq. reflexivity.
Qed.

Lemma Compile_Ok fuel pattern pre_index A fd :
  Compile fuel pattern pre_index A = Ok fd ->
  exists mem dfa,
    build fuel pattern = Ok (mem, dfa) /\
    FixedDfa.freeze pre_index A (Dfa.Size dfa) (set.size (Dfa.chs dfa)) mem dfa
    = Ok fd.
Proof.
  unfold Compile, FixedDfa.ctor, count_of. intros H.
  destruct (build fuel pattern) as [[mem dfa]| |]; try discriminate.
  simpl in H. eauto.
Qed.

Lemma entry_ok_range mem t :
  mem_wf mem -> entry_ok mem t -> t <> 0 -> 1 <= t <= Z.of_nat (length mem).
Proof.
  intros W [->|(p & st & Hd & ->)] Hne; [congruence|].
  rewrite (mem_no _ W _ _ Hd) in *.
  pose proof (deref_lt _ _ _ Hd).
  pose proof (u16_range (Z.of_nat p)). lia.
Qed.

(** C8: in every frozen DFA that [Compile] returns, for the DFA that
    [build] returns for the pattern: the start state is numbered 1; when
    the number of states fits the [uint16_t] numbering the states are
    numbered 1 .. NStates, so that 0 numbers no state; [chs] holds each
    character that labels a transition of the DFA, once; and an entry of
    the transition table that is not 0 lies in 1 .. NStates. *)
Theorem frozen_table_invariants fuel pattern pre_index A fd :
  Compile fuel pattern pre_index A = Ok fd ->
  exists mem dfa,
    build fuel pattern = Ok (mem, dfa) /\
    FixedDfa.NStates fd = length mem /\
    (exists st, deref mem (Dfa.start dfa) = Ok st /\ DfaState.no st = 1) /\
    (Z.of_nat (FixedDfa.NStates fd) <= 65535 ->
     forall p st, deref mem p = Ok st ->
                  DfaState.no st = Z.of_nat p /\
                  1 <= DfaState.no st <= Z.of_nat (FixedDfa.NStates fd)) /\
    NoDup (FixedDfa.chs fd) /\
    length (FixedDfa.chs fd) = FixedDfa.NChars fd /\
    (forall c, In c (FixedDfa.chs fd) <->
               exists p st t, deref mem p = Ok st /\
                              In (c, t) (map_entries (DfaState.transitions st))) /\
    (forall s j row t,
        rd (FixedDfa.transitions fd) s = Ok row -> rd row j = Ok t -> t <> 0 ->
        1 <= t <= Z.of_nat (FixedDfa.NStates fd)).
Proof.
  intros H. destruct (Compile_Ok _ _ _ _ _ H) as (mem & dfa & Eb & Ef).
  pose proof (buildP.build_spec _ _ _ _ Eb) as W.
  destruct (freezeP.freeze_shape _ _ _ _ _ Ef W)
    as (_ & _ & HNS & HNC & Hchs & _ & [Hl Hf] & _).
  pose proof (Size_length _ _ W) as HS.
  exists mem, dfa. split; [exact Eb|]. split; [congruence|].
  split; [|split; [|split; [|split; [|split]]]].
  - destruct (dw_start _ _ W) as [-> V].
    destruct (valid_ptr_deref _ _ V) as [st Hd]. exists st. split; auto.
    rewrite (mem_no _ (dw_mem _ _ W) _ _ Hd). reflexivity.
  - intros Hb p st Hd. rewrite (mem_no _ (dw_mem _ _ W) _ _ Hd).
    pose proof (deref_lt _ _ _ Hd). rewrite u16_small by lia. lia.
  - rewrite Hchs. apply setP.elems_NoDup, W.
  - rewrite Hchs, HNC. reflexivity.
  - intros c. rewrite Hchs. split.
    + apply (dw_chs_conv _ _ W).
    + intros (p & st & t & Hd & Hin). eapply (dw_chs _ _ W); eauto.
  - intros s j row t Hr Ht Hne. apply rd_In in Hr. apply rd_In in Ht.
    rewrite Forall_forall in Hf. destruct (Hf _ Hr) as [_ Hrow].
    rewrite Forall_forall in Hrow.
    rewrite HNS, HS. apply entry_ok_range; auto. apply W.
Qed.

(** The frozen DFA of [(a|b)*ab], with the index table built ahead. *)
Definition fd_ab : FixedDfa.t :=
  Eval vm_compute in
    match Compile 10 pattern_ab true 128 with
    | Ok fd => fd
    | _ => FixedDfa.mk false 0 0 0 [] [] [] []
    end.

Lemma Compile_pattern_ab : Compile 10 pattern_ab true 128 = Ok fd_ab.
Proof. vm_compute. reflexivity. Qed.

Lemma frozen_table_invariants_witness :
  exists mem dfa,
    build 10 pattern_ab = Ok (mem, dfa) /\
    FixedDfa.NStates fd_ab = length mem /\
    (exists st, deref mem (Dfa.start dfa) = Ok st /\ DfaState.no st = 1) /\
    (Z.of_nat (FixedDfa.NStates fd_ab) <= 65535 ->
     forall p st, deref mem p = Ok st ->
                  DfaState.no st = Z.of_nat p /\
                  1 <= DfaState.no st <= Z.of_nat (FixedDfa.NStates fd_ab)) /\
    NoDup (FixedDfa.chs fd_ab) /\
    length (FixedDfa.chs fd_ab) = FixedDfa.NChars fd_ab /\
    (forall c, In c (FixedDfa.chs fd_ab) <->
               exists p st t, deref mem p = Ok st /\
                              In (c, t) (map_entries (DfaState.transitions st))) /\
    (forall s j row t,
        rd (FixedDfa.transitions fd_ab) s = Ok row -> rd row j = Ok t -> t <> 0 ->
        1 <= t <= Z.of_nat (FixedDfa.NStates fd_ab)).
Proof.
  apply (frozen_table_invariants 10 pattern_ab true 128 fd_ab).
  vm_compute. reflexivity.
Defined.

(** ** Matching is total *)

Lemma Match_loop_total (fd : FixedDfa.t) (mem : list DfaState.t) (t : list Z) :
  0 < FixedDfa.AlphabetSize fd -> mem_wf mem ->
  FixedDfa.NStates fd = length mem ->
  index_shape (FixedDfa.AlphabetSize fd) (FixedDfa.NChars fd) t ->
  transitions_shape mem (FixedDfa.NStates fd) (FixedDfa.NChars fd)
                    (FixedDfa.transitions fd) ->
  forall s st,
    1 <= st <= Z.of_nat (FixedDfa.NStates fd) ->
    exists fail st',
      FixedDfa.Match_loop fd t s st = Ok (fail, st') /\
      1 <= st' <= Z.of_nat (FixedDfa.NStates fd).
Proof.
  intros HA W HN [Hlt Hft] [Hl Hf]. induction s as [|ch s IH]; intros st Hst.
  - simpl. eauto.
  - simpl. destruct (ch_mod_range _ ch HA) as (m & Em & Hm). rewrite Em. simpl.
    destruct (rd_in_range t m) as [j Ej]; [lia|]. rewrite Ej. simpl.
    destruct (j =? 0) eqn:Hj; [eauto|]. apply Z.eqb_neq in Hj.
    destruct (rd_in_range (FixedDfa.transitions fd) (st - 1)) as [row Er]; [lia|].
    rewrite Er. simpl.
    pose proof (rd_In _ _ _ Er) as Hrow. pose proof (rd_In _ _ _ Ej) as Hjin.
    rewrite Forall_forall in Hf, Hft.
    destruct (Hf _ Hrow) as [Hrl Hrf]. specialize (Hft _ Hjin).
    destruct (rd_in_range row (j - 1)) as [to Eto]; [lia|]. rewrite Eto. simpl.
    destruct (to =? 0) eqn:Hto; [eauto|]. apply Z.eqb_neq in Hto.
    apply IH. rewrite HN. apply entry_ok_range; auto.
    rewrite Forall_forall in Hrf. apply Hrf. eapply rd_In; eauto.
Qed.

(** With the alphabet size 0 the first char of the input is reduced
    modulo 0, by the loop of [Match] or, before it, by the loop that fills
    the index table. *)
Lemma Match_zero_alphabet (fd : FixedDfa.t) (ch : C) (s : list C) :
  FixedDfa.AlphabetSize fd = 0 -> FixedDfa.Match fd (ch :: s) = Abort DivByZero.
Proof.
  intros HA. unfold FixedDfa.Match, FixedDfa.index_table. rewrite HA.
  destruct (FixedDfa.pre_index fd).
  - cbn [bind FixedDfa.Match_loop]. rewrite HA. reflexivity.
  - unfold fill_index. destruct (FixedDfa.chs fd) as [|c r].
    + cbn [length seq foreach bind FixedDfa.Match_loop]. rewrite HA. reflexivity.
    + cbn [length seq foreach]. reflexivity.
Qed.

(** C4, as the specification states it, fails for the alphabet size 0:
    the pattern [()] is compiled, and [Match] on the input [a] computes
    [ch % 0]. *)
Lemma zero_alphabet_match_fails :
  is_Ok (Compile 10 [40; 41] true 0) = true /\
  (fd <- Compile 10 [40; 41] true 0 ;; FixedDfa.Match fd [97]) = Abort DivByZero.
Proof. split; vm_compute; reflexivity. Qed.

(** C4, amended: for every frozen DFA that [Compile] returns for an
    alphabet size that is not 0 and every input, of any chars, [Match]
    returns [true] or [false]: no subscript of the index table, of the
    transition table or of the accept table is out of range, and when a
    lookup misses (the loop sets [fail]) the result is [false].  For the
    alphabet size 0, [Match] divides by zero on every input that is not
    empty. *)
Theorem FixedDfa_Match_total fuel pattern pre_index A fd (s : list C) :
  Compile fuel pattern pre_index A = Ok fd ->
  (0 < A ->
   exists t fail st' r,
     FixedDfa.index_table fd = Ok t /\
     FixedDfa.Match_loop fd t s 1 = Ok (fail, st') /\
     1 <= st' <= Z.of_nat (FixedDfa.NStates fd) /\
     FixedDfa.Match fd s = Ok r /\
     (fail = true -> r = false)) /\
  (A = 0 -> s <> [] -> FixedDfa.Match fd s = Abort DivByZero).
Proof.
  intros H. destruct (Compile_Ok _ _ _ _ _ H) as (mem & dfa & Eb & Ef).
  pose proof (buildP.build_spec _ _ _ _ Eb) as W.
  destruct (freezeP.freeze_shape _ _ _ _ _ Ef W)
    as (_ & HAs & HNS & HNC & Hchs & (t & Et & Sht) & Sh & Hle).
  pose proof (Size_length _ _ W) as HS.
  assert (HN : FixedDfa.NStates fd = length mem) by congruence.
  assert (H1 : 1 <= 1 <= Z.of_nat (FixedDfa.NStates fd)).
  { destruct (dw_start _ _ W) as [_ V]. unfold valid_ptr in V. lia. }
  split.
  - intros HA. rewrite <- HAs in HA, Sht.
    destruct (Match_loop_total fd mem t HA (dw_mem _ _ W) HN Sht Sh s 1 H1)
      as (fail & st' & El & Hst').
    assert (EM : FixedDfa.Match fd s
                 = if fail then Ok false
                   else rd (FixedDfa.st_is_end_table fd) (st' - 1)).
    { unfold FixedDfa.Match. rewrite Et. cbn [bind]. rewrite El. reflexivity. }
    destruct fail.
    + exists t, true, st', false. auto.
    + destruct (rd_in_range (FixedDfa.st_is_end_table fd) (st' - 1)) as [r Er];
        [lia|].
      exists t, false, st', r. rewrite EM, Er.
      split; [exact Et|]. split; [exact El|]. split; [exact Hst'|].
      split; [reflexivity | discriminate].
  - intros HA Hs. destruct s as [|ch s]; [congruence|].
    apply Match_zero_alphabet. congruence.
Qed.

Lemma FixedDfa_Match_total_witness :
  exists t fail st' r,
    FixedDfa.index_table fd_ab = Ok t /\
    FixedDfa.Match_loop fd_ab t [97; -31; 98] 1 = Ok (fail, st') /\
    1 <= st' <= Z.of_nat (FixedDfa.NStates fd_ab) /\
    FixedDfa.Match fd_ab [97; -31; 98] = Ok r /\
    (fail = true -> r = false).
Proof.
  apply (FixedDfa_Match_total 10 pattern_ab true 128 fd_ab [97; -31; 98]).
  - vm_compute. reflexivity.
  - lia.
Defined.


(** ** FixedDfa::Match and the table algorithm of the specification *)

Lemma byte_residue (A : Z) (c : C) :
  0 < A -> byte_residue_ok A c -> size_t c mod A = byte_of c mod A.
Proof.
  intros HA [Hc H]. unfold size_t, byte_of, CHAR_MAX, CHAR_MIN in *.
  change 18446744073709551615 with (Z.ones 64). rewrite Z.land_ones by lia.
  change (2 ^ 64) with 18446744073709551616 in *.
  destruct (Z_lt_le_dec c 0) as [Hn|Hp].
  - destruct H as [H|[k Hk]]; [lia|].
    rewrite <- (Z.mod_unique c 18446744073709551616 (-1)
                             (c + 18446744073709551616)) by lia.
    rewrite <- (Z.mod_unique c 256 (-1) (c + 256)) by lia.
    replace (c + 18446744073709551616) with (c + 256 + k * A) by lia.
    apply Z.mod_add. lia.
  - rewrite (Z.mod_small c 18446744073709551616), (Z.mod_small c 256) by lia.
    reflexivity.
Qed.

(** The loop that fills the index table, on chars whose residue is the
    one of their byte. *)
Lemma fill_index_fold (A : Z) (rest : list C) :
  0 < A ->
  forall (pre : list C) (t : list Z),
    length t = Z.to_nat A ->
    (length (pre ++ rest) <= 255)%nat ->
    (forall c, In c rest -> byte_residue_ok A c) ->
    foreach (seq (length pre) (length rest)) t
      (fun t i => ch <- rd (pre ++ rest) (Z.of_nat i) ;;
                  j <- ch_mod A ch ;;
                  wr t j (u8 (Z.of_nat i + 1)))
    = Ok (fold_left (fun tmp ic =>
                       upd (Z.to_nat (byte_of (snd ic) mod A))
                           (1 + Z.of_nat (fst ic)) tmp)
                    (combine (seq (length pre) (length rest)) rest) t).
Proof.
  intros HA. induction rest as [|c r IH]; intros pre t Ht Hl Hok; [reflexivity|].
  cbn [length seq foreach combine fold_left fst snd].
  assert (Er : rd (pre ++ c :: r) (Z.of_nat (length pre)) = Ok c).
  { unfold rd. rewrite length_app. cbn [length].
    replace (0 <=? Z.of_nat (length pre)) with true by (symmetry; apply Z.leb_le; lia).
    replace (Z.of_nat (length pre) <? Z.of_nat (length pre + S (length r)))
      with true by (symmetry; apply Z.ltb_lt; lia).
    cbn [andb]. rewrite Nat2Z.id, nth_error_app2, Nat.sub_diag by lia. reflexivity. }
  assert (Ec : ch_mod A c = Ok (byte_of c mod A)).
  { unfold ch_mod.
    replace (A =? 0) with false by (symmetry; apply Z.eqb_neq; lia).
    rewrite (byte_residue A c HA) by (apply Hok; left; reflexivity).
    reflexivity. }
  rewrite Er. cbn [bind]. rewrite Ec. cbn [bind].
  assert (Hm : 0 <= byte_of c mod A < A) by (apply Z.mod_pos_bound; exact HA).
  rewrite wr_in_range by lia. cbn [bind].
  rewrite length_app in Hl. cbn [length] in Hl.
  rewrite u8_small by lia.
  replace (Z.of_nat (length pre) + 1) with (1 + Z.of_nat (length pre)) by lia.
  assert (El : length (pre ++ [c]) = S (length pre))
    by (rewrite length_app; cbn [length]; lia).
  specialize (IH (pre ++ [c]) (upd (Z.to_nat (byte_of c mod A))
                                   (1 + Z.of_nat (length pre)) t)).
  rewrite <- app_assoc, El in IH. cbn [app] in IH.
  apply IH.
  - rewrite upd_length. exact Ht.
  - rewrite length_app. cbn [length]. lia.
  - intros x Hx. apply Hok. right. exact Hx.
Qed.

Lemma index_table_spec (fd : FixedDfa.t) :
  0 < FixedDfa.AlphabetSize fd ->
  (FixedDfa.pre_index fd = false ->
   (length (FixedDfa.chs fd) <= 255)%nat /\
   forall c, In c (FixedDfa.chs fd) ->
             byte_residue_ok (FixedDfa.AlphabetSize fd) c) ->
  FixedDfa.index_table fd = Ok (spec_index_table fd).
Proof.
  intros HA H. unfold FixedDfa.index_table, spec_index_table.
  destruct (FixedDfa.pre_index fd); [reflexivity|].
  destruct (H eq_refl) as [Hl Hok]. unfold fill_index, spec_tmp.
  apply (fill_index_fold _ (FixedDfa.chs fd) HA []); auto.
  rewrite repeat_length. reflexivity.
Qed.

Lemma Match_loop_spec_run (fd : FixedDfa.t) (t : list Z) (s : list C) :
  0 < FixedDfa.AlphabetSize fd ->
  (forall c, In c s -> byte_residue_ok (FixedDfa.AlphabetSize fd) c) ->
  forall st,
    ('(fail, st') <- FixedDfa.Match_loop fd t s st ;;
     if (fail : bool) then Ok false
     else rd (FixedDfa.st_is_end_table fd) (st' - 1))
    = (r <- spec_run (FixedDfa.AlphabetSize fd) t (FixedDfa.transitions fd) s st ;;
       match r with
       | None => Ok false
       | Some st' => rd (FixedDfa.st_is_end_table fd) (st' - 1)
       end).
Proof.
  intros HA. induction s as [|ch s IH]; intros Hok st; [reflexivity|].
  cbn [FixedDfa.Match_loop spec_run].
  assert (Ec : ch_mod (FixedDfa.AlphabetSize fd) ch
               = Ok (byte_of ch mod FixedDfa.AlphabetSize fd)).
  { unfold ch_mod.
    replace (FixedDfa.AlphabetSize fd =? 0) with false
      by (symmetry; apply Z.eqb_neq; lia).
    rewrite (byte_residue _ ch HA) by (apply Hok; left; reflexivity).
    reflexivity. }
  rewrite Ec. cbn [bind].
  destruct (rd t (byte_of ch mod FixedDfa.AlphabetSize fd)) as [j| |];
    cbn [bind]; auto.
  destruct (j =? 0); cbn [bind]; auto.
  destruct (rd (FixedDfa.transitions fd) (st - 1)) as [row| |]; cbn [bind]; auto.
  destruct (rd row (j - 1)) as [to| |]; cbn [bind]; auto.
  destruct (to =? 0); cbn [bind]; auto.
  apply IH. intros c Hc. apply Hok. right. exact Hc.
Qed.

(** C1, as the specification states it, fails: a character of the
    specification is an 8-bit byte, and the code reduces the [char]
    converted to [std::size_t].  For the pattern [U] (0x55) and the
    alphabet size 100, the byte 0xE1 has the residue 225 mod 100 = 25, at
    which the index table holds 0, so the table algorithm rejects the
    input; [FixedDfa::Match] computes (2^64 - 31) mod 100 = 85, the slot
    of [U], and accepts it. *)
Lemma byte_residue_differs :
  Compile 10 [85] true 100 = Ok fd_U_100 /\
  FixedDfa.Match fd_U_100 [-31] = Ok true /\
  spec_match fd_U_100 [-31] = Ok false.
Proof. repeat split; vm_compute; reflexivity. Qed.

(** C1, amended: for every frozen DFA [fd] with an alphabet size that is
    not 0 (so for every one that [Compile] returns for it) and every input
    [s], [FixedDfa::Match] gives the result of the table algorithm of the
    specification (the same boolean, and the same failure if a subscript
    is out of range), provided the residue of every input char is the one
    of its byte: the char is below 0x80, or the alphabet size divides
    [2^64 - 256] (as 128 and 256 do); when the index table is built by
    [Match], the same is asked of the accepted chars, which are at most
    255. *)
Theorem FixedDfa_Match_is_table_algorithm (fd : FixedDfa.t) (s : list C) :
  0 < FixedDfa.AlphabetSize fd ->
  (forall c, In c s -> byte_residue_ok (FixedDfa.AlphabetSize fd) c) ->
  (FixedDfa.pre_index fd = false ->
   (length (FixedDfa.chs fd) <= 255)%nat /\
   forall c, In c (FixedDfa.chs fd) ->
             byte_residue_ok (FixedDfa.AlphabetSize fd) c) ->
  FixedDfa.Match fd s = spec_match fd s.
Proof.
  intros HA Hs Hc. unfold FixedDfa.Match, spec_match.
  rewrite (index_table_spec fd HA Hc). cbn [bind].
  apply Match_loop_spec_run; assumption.
Qed.

Lemma FixedDfa_Match_is_table_algorithm_witness :
  FixedDfa.Match fd_lazy_ab [97; -31; 98] = spec_match fd_lazy_ab [97; -31; 98].
Proof.
  assert (D : (128 | 2 ^ 64 - 256)) by (exists (2 ^ 57 - 2); reflexivity).
  apply (FixedDfa_Match_is_table_algorithm fd_lazy_ab [97; -31; 98]).
  - reflexivity.
  - intros c [<-|[<-|[<-|[]]]]; (split; [vm_compute; split; discriminate|]);
      right; exact D.
  - intros _. split; [vm_compute; lia|].
    intros c [<-|[<-|[]]]; (split; [vm_compute; split; discriminate|]);
      right; exact D.
Defined.

(** ** Malformed patterns *)

Module malformedP.
Import NfaParser.

Lemma AddTransition_op_stack ps s c to ps' :
  AddTransition ps s c to = Ok ps' ->
  op_stack ps' = op_stack ps /\ nfa_stack ps' = nfa_stack ps.
Proof.
  unfold AddTransition. intros H. inv_bind H. injection H as <-. auto.
Qed.

Ltac stacks H :=
  repeat match type of H with
         | (let '(_, _) := NewState ?ps ?b in _) = Ok _ =>
             unfold NewState in H; cbn [with_states] in H
         | bind (AddTransition ?ps ?s ?c ?to) _ = Ok _ =>
             let ps' := fresh "ps" in
             let E := fresh "E" in
             apply bind_Ok in H; destruct H as (ps' & E & H);
             apply AddTransition_op_stack in E; cbn [op_stack nfa_stack] in E;
             destruct E as [? ?]
         end.

Ltac finish :=
  unfold with_states in *; cbn [op_stack nfa_stack states fst] in *; congruence.

Lemma NewNfaFromSymbol_ops ps c r :
  NewNfaFromSymbol ps c = Ok r -> op_stack (fst r) = op_stack ps.
Proof.
  unfold NewNfaFromSymbol. intros H. stacks H. injection H as <-. finish.
Qed.

Lemma NewNfaFromConcat_ops ps a b r :
  NewNfaFromConcat ps a b = Ok r -> op_stack (fst r) = op_stack ps.
Proof.
  unfold NewNfaFromConcat. intros H. stacks H. injection H as <-. finish.
Qed.

Lemma NewNfaFromUnion_ops ps a b r :
  NewNfaFromUnion ps a b = Ok r -> op_stack (fst r) = op_stack ps.
Proof.
  unfold NewNfaFromUnion. intros H. stacks H. injection H as <-. finish.
Qed.

Lemma NewNfaFromClosure_ops ps a r :
  NewNfaFromClosure ps a = Ok r -> op_stack (fst r) = op_stack ps.
Proof.
  unfold NewNfaFromClosure. intros H. stacks H. injection H as <-. finish.
Qed.

Lemma NewNfaFromOptional_ops ps a r :
  NewNfaFromOptional ps a = Ok r -> op_stack (fst r) = op_stack ps.
Proof.
  unfold NewNfaFromOptional. intros H. stacks H. injection H as <-. finish.
Qed.

Lemma NewNfaFromPlus_ops ps a r :
  NewNfaFromPlus ps a = Ok r -> op_stack (fst r) = op_stack ps.
Proof.
  unfold NewNfaFromPlus. intros H. inv_bind H. destruct x as [ps1 p].
  apply NewNfaFromClosure_ops in E. apply NewNfaFromConcat_ops in H.
  simpl in *. congruence.
Qed.

Lemma pop_nfa_ops ps r : pop_nfa ps = Ok r -> op_stack (fst r) = op_stack ps.
Proof.
  unfold pop_nfa. intros H. inv_bind H. destruct x. injection H as <-. reflexivity.
Qed.

(** [Calc] pops one operator and leaves the rest of the operator stack. *)
Lemma Calc_op_stack ps ps' top rest :
  Calc ps = Ok ps' -> op_stack ps = top :: rest -> op_stack ps' = rest.
Proof.
  unfold Calc. intros H Hs. rewrite Hs in H. cbn [stack.empty] in H.
  unfold pop_op in H. rewrite Hs in H. cbn [stack.pop bind] in H.
  set (ps0 := mk (nfa_stack ps) rest (states ps)) in *.
  assert (H0 : op_stack ps0 = rest) by reflexivity.
  destruct top; try (injection H as <-; exact H0);
    repeat (let E := fresh "E" in
            let x := fresh "x" in
            apply bind_Ok in H; destruct H as (x & E & H);
            first [ apply pop_nfa_ops in E
                  | apply NewNfaFromConcat_ops in E
                  | apply NewNfaFromUnion_ops in E
                  | apply NewNfaFromClosure_ops in E
                  | apply NewNfaFromPlus_ops in E
                  | apply NewNfaFromOptional_ops in E ];
            try destruct x as [? ?]; cbn [fst] in E);
    injection H as <-; unfold push_nfa; cbn [op_stack fst]; congruence.
Qed.

(** The loop [while (!op_stack.empty() && op_stack.top() != '(') Calc();]
    empties an operator stack that holds no ['(']. *)
Lemma while_Calc_no_left fuel ps ps' :
  (length (op_stack ps) <= fuel)%nat ->
  (forall op, In op (op_stack ps) -> op <> OP_LEFT_PAIR) ->
  while_Calc fuel (fun top => negb (Op_code top =? Op_code OP_LEFT_PAIR)) ps = Ok ps' ->
  op_stack ps' = [].
Proof.
  revert ps; induction fuel as [|f IH]; simpl; intros ps Hl Hno H.
  - injection H as <-. destruct (op_stack ps); simpl in *; auto; lia.
  - destruct (op_stack ps) as [|top rest] eqn:Hs; [injection H as <-; auto|].
    assert (Hc : negb (Op_code top =? Op_code OP_LEFT_PAIR) = true).
    { assert (top <> OP_LEFT_PAIR) by (apply Hno; left; auto).
      destruct top; try reflexivity. congruence. }
    change (Op_code OP_LEFT_PAIR) with 40 in Hc. rewrite Hc in H. inv_bind H.
    pose proof (Calc_op_stack _ _ _ _ E Hs) as Hs'.
    apply IH in H; auto.
    + rewrite Hs'. simpl in Hl. lia.
    + intros op Hin. apply Hno. right. rewrite Hs' in Hin. exact Hin.
Qed.

Lemma parse_step_unmatched_right s1 i ps r :
  char_at s1 i = Op_code OP_RIGHT_PAIR ->
  (forall op, In op (op_stack ps) -> op <> OP_LEFT_PAIR) ->
  parse_step s1 i ps <> Ok r.
Proof.
  intros Hc Hno H. unfold parse_step in H. rewrite Hc in H.
  cbn [Op_of_char Op_code find Z.eqb Pos.eqb] in H.
  inv_bind H. apply while_Calc_no_left in E; auto.
  unfold pop_op in H. rewrite E in H. discriminate.
Qed.

Lemma fold_left_head (A : Type) (f : list C * bool -> A -> list C * bool) c :
  (forall l b x, exists l' b', f (c :: l, b) x = (c :: l', b')) ->
  forall p l b, exists l', fst (fold_left f p (c :: l, b)) = c :: l'.
Proof.
  intros Hf. induction p as [|x p IH]; intros l b; simpl; eauto.
  destruct (Hf l b x) as (l' & b' & ->). apply IH.
Qed.

(** [Normalize] inserts nothing before the first character. *)
Lemma Normalize_head c p : exists l, Normalize (c :: p) = c :: l.
Proof.
  unfold Normalize. cbn [fold_left].
  match goal with
  | |- context [fold_left ?f p ?init] =>
      assert (Hi : exists b, init = ([c], b));
      [|destruct Hi as [b ->]; apply (fold_left_head _ f c)]
  end.
  - eexists. cbn [stack.empty negb]. rewrite andb_false_r. reflexivity.
  - intros l b0 x. cbv beta iota.
    match goal with
    | |- context [if ?t then _ ++ _ else _] => destruct t
    end; cbn [app]; eauto.
Qed.

(** The loop of a character class stops at the end of the pattern when no
    [']'] follows. *)
Lemma class_loop_unterminated fuel s1 i range_start ranges :
  (i <= length s1)%nat -> (length s1 - i <= fuel)%nat ->
  (forall k, (i <= k < length s1)%nat -> char_at s1 k <> Op_code OP_RANGE_END) ->
  fst (class_loop fuel s1 i range_start ranges) = length s1.
Proof.
  revert i range_start ranges; induction fuel as [|f IH];
    intros i rs ranges Hi Hf Hno; cbn [class_loop].
  - simpl. lia.
  - destruct (i <? length s1)%nat eqn:Hlt.
    + apply Nat.ltb_lt in Hlt.
      assert (Hc : (char_at s1 i =? Op_code OP_RANGE_END) = false)
        by (apply Z.eqb_neq, Hno; lia).
      rewrite Hc. cbn [negb andb].
      assert (Hno' : forall k, (S i <= k < length s1)%nat ->
                               char_at s1 k <> Op_code OP_RANGE_END)
        by (intros k Hk; apply Hno; lia).
      destruct (negb (char_at s1 i =? Op_code OP_RANGE_TO));
        [destruct (rs =? EPSILON)|]; apply IH; auto; lia.
    + rewrite andb_false_r. simpl. apply Nat.ltb_ge in Hlt. lia.
Qed.

End malformedP.

Lemma is_Ok_ex (A : Type) (r : result A) : is_Ok r = true -> exists x, r = Ok x.
Proof. destruct r; simpl; intros; try discriminate; eauto. Qed.

(** C5, as the specification states it, fails: the pattern ["("] has an
    unbalanced parenthesis and the pattern ["[a"] an unterminated class;
    both are compiled, to matchers that accept the empty input. *)
Lemma malformed_patterns_compile :
  (exists fd, Compile 10 [40] false DefaultAlphabetSize = Ok fd) /\
  Match 10 [40] [] = Ok true /\
  (exists fd, Compile 10 [91; 97] false DefaultAlphabetSize = Ok fd) /\
  Match 10 [91; 97] [] = Ok true.
Proof.
  repeat split; try (apply is_Ok_ex); vm_compute; reflexivity.
Qed.

(** C5, amended.  The parser does not validate the pattern; a malformed
    pattern is stopped only where the parser happens to pop an empty
    stack.  (1) A [')'] met while no ['('] is on the operator stack stops
    the construction: the step of [Parse] does not complete (it pops an
    empty stack); so does every pattern that begins with [')'].  (2) A
    ['('] that is left on the operator stack is no error: [Calc] takes it
    off and changes nothing else.  (3) A ['['] that is not closed is no
    error: the loop of the class stops at the end of the pattern.  (4) So
    ["("] compiles to the matcher of the empty pattern, ["(a"] to a
    matcher that accepts ["a"], and ["[a"] to a matcher that accepts the
    empty input and rejects ["a"]; the patterns ["|"] and ["(|"] are
    stopped (an operand is missing). *)
Theorem malformed_pattern_detection :
  (forall s1 i ps r,
      NfaParser.char_at s1 i = Op_code OP_RIGHT_PAIR ->
      (forall op, In op (NfaParser.op_stack ps) -> op <> OP_LEFT_PAIR) ->
      NfaParser.parse_step s1 i ps <> Ok r) /\
  (forall p r, NfaParser.Parse NfaParser.new_parser (Op_code OP_RIGHT_PAIR :: p) <> Ok r) /\
  (forall ps rest,
      NfaParser.op_stack ps = OP_LEFT_PAIR :: rest ->
      NfaParser.Calc ps
      = Ok (NfaParser.mk (NfaParser.nfa_stack ps) rest (NfaParser.states ps))) /\
  (forall s1 i range_start ranges,
      (i <= length s1)%nat ->
      (forall k, (i <= k < length s1)%nat ->
                 NfaParser.char_at s1 k <> Op_code OP_RANGE_END) ->
      fst (NfaParser.class_loop (length s1) s1 i range_start ranges) = length s1) /\
  (Compile 10 [40] false DefaultAlphabetSize
   = Compile 10 [] false DefaultAlphabetSize /\
   Match 10 [40; 97] [97] = Ok true /\
   Match 10 [91; 97] [] = Ok true /\
   Match 10 [91; 97] [97] = Ok false /\
   Match 10 [124] [] = Abort EmptyStack /\
   Match 10 [40; 124] [] = Abort EmptyStack).
Proof.
  split; [|split; [|split; [|split]]].
  - intros s1 i ps r. apply malformedP.parse_step_unmatched_right.
  - intros p r H. unfold NfaParser.Parse in H.
    destruct (malformedP.Normalize_head (Op_code OP_RIGHT_PAIR) p) as [l El].
    rewrite El in H. inv_bind H. inv_bind H.
    cbn [length NfaParser.parse_loop Nat.ltb Nat.leb] in E0.
    inv_bind E0. destruct x1 as [i' ps'].
    apply malformedP.parse_step_unmatched_right in E1; auto.
    apply malformedP.NewNfaFromSymbol_ops in E.
    unfold NfaParser.push_nfa. cbn [NfaParser.op_stack]. rewrite E.
    intros op [].
  - intros ps rest Hs. unfold NfaParser.Calc, NfaParser.pop_op. rewrite Hs.
    reflexivity.
  - intros s1 i rs ranges Hi Hno.
    apply malformedP.class_loop_unterminated; auto. lia.
  - repeat split; vm_compute; reflexivity.
Qed.

(** ** The contents of the frozen tables *)

Lemma foreach_prefix {A S : Type} (P : list A -> S -> Prop) (l : list A)
      (body : S -> A -> result S) (s0 : S) :
  P [] s0 ->
  (forall pre x post s, l = pre ++ x :: post -> P pre s ->
                        exists s', body s x = Ok s' /\ P (pre ++ [x]) s') ->
  exists s', foreach l s0 body = Ok s' /\ P l s'.
Proof.
  intros H0 Hstep.
  assert (G : forall post pre s, l = pre ++ post -> P pre s ->
                                 exists s', foreach post s body = Ok s' /\ P l s').
  { induction post as [|x post IH]; intros pre s E Hp; simpl.
    - rewrite app_nil_r in E. subst. eauto.
    - destruct (Hstep pre x post s E Hp) as (s1 & E1 & H1). rewrite E1. simpl.
      apply (IH (pre ++ [x])); auto. rewrite <- app_assoc. exact E. }
  apply (G l [] s0); auto.
Qed.

Lemma nth_error_lt {A : Type} (l : list A) (k : nat) (a : A) :
  nth_error l k = Some a -> (k < length l)%nat.
Proof. intros H. apply nth_error_Some. congruence. Qed.

Lemma rd_upd_eq {A : Type} (l : list A) (i : Z) (a : A) :
  0 <= i < Z.of_nat (length l) -> rd (upd (Z.to_nat i) a l) i = Ok a.
Proof.
  intros Hi. unfold rd. rewrite upd_length.
  replace (0 <=? i) with true by (symmetry; apply Z.leb_le; lia).
  replace (i <? Z.of_nat (length l)) with true by (symmetry; apply Z.ltb_lt; lia).
  simpl. rewrite nth_error_upd_eq by lia. reflexivity.
Qed.

Lemma rd_upd_neq {A : Type} (l : list A) (i j : Z) (a : A) :
  0 <= i -> i <> j -> rd (upd (Z.to_nat i) a l) j = rd l j.
Proof.
  intros Hi Hij. unfold rd. rewrite upd_length.
  destruct ((0 <=? j) && (j <? Z.of_nat (length l))) eqn:E; auto.
  apply andb_true_iff in E. destruct E as [E1 E2]. apply Z.leb_le in E1.
  rewrite nth_error_upd_neq by lia. reflexivity.
Qed.

Lemma residue_range (A : Z) (c : C) : 0 < A -> 0 <= residue A c < A.
Proof. intros HA. apply Z.mod_pos_bound. exact HA. Qed.

Lemma ch_mod_residue (A : Z) (c : C) : 0 < A -> ch_mod A c = Ok (residue A c).
Proof.
  intros HA. unfold ch_mod.
  replace (A =? 0) with false by (symmetry; apply Z.eqb_neq; lia).
  reflexivity.
Qed.

Module exactP.

(** The index table after the first [n] chars of [chs]. *)
Lemma fill_index_prefix (A : Z) (chs : list C) (n : nat) :
  0 < A -> (n <= length chs)%nat -> (length chs <= 255)%nat ->
  exists t,
    foreach (seq 0 n) (repeat 0 (Z.to_nat A))
            (fun t i => ch <- rd chs (Z.of_nat i) ;;
                        j <- ch_mod A ch ;;
                        wr t j (u8 (Z.of_nat i + 1))) = Ok t /\
    index_exact A (firstn n chs) t.
Proof.
  intros HA Hn H255. induction n as [|n IH].
  - simpl. eexists. split; [reflexivity|]. split; [apply repeat_length|].
    intros r Hr. exists 0. split.
    + unfold rd. rewrite repeat_length.
      replace (0 <=? r) with true by (symmetry; apply Z.leb_le; lia).
      replace (r <? Z.of_nat (Z.to_nat A)) with true
        by (symmetry; apply Z.ltb_lt; lia).
      simpl. destruct (nth_error (repeat 0 (Z.to_nat A)) (Z.to_nat r)) eqn:E.
      * apply nth_error_In, repeat_spec in E. subst. reflexivity.
      * apply nth_error_None in E. rewrite repeat_length in E. lia.
    + left. split; auto.
  - destruct IH as (t & Et & Hl & Ht); [lia|].
    rewrite seq_S, foreach_app, Et. cbn [bind foreach Nat.add].
    destruct (nth_error chs n) as [c|] eqn:Ec;
      [|apply nth_error_None in Ec; lia].
    assert (Erd : rd chs (Z.of_nat n) = Ok c).
    { destruct (rd_in_range chs (Z.of_nat n)) as [a Ea]; [lia|].
      pose proof (rd_Ok _ _ _ Ea) as [_ Hn']. rewrite Nat2Z.id in Hn'.
      congruence. }
    rewrite Erd. cbn [bind]. rewrite ch_mod_residue by auto. cbn [bind].
    pose proof (residue_range A c HA) as Hrc.
    rewrite wr_in_range by lia.
    rewrite u8_small by lia.
    eexists. split; [reflexivity|]. split; [rewrite upd_length; auto|].
    assert (Hfn : forall k c', nth_error (firstn (S n) chs) k = Some c' ->
                               (k < n)%nat /\ nth_error (firstn n chs) k = Some c'
                               \/ k = n /\ c' = c).
    { intros k c' Hk.
      assert (k < S n)%nat.
      { apply nth_error_lt in Hk. rewrite length_firstn in Hk. lia. }
      rewrite nth_error_firstn in Hk.
      destruct (Nat.eq_dec k n) as [->|Hne].
      - right. replace (n <? S n)%nat with true in Hk
          by (symmetry; apply Nat.ltb_lt; lia).
        split; congruence.
      - left. split; [lia|]. rewrite nth_error_firstn.
        replace (k <? n)%nat with true by (symmetry; apply Nat.ltb_lt; lia).
        replace (k <? S n)%nat with true in Hk
          by (symmetry; apply Nat.ltb_lt; lia).
        exact Hk. }
    assert (Hn_th : nth_error (firstn (S n) chs) n = Some c).
    { rewrite nth_error_firstn.
      replace (n <? S n)%nat with true by (symmetry; apply Nat.ltb_lt; lia).
      exact Ec. }
    intros r Hr. destruct (Z.eq_dec (residue A c) r) as [Heq|Hne].
    + exists (Z.of_nat n + 1). split.
      * rewrite <- Heq. apply rd_upd_eq. lia.
      * right. exists n, c. repeat split; auto.
        intros k c' Hk Hk'. apply Hfn in Hk'. lia.
    + destruct (Ht r Hr) as (j & Ej & Hj). exists j. split.
      * rewrite rd_upd_neq by lia. exact Ej.
      * destruct Hj as [[-> Hno]|(i & c0 & -> & Hi & Hres & Hlast)].
        -- left. split; auto. intros c' Hin.
           apply In_nth_error in Hin. destruct Hin as [k Hk].
           apply Hfn in Hk. destruct Hk as [[_ Hk]|[_ ->]]; auto.
           apply Hno. eapply nth_error_In; eauto.
        -- right. exists i, c0. repeat split; auto.
           ++ assert (i < n)%nat.
              { apply nth_error_lt in Hi. rewrite length_firstn in Hi. lia. }
              rewrite nth_error_firstn in Hi |- *.
              replace (i <? n)%nat with true in Hi
                by (symmetry; apply Nat.ltb_lt; lia).
              replace (i <? S n)%nat with true
                by (symmetry; apply Nat.ltb_lt; lia).
              exact Hi.
           ++ intros k c' Hk Hk'. apply Hfn in Hk'.
              destruct Hk' as [[_ Hk']|[_ ->]]; eauto.
Qed.

(** [fill_index] completes, whatever the chars are, and gives the slot of
    a residue to the last char that has it. *)
Lemma fill_index_exact (A : Z) (chs : list C) :
  0 < A -> (length chs <= 255)%nat ->
  exists t, fill_index A chs (repeat 0 (Z.to_nat A)) = Ok t /\
            index_exact A chs t.
Proof.
  intros HA H255.
  destruct (fill_index_prefix A chs (length chs) HA (le_n _) H255) as (t & E & H).
  rewrite firstn_all in H. exists t. split; auto.
Qed.

Section tables.
Variable mem : list DfaState.t.
Variable A : Z.
Variable chs : list C.
Variable tmp : list Z.
Hypothesis HA : 0 < A.
Hypothesis Wm : mem_wf mem.
Hypothesis Hsmall : Z.of_nat (length mem) <= 65535.
Hypothesis Hidx : index_exact A chs tmp.
Hypothesis Hchs : forall p st c t,
    deref mem p = Ok st ->
    In (c, t) (map_entries (DfaState.transitions st)) -> In c chs.

(** While the numbers of the states fit [uint16_t], a state carries its
    address. *)
Lemma no_address p st : deref mem p = Ok st -> DfaState.no st = Z.of_nat p.
Proof.
  intros H. rewrite (mem_no _ Wm _ _ H). apply u16_small.
  pose proof (deref_lt _ _ _ H). lia.
Qed.

Lemma slot_of_char c :
  In c chs ->
  exists j, rd tmp (residue A c) = Ok j /\ 1 <= j <= Z.of_nat (length chs).
Proof.
  intros Hc. destruct Hidx as [_ Hi].
  destruct (Hi (residue A c) (residue_range A c HA))
    as (j & Ej & [[-> Hno]|(i & c0 & -> & Hn & _)]).
  - exfalso. apply (Hno c Hc). reflexivity.
  - exists (Z.of_nat i + 1). split; auto. apply nth_error_lt in Hn. lia.
Qed.

Lemma cell_exact_snoc items x j v :
  cell_exact mem A tmp items j v ->
  rd tmp (residue A (fst x)) <> Ok (j + 1) ->
  cell_exact mem A tmp (items ++ [x]) j v.
Proof.
  intros [[-> Hno]|(ch & to & tost & Hin & Hs & Hd & ->)] Hx.
  - left. split; auto. intros ch to Hin. apply in_app_or in Hin.
    destruct Hin as [Hin|[E|[]]]; eauto. subst x. exact Hx.
  - right. exists ch, to, tost. repeat split; auto. apply in_or_app. auto.
Qed.

(** The constructor writes the row and the flag of the state at [p]; the
    rows of the other states stay as they are. *)
Lemma fill_state_exact done p tr0 et0 :
  tables_exact mem A tmp (length chs) done tr0 et0 ->
  ~ In p done -> valid_ptr mem p ->
  exists tr et,
    FixedDfa.fill_state mem A tmp (tr0, et0) p = Ok (tr, et) /\
    tables_exact mem A tmp (length chs) (done ++ [p]) tr et.
Proof.
  intros (Hl & Hle & HT) Hnd Hv.
  destruct (valid_ptr_deref _ _ Hv) as [st Hd].
  pose proof (no_address _ _ Hd) as Hno.
  assert (Hdone : existsb (Nat.eqb p) done = false).
  { destruct (existsb (Nat.eqb p) done) eqn:E; auto.
    apply existsb_exists in E. destruct E as (x & Hx & Ex).
    apply Nat.eqb_eq in Ex. subst x. contradiction. }
  destruct (HT p st Hd) as (row0 & Er0 & Hrow0 & Ee0). rewrite Hdone in *.
  unfold valid_ptr in Hv.
  unfold FixedDfa.fill_state. rewrite Hd. cbn [bind].
  rewrite (mapP.items_entries _ (mem_tr_wf _ Wm _ _ Hd)).
  set (P := fun (pre : list (C * ptr)) (tr : list (list Z)) =>
              length tr = length mem /\
              (forall i, i <> Z.of_nat p - 1 -> rd tr i = rd tr0 i) /\
              exists row, rd tr (Z.of_nat p - 1) = Ok row /\
                          row_exact mem A tmp (length chs) pre row).
  match goal with
  | |- context [foreach ?l tr0 ?body] =>
      destruct (foreach_prefix P l body tr0) as (tr & Etr & Hlt & Hoth & row & Er & Hrow)
  end.
  { unfold P. repeat split; eauto. }
  { intros pre [ch to] post tr1 Epre (Hl1 & Ho1 & row1 & Er1 & Hlr1 & Hc1).
    assert (Hin : In (ch, to) (map_entries (DfaState.transitions st))).
    { unfold map_entries in *. rewrite Epre. apply in_or_app. right. left. auto. }
    destruct (slot_of_char ch (Hchs _ _ _ _ Hd Hin)) as (j & Ej & Hj).
    destruct (valid_ptr_deref _ _ (mem_tr_valid _ Wm _ _ _ _ Hd Hin)) as [tost Hto].
    rewrite ch_mod_residue by auto. cbn [bind]. rewrite Ej. cbn [bind].
    rewrite Hto. cbn [bind]. rewrite Hno, Er1. cbn [bind].
    rewrite wr_in_range by lia. cbn [bind].
    rewrite wr_in_range by lia.
    eexists. split; [reflexivity|]. unfold P. split; [|split].
    - rewrite upd_length. auto.
    - intros i Hi. rewrite rd_upd_neq by lia. auto.
    - eexists. split; [apply rd_upd_eq; lia|]. split.
      + rewrite upd_length. auto.
      + intros j' Hj'. destruct (Z.eq_dec j' (j - 1)) as [->|Hne].
        * exists (DfaState.no tost). split; [apply rd_upd_eq; lia|].
          right. exists ch, to, tost. repeat split; auto.
          -- apply in_or_app. right. left. auto.
          -- rewrite Ej. f_equal. lia.
        * destruct (Hc1 j' Hj') as (v & Ev & Hv1). exists v. split.
          -- rewrite rd_upd_neq by lia. auto.
          -- apply cell_exact_snoc; auto. cbn [fst]. rewrite Ej.
             intros [= E]. lia. }
  unfold map_entries in Etr |- *. rewrite Etr. cbn [bind].
  assert (Het : exists et,
             (if DfaState.is_end st
              then wr et0 (DfaState.no st - 1) true else Ok et0) = Ok et /\
             length et = length mem /\
             rd et (Z.of_nat p - 1) = Ok (DfaState.is_end st) /\
             forall i, i <> Z.of_nat p - 1 -> rd et i = rd et0 i).
  { destruct (DfaState.is_end st).
    - rewrite Hno, wr_in_range by lia. eexists. split; [reflexivity|].
      split; [rewrite upd_length; auto|]. split; [apply rd_upd_eq; lia|].
      intros i Hi. apply rd_upd_neq; lia.
    - exists et0. auto. }
  destruct Het as (et & Eet & Hlet & Ep & Hoe). rewrite Eet. cbn [bind].
  exists tr, et. split; [reflexivity|].
  split; [auto|split; [auto|]].
  intros p' st' Hd'. rewrite existsb_app. cbn [existsb]. rewrite orb_false_r.
  destruct (Nat.eq_dec p' p) as [->|Hne].
  - rewrite Nat.eqb_refl, orb_true_r.
    assert (st' = st) by congruence. subst st'.
    exists row. auto.
  - replace (p' =? p)%nat with false by (symmetry; apply Nat.eqb_neq; auto).
    rewrite orb_false_r.
    destruct (HT p' st' Hd') as (row' & Er' & Hrow' & Ee').
    exists row'. rewrite Hoth, Hoe by lia. auto.
Qed.

(** The loop over the states of the DFA. *)
Lemma fill_states_exact (l : list ptr) :
  NoDup l -> (forall p, In p l -> valid_ptr mem p) ->
  exists tr et,
    foreach l (repeat (repeat 0 (length chs)) (length mem),
               repeat false (length mem))
            (FixedDfa.fill_state mem A tmp) = Ok (tr, et) /\
    tables_exact mem A tmp (length chs) l tr et.
Proof.
  intros ND Hv.
  set (P := fun (pre : list ptr) (x : list (list Z) * list bool) =>
              tables_exact mem A tmp (length chs) pre (fst x) (snd x)).
  destruct (foreach_prefix P l (FixedDfa.fill_state mem A tmp)
                           (repeat (repeat 0 (length chs)) (length mem),
                            repeat false (length mem)))
    as ([tr et] & E & H).
  - unfold P. cbn [fst snd]. split; [apply repeat_length|].
    split; [apply repeat_length|].
    intros p st Hd. pose proof (deref_lt _ _ _ Hd) as Hp. cbn [existsb].
    assert (Hrep : forall (T : Type) (x : T) (n : nat) (i : Z),
               0 <= i < Z.of_nat n -> rd (repeat x n) i = Ok x).
    { intros T x n i Hi. destruct (rd_in_range (repeat x n) i) as [a Ea].
      - rewrite repeat_length. lia.
      - rewrite Ea. apply rd_In, repeat_spec in Ea. congruence. }
    exists (repeat 0 (length chs)). split; [apply Hrep; lia|]. split.
    + split; [apply repeat_length|]. intros j Hj. exists 0.
      split; [apply Hrep; lia|]. left. split; auto.
    + apply Hrep. lia.
  - intros pre p post [tr et] El HP. unfold P in *. cbn [fst snd] in HP.
    destruct (fill_state_exact pre p tr et HP) as (tr' & et' & E' & H').
    + rewrite El in ND. apply NoDup_remove_2 in ND. intros Hin. apply ND.
      apply in_or_app. auto.
    + apply Hv. rewrite El. apply in_or_app. right. left. auto.
    + exists (tr', et'). auto.
  - exists tr, et. auto.
Qed.

End tables.

(** The constructor completes on every DFA that [Build] returns, whatever
    its chars and the alphabet size are, while the state numbers fit
    [uint16_t] and the positions of [chs] fit [uint8_t]; the tables hold
    what the loops wrote. *)
Lemma freeze_exact pre_index A mem dfa :
  dfa_wf mem dfa -> 0 < A ->
  Z.of_nat (length mem) <= 65535 ->
  (length (set_elems (Dfa.chs dfa)) <= 255)%nat ->
  exists fd t,
    FixedDfa.freeze pre_index A (Dfa.Size dfa) (set.size (Dfa.chs dfa)) mem dfa
    = Ok fd /\
    FixedDfa.AlphabetSize fd = A /\
    FixedDfa.NStates fd = length mem /\
    FixedDfa.chs fd = set_elems (Dfa.chs dfa) /\
    FixedDfa.index_table fd = Ok t /\
    index_exact A (FixedDfa.chs fd) t /\
    tables_exact mem A t (length (FixedDfa.chs fd)) (set_elems (Dfa.states dfa))
                 (FixedDfa.transitions fd) (FixedDfa.st_is_end_table fd).
Proof.
  intros W HA Hs Hc.
  pose proof (dw_chs_wf _ _ W) as Wc. pose proof (dw_states_wf _ _ W) as Ws.
  unfold FixedDfa.freeze.
  rewrite (setP.elements_elems _ Wc), (setP.size_elems _ Wc).
  rewrite (setP.elements_elems _ Ws).
  rewrite (Size_length _ _ W).
  pose proof (freezeP.fill_chs (set_elems (Dfa.chs dfa)) [] 0) as Hf.
  simpl in Hf. rewrite Nat.add_0_r, app_nil_r in Hf. rewrite Hf.
  cbn [bind]. clear Hf.
  set (chs := set_elems (Dfa.chs dfa)) in *.
  destruct (fill_index_exact A chs HA Hc) as (tmp & Etmp & Hidx).
  rewrite Etmp. cbn [bind].
  destruct (fill_states_exact mem A chs tmp HA (dw_mem _ _ W) Hs Hidx
                              (dw_chs _ _ W) (set_elems (Dfa.states dfa)))
    as (tr & et & E & HT).
  { apply setP.elems_NoDup, Ws. }
  { intros p Hp. apply (dw_states _ _ W). exact Hp. }
  rewrite E. cbn [bind].
  eexists. exists tmp. split; [reflexivity|].
  cbn [FixedDfa.AlphabetSize FixedDfa.NStates FixedDfa.chs FixedDfa.transitions
       FixedDfa.st_is_end_table].
  repeat (split; [reflexivity|]). split; [|split; auto].
  unfold FixedDfa.index_table.
  cbn [FixedDfa.pre_index FixedDfa.ch_index_table FixedDfa.AlphabetSize
       FixedDfa.chs].
  destruct pre_index; auto.
  rewrite repeat_length. destruct Hidx as [Hl _]. rewrite <- Hl, firstn_all.
  reflexivity.
Qed.

End exactP.

(** ** The frozen matcher and the DFA *)

Lemma tables_exact_all mem A tmp NChars done tr et :
  tables_exact mem A tmp NChars done tr et ->
  (forall p, valid_ptr mem p -> In p done) ->
  forall p st,
    deref mem p = Ok st ->
    exists row,
      rd tr (Z.of_nat p - 1) = Ok row /\
      row_exact mem A tmp NChars (map_entries (DfaState.transitions st)) row /\
      rd et (Z.of_nat p - 1) = Ok (DfaState.is_end st).
Proof.
  intros (_ & _ & HT) Hall p st Hd.
  destruct (HT p st Hd) as (row & Er & Hrow & He).
  assert (E : existsb (Nat.eqb p) done = true).
  { apply existsb_exists. exists p. split; [|apply Nat.eqb_refl].
    apply Hall. apply (deref_lt _ _ _ Hd). }
  rewrite E in *. eauto.
Qed.

Lemma collision_free_tail A chs c s :
  collision_free A chs (c :: s) -> collision_free A chs s.
Proof. intros H x y Hx. apply H. right. exact Hx. Qed.

(** Chars that are their own residues do not collide. *)
Lemma range_collision_free A chs s :
  (forall c, In c chs \/ In c s -> 0 <= c < A /\ c <= CHAR_MAX) ->
  collision_free A chs s.
Proof.
  intros H c c' Hc Hc'.
  assert (R : forall x, 0 <= x < A /\ x <= CHAR_MAX -> residue A x = x).
  { intros x [Hx Hm]. unfold residue, size_t.
    change 18446744073709551615 with (Z.ones 64).
    rewrite Z.land_ones by lia. unfold CHAR_MAX, CHAR_MIN in Hm.
    rewrite (Z.mod_small x) by lia. apply Z.mod_small. lia. }
  rewrite (R c), (R c') by auto. auto.
Qed.

Section simulation.
Variable fd : FixedDfa.t.
Variable mem : list DfaState.t.
Variable t : list Z.
Variable done : list ptr.
Let A := FixedDfa.AlphabetSize fd.
Let chs := FixedDfa.chs fd.
Hypothesis HA : 0 < A.
Hypothesis Wm : mem_wf mem.
Hypothesis Hsmall : Z.of_nat (length mem) <= 65535.
Hypothesis Hidx : index_exact A chs t.
Hypothesis Htab : tables_exact mem A t (length chs) done
                               (FixedDfa.transitions fd)
                               (FixedDfa.st_is_end_table fd).
Hypothesis Hdone : forall p, valid_ptr mem p -> In p done.
Hypothesis Hchs : forall p st c to,
    deref mem p = Ok st ->
    In (c, to) (map_entries (DfaState.transitions st)) -> In c chs.

(** The loop of [FixedDfa::Match] from the row of the state at [p] and the
    loop of [Dfa::Match] from [p] give the same answer. *)
Lemma Match_loop_sim (s : list C) :
  collision_free A chs s ->
  forall p st,
    deref mem p = Ok st ->
    ('(fail, st') <- FixedDfa.Match_loop fd t s (Z.of_nat p) ;;
     if (fail : bool) then Ok false
     else rd (FixedDfa.st_is_end_table fd) (st' - 1))
    = Dfa.Match_from mem p s.
Proof.
  induction s as [|c s IH]; intros CF p st Hd.
  - cbn [FixedDfa.Match_loop Dfa.Match_from bind]. rewrite Hd. cbn [bind].
    destruct (tables_exact_all _ _ _ _ _ _ _ Htab Hdone p st Hd)
      as (row & _ & _ & He).
    exact He.
  - cbn [FixedDfa.Match_loop Dfa.Match_from]. rewrite Hd. cbn [bind].
    fold A. rewrite ch_mod_residue by auto. cbn [bind].
    pose proof (mem_tr_wf _ Wm _ _ Hd) as Wt.
    destruct (tables_exact_all _ _ _ _ _ _ _ Htab Hdone p st Hd)
      as (row & Er & (Hlr & Hrow) & _).
    assert (Hhas : forall to,
               In (c, to) (map_entries (DfaState.transitions st)) ->
               DfaState.HasTransition st c = true /\ DfaState.Next st c = Ok to).
    { intros to Hin. split.
      - apply (mapP.map_has_iff Z.eqb hash_char Z.eqb_eq _ _ Wt).
        apply in_map_iff. exists (c, to). auto.
      - unfold DfaState.Next, map.get.
        rewrite (mapP.getp_complete Z.eqb hash_char Z.eqb_eq _ _ _ Wt Hin).
        reflexivity. }
    assert (Hnot : (forall to, ~ In (c, to) (map_entries (DfaState.transitions st))) ->
                   DfaState.HasTransition st c = false).
    { intros Hno. destruct (DfaState.HasTransition st c) eqn:E; auto.
      apply (mapP.map_has_iff Z.eqb hash_char Z.eqb_eq _ _ Wt) in E.
      apply in_map_iff in E. destruct E as ([c0 to] & Ec & Hin).
      simpl in Ec. subst c0. exfalso. eapply Hno; eauto. }
    destruct Hidx as [_ Hi].
    destruct (Hi (residue A c) (residue_range A c HA))
      as (j & Ej & [[-> Hno]|(i & c0 & -> & Hn & Hres & _)]).
    + rewrite Ej. cbn [bind Z.eqb].
      rewrite Hnot; [reflexivity|].
      intros to Hin. apply (Hno c); auto. exact (Hchs _ _ _ _ Hd Hin).
    + assert (c = c0).
      { apply CF; auto; [left; auto | eapply nth_error_In; eauto]. }
      subst c0. rewrite Ej. cbn [bind].
      replace (Z.of_nat i + 1 =? 0) with false by (symmetry; apply Z.eqb_neq; lia).
      rewrite Er. cbn [bind].
      replace (Z.of_nat i + 1 - 1) with (Z.of_nat i) by lia.
      apply nth_error_lt in Hn as Hlt.
      destruct (Hrow (Z.of_nat i)) as (v & Ev & Hv); [lia|].
      rewrite Ev. cbn [bind].
      destruct Hv as [[-> Hno]|(ch & to & tost & Hin & Hs & Hto & ->)].
      * cbn [Z.eqb]. rewrite Hnot; [reflexivity|].
        intros to Hin. apply (Hno c to Hin). exact Ej.
      * assert (ch = c).
        { symmetry. apply CF; [left; auto | exact (Hchs _ _ _ _ Hd Hin) |].
          destruct (Hi (residue A ch) (residue_range A ch HA))
            as (j' & Ej' & [[-> _]|(i' & c' & -> & Hn' & Hres' & _)]).
          - rewrite Ej' in Hs. injection Hs as Hs. lia.
          - rewrite Ej' in Hs. injection Hs as Hs.
            assert (i' = i) by lia. subst i'.
            rewrite Hn in Hn'. injection Hn' as <-. exact Hres'. }
        subst ch. destruct (Hhas to Hin) as [-> ->]. cbn [negb bind].
        rewrite (exactP.no_address mem Wm Hsmall _ _ Hto).
        pose proof (deref_lt _ _ _ Hto).
        replace (Z.of_nat to =? 0) with false by (symmetry; apply Z.eqb_neq; lia).
        apply (IH (collision_free_tail _ _ _ _ CF) to tost Hto).
Qed.

End simulation.

(** What [Compile] returns is the frozen form of what [build] returns. *)
Lemma Compile_build fuel pattern pre_index A fd mem dfa :
  Compile fuel pattern pre_index A = Ok fd ->
  build fuel pattern = Ok (mem, dfa) ->
  FixedDfa.freeze pre_index A (Dfa.Size dfa) (set.size (Dfa.chs dfa)) mem dfa
  = Ok fd.
Proof.
  intros Hc Hb. destruct (Compile_Ok _ _ _ _ _ Hc) as (mem' & dfa' & Hb' & Hf).
  rewrite Hb in Hb'. injection Hb' as <- <-. exact Hf.
Qed.

(** C3, as the specification states it, fails.  The pattern is the one
    byte 0xE1 (the char -31), the alphabet size 128, the input the one
    byte ['a'] (97): the accepted bytes are pairwise distinct modulo 128,
    there being one, and the input byte lies in [0, 128).  The frozen
    matcher accepts the input, the DFA rejects it. *)
Lemma frozen_matcher_accepts_alias :
  Match 10 [-31] [97] = Ok true /\
  Match_consteval 10 [-31] [97] = Ok false /\
  (fd <- Compile 10 [-31] false 128 ;; Ok (FixedDfa.chs fd)) = Ok [-31] /\
  0 <= 97 < DefaultAlphabetSize.
Proof.
  repeat split; try (vm_compute; reflexivity); vm_compute; discriminate.
Qed.

(** C3, amended.  For every pattern, every alphabet size [A > 0] and every
    input none of whose chars has the residue [ch % A] of another char,
    one that the pattern accepts, [FixedDfa::Match] returns what
    [Dfa::Match] returns on the DFA built from the same pattern, while the
    state numbers fit [uint16_t] and the positions of the accepted chars
    fit [uint8_t].  The condition holds, and so the two agree, when the
    accepted chars and the chars of the input all lie in [[0, A)] and are
    below 0x80 (not negative as [char]s). *)
Theorem frozen_matcher_agrees_with_dfa fuel pattern pre_index A fd mem dfa
        (s : list C) :
  0 < A ->
  Compile fuel pattern pre_index A = Ok fd ->
  build fuel pattern = Ok (mem, dfa) ->
  Z.of_nat (FixedDfa.NStates fd) <= 65535 ->
  (FixedDfa.NChars fd <= 255)%nat ->
  (collision_free A (FixedDfa.chs fd) s ->
   FixedDfa.Match fd s = Dfa.Match mem dfa s) /\
  ((forall c, In c (FixedDfa.chs fd) \/ In c s -> 0 <= c < A /\ c <= CHAR_MAX) ->
   FixedDfa.Match fd s = Dfa.Match mem dfa s).
Proof.
  intros HA Hc Hb Hs H255.
  assert (G : collision_free A (FixedDfa.chs fd) s ->
              FixedDfa.Match fd s = Dfa.Match mem dfa s).
  { intros CF.
    pose proof (buildP.build_spec _ _ _ _ Hb) as W.
    pose proof (Compile_build _ _ _ _ _ _ _ Hc Hb) as Hf.
    destruct (freezeP.freeze_shape _ _ _ _ _ Hf W)
      as (_ & _ & HNS & HNC & _).
    rewrite HNS, (Size_length _ _ W) in Hs. rewrite HNC in H255.
    destruct (exactP.freeze_exact pre_index A mem dfa W HA Hs H255)
      as (fd' & t & Hf' & EA & _ & Echs & Et & Hidx & Htab).
    rewrite Hf in Hf'. injection Hf' as <-.
    destruct (dw_start _ _ W) as [Es V1].
    destruct (valid_ptr_deref _ _ V1) as [st1 Hd1].
    unfold FixedDfa.Match, Dfa.Match. rewrite Et, Es. cbn [bind].
    rewrite <- EA in HA, Hidx, Htab, CF.
    apply (Match_loop_sim fd mem t (set_elems (Dfa.states dfa)) HA (dw_mem _ _ W)
                          Hs Hidx Htab) with (p := 1%nat) (st := st1); auto.
    - intros p Hp. apply (dw_states _ _ W). exact Hp.
    - intros p st c to Hd Hin. rewrite Echs. eapply (dw_chs _ _ W); eauto. }
  split; [exact G|].
  intros Hr. apply G. apply range_collision_free. exact Hr.
Qed.

Lemma frozen_matcher_agrees_with_dfa_witness :
  FixedDfa.Match fd_ab [97; 98; 97; 98]
  = Dfa.Match (fst (built 10 pattern_ab)) (snd (built 10 pattern_ab))
              [97; 98; 97; 98].
Proof.
  destruct (frozen_matcher_agrees_with_dfa 10 pattern_ab true 128 fd_ab
              (fst (built 10 pattern_ab)) (snd (built 10 pattern_ab))
              [97; 98; 97; 98]) as [_ H].
  - lia.
  - vm_compute. reflexivity.
  - vm_compute. reflexivity.
  - vm_compute. discriminate.
  - vm_compute. lia.
  - apply H. intros c Hc. vm_compute in Hc.
    repeat (destruct Hc as [Hc|Hc]; try contradiction);
      subst c; vm_compute; repeat split; discriminate.
Defined.




(** ** Union and concatenation *)

Module unionP.
Import NfaParser.


Lemma fold_left_cons_eq (A B : Type) (f : A -> B -> A) (x : B) (l : list B) (a : A) :
  fold_left f (x :: l) a = fold_left f l (f a x).
Proof. reflexivity. Qed.

















End unionP.



(** ** A bisimulation between two frozen DFAs *)











(** * Further properties of the code *)

(** ** map, set, unique_queue *)

Lemma map_getp_entries {K V : Type} (keqb : K -> K -> bool) (h : K -> Z)
      (Heq : forall a b, keqb a b = true <-> a = b)
      (m m' : map.t K V) (k : K) :
  map_wf m -> map_wf m' ->
  (forall v, In (k, v) (map_entries m') <-> In (k, v) (map_entries m)) ->
  map.getp keqb h m' k = map.getp keqb h m k.
Proof.
  intros W W' H.
  destruct (map.getp keqb h m k) as [v|] eqn:E.
  - apply (mapP.getp_iff keqb h Heq _ _ _ W) in E.
    apply (mapP.getp_iff keqb h Heq _ _ _ W'). apply H. exact E.
  - destruct (map.getp keqb h m' k) as [v|] eqn:E'; auto.
    apply (mapP.getp_iff keqb h Heq _ _ _ W') in E'. apply H in E'.
    apply (mapP.getp_iff keqb h Heq _ _ _ W) in E'. congruence.
Qed.

Lemma map_keys_fst {K V : Type} (m : map.t K V) (k : K) :
  In k (map fst (map_entries m)) <-> exists v, In (k, v) (map_entries m).
Proof.
  rewrite in_map_iff. split.
  - intros ([k' v] & E & H). simpl in E. subst. eauto.
  - intros [v H]. exists (k, v). auto.
Qed.

Lemma map_has_getp {K V : Type} (keqb : K -> K -> bool) (h : K -> Z)
      (m : map.t K V) (k : K) :
  map.has keqb h m k = match map.getp keqb h m k with
                       | Some _ => true
                       | None => false
                       end.
Proof. reflexivity. Qed.

(** X1.  [m[k] = v] followed by a lookup: the assignment completes on
    every map, the key is found afterwards with the value [v], the other
    keys keep what they had, and the size grows by one exactly when the key
    is new. *)
Theorem map_assign_lookup {K V : Type} (keqb : K -> K -> bool) (h : K -> Z)
        (dflt : V) (m : map.t K V) (k : K) (v : V) :
  (forall a b, keqb a b = true <-> a = b) ->
  map_wf m ->
  exists m',
    map.assign keqb h dflt m k v = Ok m' /\
    map_wf m' /\
    map.get keqb h m' k = Ok v /\
    map.has keqb h m' k = true /\
    (forall k', k' <> k -> map.getp keqb h m' k' = map.getp keqb h m k') /\
    map.size m' = (if map.has keqb h m k then map.size m else S (map.size m)).
Proof.
  intros Heq W.
  destruct (mapP.assign_spec keqb h dflt Heq m k v W)
    as (m' & E & W' & Hin & Hold & Hnew).
  exists m'. split; [exact E|]. split; [exact W'|].
  assert (G : map.getp keqb h m' k = Some v).
  { apply (mapP.getp_complete keqb h Heq _ _ _ W'). apply Hin. auto. }
  split; [unfold map.get; rewrite G; reflexivity|].
  split; [rewrite map_has_getp, G; reflexivity|].
  split.
  - intros k' Hk. apply (map_getp_entries keqb h Heq); auto.
    intros w. rewrite Hin. split; [intros [[? _]|[_ ?]]; [contradiction|auto]|auto].
  - destruct W as [ND Hn]. destruct W' as [ND' Hn'].
    unfold map.size. rewrite Hn, Hn'.
    rewrite <- (length_map fst (map_entries m')), <- (length_map fst (map_entries m)).
    destruct (map.has keqb h m k) eqn:Hh.
    + apply (mapP.map_has_iff keqb h Heq _ _ (conj ND Hn)) in Hh.
      rewrite (Hold Hh). reflexivity.
    + assert (Hk : ~ In k (map fst (map_entries m))).
      { intros Hk. apply (mapP.map_has_iff keqb h Heq _ _ (conj ND Hn)) in Hk.
        congruence. }
      rewrite (Permutation_length (Hnew Hk)). reflexivity.
Qed.

Lemma map_assign_lookup_witness :
  exists m',
    map.assign Z.eqb hash_char 0 sample_map 97 7 = Ok m' /\
    map_wf m' /\
    map.get Z.eqb hash_char m' 97 = Ok 7 /\
    map.has Z.eqb hash_char m' 97 = true /\
    (forall k', k' <> 97 ->
                map.getp Z.eqb hash_char m' k'
                = map.getp Z.eqb hash_char sample_map k') /\
    map.size m' = (if map.has Z.eqb hash_char sample_map 97
                   then map.size sample_map
                   else S (map.size sample_map)).
Proof.
  apply (map_assign_lookup Z.eqb hash_char 0 sample_map 97 7).
  - exact Z.eqb_eq.
  - split; [|reflexivity]. vm_compute.
    repeat constructor; simpl; intuition discriminate.
Defined.

(** X2.  On a well-formed map (no key is stored in two slots and [n]
    counts the used slots), a lookup finds a key in whatever slot it is
    stored (the probe visits every slot): [get] returns [v] exactly when a
    used slot holds [(k, v)], and throws exactly when no used slot holds
    the key; on the empty map, whose buffer may have no slot at all, it
    throws. *)
Theorem map_get_complete {K V : Type} (keqb : K -> K -> bool) (h : K -> Z)
        (m : map.t K V) (k : K) :
  (forall a b, keqb a b = true <-> a = b) ->
  map_wf m ->
  (forall v, map.get keqb h m k = Ok v <-> In (k, v) (map_entries m)) /\
  (map.get keqb h m k = Abort NotFound <-> ~ In k (map fst (map_entries m))) /\
  (map.has keqb h m k = false <-> ~ In k (map fst (map_entries m))) /\
  map.get keqb h (map.new_map : map.t K V) k = Abort NotFound.
Proof.
  intros Heq W.
  assert (G : forall v, map.getp keqb h m k = Some v <-> In (k, v) (map_entries m))
    by (intros v; apply (mapP.getp_iff keqb h Heq _ _ _ W)).
  assert (N : map.getp keqb h m k = None <-> ~ In k (map fst (map_entries m))).
  { rewrite map_keys_fst. split.
    - intros E [v Hv]. apply G in Hv. congruence.
    - intros Hno. destruct (map.getp keqb h m k) as [v|] eqn:E; auto.
      exfalso. apply Hno. exists v. apply G. reflexivity. }
  split; [|split; [|split]].
  - intros v. rewrite <- G. unfold map.get.
    destruct (map.getp keqb h m k); split; congruence.
  - rewrite <- N. unfold map.get.
    destruct (map.getp keqb h m k); split; congruence.
  - rewrite <- N, map_has_getp.
    destruct (map.getp keqb h m k); split; congruence.
  - reflexivity.
Qed.

Lemma map_get_complete_witness :
  (forall v, map.get Z.eqb hash_char sample_map 98 = Ok v <->
             In (98, v) (map_entries sample_map)) /\
  (map.get Z.eqb hash_char sample_map 98 = Abort NotFound <->
   ~ In 98 (map fst (map_entries sample_map))) /\
  (map.has Z.eqb hash_char sample_map 98 = false <->
   ~ In 98 (map fst (map_entries sample_map))) /\
  map.get Z.eqb hash_char (map.new_map : map.t Z Z) 98 = Abort NotFound.
Proof.
  apply (map_get_complete Z.eqb hash_char sample_map 98).
  - exact Z.eqb_eq.
  - split; [|reflexivity]. vm_compute.
    repeat constructor; simpl; intuition discriminate.
Defined.

(** X3.  On a well-formed map (no key is stored in two slots and [n]
    counts the used slots), [pop] removes the key and nothing else: the
    map stays well formed, afterwards the key is not found, every other
    key keeps its value, and the size is one less when the key was there
    and unchanged when it was not. *)
Theorem map_pop_removes_key {K V : Type} (keqb : K -> K -> bool) (h : K -> Z)
        (m : map.t K V) (k : K) :
  (forall a b, keqb a b = true <-> a = b) ->
  map_wf m ->
  map_wf (map.pop keqb h m k) /\
  map.has keqb h (map.pop keqb h m k) k = false /\
  map.get keqb h (map.pop keqb h m k) k = Abort NotFound /\
  (forall k', k' <> k ->
              map.getp keqb h (map.pop keqb h m k) k' = map.getp keqb h m k') /\
  map.size (map.pop keqb h m k)
  = (if map.has keqb h m k then map.size m - 1 else map.size m)%nat.
Proof.
  intros Heq W.
  destruct (mapP.map_pop_spec keqb h Heq m k W) as [W' Hin].
  set (m' := map.pop keqb h m k) in *.
  assert (G : map.getp keqb h m' k = None).
  { destruct (map.getp keqb h m' k) as [v|] eqn:E; auto.
    apply (mapP.getp_iff keqb h Heq _ _ _ W') in E. apply Hin in E.
    destruct E as [E _]. congruence. }
  split; [exact W'|].
  split; [rewrite map_has_getp, G; reflexivity|].
  split; [unfold map.get; rewrite G; reflexivity|].
  split.
  - intros k' Hk. apply (map_getp_entries keqb h Heq); auto.
    intros w. rewrite Hin. tauto.
  - destruct W as [ND Hn]. destruct W' as [ND' Hn'].
    unfold map.size. rewrite Hn, Hn'.
    assert (NDe : forall (x : map.t K V), NoDup (map fst (map_entries x)) ->
                                          NoDup (map_entries x)).
    { intros x Hx. apply (NoDup_map_inv fst). exact Hx. }
    rewrite map_has_getp.
    destruct (map.getp keqb h m k) as [v|] eqn:E.
    + apply (mapP.getp_iff keqb h Heq _ _ _ (conj ND Hn)) in E.
      assert (P : Permutation (map_entries m) ((k, v) :: map_entries m')).
      { apply NoDup_Permutation; auto.
        - constructor; [|auto]. intros H. apply Hin in H. tauto.
        - intros [k' w]. simpl. rewrite (Hin k' w). split.
          + intros H. destruct (keqb k' k) eqn:Ek.
            * apply Heq in Ek. subst k'. left. f_equal.
              assert (Hv : map.getp keqb h m k = Some w)
                by (apply (mapP.getp_iff keqb h Heq _ _ _ (conj ND Hn)); auto).
              assert (Hv' : map.getp keqb h m k = Some v)
                by (apply (mapP.getp_iff keqb h Heq _ _ _ (conj ND Hn)); auto).
              congruence.
            * right. split; auto. intros ->.
              assert (keqb k k = true) by (apply Heq; auto). congruence.
          + intros [[= <- <-]|[_ H]]; auto. }
      rewrite (Permutation_length P). simpl. lia.
    + assert (P : Permutation (map_entries m') (map_entries m)).
      { apply NoDup_Permutation; auto.
        intros [k' w]. rewrite (Hin k' w). split; [tauto|].
        intros H. split; auto. intros ->.
        apply (mapP.getp_iff keqb h Heq _ _ _ (conj ND Hn)) in H. congruence. }
      rewrite (Permutation_length P). reflexivity.
Qed.

Lemma map_pop_removes_key_witness :
  map_wf (map.pop Z.eqb hash_char sample_map 97) /\
  map.has Z.eqb hash_char (map.pop Z.eqb hash_char sample_map 97) 97 = false /\
  map.get Z.eqb hash_char (map.pop Z.eqb hash_char sample_map 97) 97
  = Abort NotFound /\
  (forall k', k' <> 97 ->
              map.getp Z.eqb hash_char (map.pop Z.eqb hash_char sample_map 97) k'
              = map.getp Z.eqb hash_char sample_map k') /\
  map.size (map.pop Z.eqb hash_char sample_map 97)
  = (if map.has Z.eqb hash_char sample_map 97
     then (map.size sample_map - 1)%nat else map.size sample_map).
Proof.
  apply (map_pop_removes_key Z.eqb hash_char sample_map 97).
  - exact Z.eqb_eq.
  - split; [|reflexivity]. vm_compute.
    repeat constructor; simpl; intuition discriminate.
Defined.

(** X4.  On a well-formed map (no key is stored in two slots and [n]
    counts the used slots), [resize] keeps the entries, in their order,
    and the size; the capacity becomes [max(2 * cap, 7)]; the map stays
    well formed and every lookup gives what it gave before, although the
    entries are stored from slot 0 on whatever their hashes are. *)
Theorem map_resize_keeps_entries {K V : Type} (keqb : K -> K -> bool)
        (h : K -> Z) (m : map.t K V) (k : K) :
  (forall a b, keqb a b = true <-> a = b) ->
  map_wf m ->
  map_wf (map.resize m) /\
  map_entries (map.resize m) = map_entries m /\
  map.size (map.resize m) = map.size m /\
  map.cap (map.resize m) = Nat.max (map.cap m * 2) 7 /\
  map.getp keqb h (map.resize m) k = map.getp keqb h m k.
Proof.
  intros Heq W.
  pose proof (mapP.resize_wf _ W) as W'.
  split; [exact W'|]. split; [apply mapP.resize_entries|].
  split; [reflexivity|]. split; [apply mapP.resize_cap|].
  apply (map_getp_entries keqb h Heq); auto.
  intros v. rewrite mapP.resize_entries. tauto.
Qed.

Lemma map_resize_keeps_entries_witness :
  map_wf (map.resize sample_map) /\
  map_entries (map.resize sample_map) = map_entries sample_map /\
  map.size (map.resize sample_map) = map.size sample_map /\
  map.cap (map.resize sample_map) = Nat.max (map.cap sample_map * 2) 7 /\
  map.getp Z.eqb hash_char (map.resize sample_map) 98
  = map.getp Z.eqb hash_char sample_map 98.
Proof.
  apply (map_resize_keeps_entries Z.eqb hash_char sample_map 98).
  - exact Z.eqb_eq.
  - split; [|reflexivity]. vm_compute.
    repeat constructor; simpl; intuition discriminate.
Defined.

(** X5.  [set] of a key that is not in the map succeeds (returns true)
    and keeps the load at most 0.8, so that a slot stays free: the buffer is
    resized before the insertion when [cap * 0.8 < n + 1]. *)
Theorem map_set_keeps_load {K V : Type} (keqb : K -> K -> bool) (h : K -> Z)
        (m : map.t K V) (k : K) (v : V) :
  (forall a b, keqb a b = true <-> a = b) ->
  map_wf m -> load_ok m ->
  ~ In k (map fst (map_entries m)) ->
  exists m',
    map.set keqb h m k v = (m', true) /\
    map_wf m' /\ load_ok m' /\
    map.size m' = S (map.size m) /\
    (map.size m' < map.cap m')%nat /\
    map.get keqb h m' k = Ok v.
Proof.
  intros Heq W L Hk.
  destruct (mapP.set_fresh keqb h Heq m k v W Hk) as (m' & E & W' & P).
  exists m'. split; [exact E|]. split; [exact W'|].
  assert (Hn : map.n m' = S (map.n m)).
  { destruct W as [_ Hn]. destruct W' as [_ Hn'].
    rewrite Hn, Hn', (Permutation_length P). reflexivity. }
  assert (Hc : map.cap m' = map.cap (if map.too_small m then map.resize m else m)).
  { unfold map.set in E.
    destruct (find _ (map.probes h k (map.cap (if map.too_small m
                                               then map.resize m else m))))
      as [p|]; [|discriminate].
    injection E as <-. unfold map.cap. cbn [map.b]. apply upd_length. }
  assert (Hl : (5 * S (map.n m) <= 4 * map.cap m')%nat).
  { rewrite Hc. unfold load_ok in L.
    destruct (map.too_small m) eqn:Ts.
    - rewrite mapP.resize_cap. lia.
    - unfold map.too_small in Ts. apply orb_false_iff in Ts.
      destruct Ts as [_ Ts]. apply Nat.ltb_ge in Ts. lia. }
  unfold load_ok, map.size. rewrite Hn.
  split; [exact Hl|]. split; [reflexivity|]. split; [lia|].
  unfold map.get.
  rewrite (mapP.getp_complete keqb h Heq m' k v W'); [reflexivity|].
  apply (Permutation_in _ (Permutation_sym P)). left. reflexivity.
Qed.

Lemma map_set_keeps_load_witness :
  exists m',
    map.set Z.eqb hash_char sample_map 99 7 = (m', true) /\
    map_wf m' /\ load_ok m' /\
    map.size m' = S (map.size sample_map) /\
    (map.size m' < map.cap m')%nat /\
    map.get Z.eqb hash_char m' 99 = Ok 7.
Proof.
  apply (map_set_keeps_load Z.eqb hash_char sample_map 99 7).
  - exact Z.eqb_eq.
  - split; [|reflexivity]. vm_compute.
    repeat constructor; simpl; intuition discriminate.
  - unfold load_ok. vm_compute. lia.
  - vm_compute. intuition discriminate.
Defined.

(** X6.  [set::add] returns true whether the element is new or not
    ([return m[v] = true]); afterwards the set has the element and the
    elements it had, and its size has grown by one exactly when the element
    is new. *)
Theorem set_add_returns_true {T : Type} (teqb : T -> T -> bool) (h : T -> Z)
        (s : set.t T) (v : T) :
  (forall a b, teqb a b = true <-> a = b) ->
  set_wf s ->
  exists s',
    set.add teqb h s v = Ok (s', true) /\
    set_wf s' /\
    (forall x, set.has teqb h s' x = true <-> x = v \/ set.has teqb h s x = true) /\
    set.size s' = (if set.has teqb h s v then set.size s else S (set.size s)).
Proof.
  intros Heq W.
  destruct (setP.add_spec teqb h Heq s v W) as (s' & E & W' & Hin & Hold & Hnew).
  exists s'. split; [exact E|]. split; [exact W'|]. split.
  - intros x. rewrite (setP.set_has_iff teqb h Heq _ _ W'),
      (setP.set_has_iff teqb h Heq _ _ W). apply Hin.
  - rewrite (setP.size_elems _ W'), (setP.size_elems _ W).
    destruct (set.has teqb h s v) eqn:Hh.
    + apply (setP.set_has_iff teqb h Heq _ _ W) in Hh. rewrite (Hold Hh).
      reflexivity.
    + assert (Hv : ~ In v (set_elems s)).
      { intros Hv. apply (setP.set_has_iff teqb h Heq _ _ W) in Hv. congruence. }
      rewrite (Permutation_length (Hnew Hv)). reflexivity.
Qed.

Lemma set_add_returns_true_witness :
  exists s',
    set.add Nat.eqb Z.of_nat sample_set 2%nat = Ok (s', true) /\
    set_wf s' /\
    (forall x, set.has Nat.eqb Z.of_nat s' x = true <->
               x = 2%nat \/ set.has Nat.eqb Z.of_nat sample_set x = true) /\
    set.size s' = (if set.has Nat.eqb Z.of_nat sample_set 2%nat
                   then set.size sample_set else S (set.size sample_set)).
Proof.
  apply (set_add_returns_true Nat.eqb Z.of_nat sample_set 2%nat).
  - exact Nat.eqb_eq.
  - split; [|reflexivity]. vm_compute.
    repeat constructor; simpl; intuition discriminate.
Defined.

(** X7.  [merge] is the union: after [s.merge(o)] the set [s] has the
    elements of [s] and those of [o], and no other. *)
Theorem set_merge_is_union {T : Type} (teqb : T -> T -> bool) (h : T -> Z)
        (s o : set.t T) :
  (forall a b, teqb a b = true <-> a = b) ->
  set_wf s -> set_wf o ->
  exists s',
    set.merge teqb h s o = Ok s' /\
    set_wf s' /\
    forall x, set.has teqb h s' x = true
              <-> set.has teqb h s x = true \/ set.has teqb h o x = true.
Proof.
  intros Heq W Wo.
  destruct (setP.merge_spec teqb h Heq s o W Wo) as (s' & E & W' & Hin).
  exists s'. split; [exact E|]. split; [exact W'|].
  intros x. rewrite (setP.set_has_iff teqb h Heq _ _ W'),
    (setP.set_has_iff teqb h Heq _ _ W), (setP.set_has_iff teqb h Heq _ _ Wo).
  rewrite Hin. tauto.
Qed.

Lemma set_merge_is_union_witness :
  exists s',
    set.merge Nat.eqb Z.of_nat set.new_set sample_set = Ok s' /\
    set_wf s' /\
    forall x, set.has Nat.eqb Z.of_nat s' x = true
              <-> set.has Nat.eqb Z.of_nat set.new_set x = true \/
                  set.has Nat.eqb Z.of_nat sample_set x = true.
Proof.
  apply (set_merge_is_union Nat.eqb Z.of_nat set.new_set sample_set).
  - exact Nat.eqb_eq.
  - split; [constructor | reflexivity].
  - split; [|reflexivity]. vm_compute.
    repeat constructor; simpl; intuition discriminate.
Defined.

Lemma push_all_nodes {T : Type} (teqb : T -> T -> bool) (h : T -> Z)
      (Heq : forall a b, teqb a b = true <-> a = b) (l : list T) :
  forall q, queue_wf q -> NoDup l ->
            (forall v, In v l -> ~ In v (unique_queue.nodes q)) ->
            exists q', push_all teqb h q l = Ok q' /\ queue_wf q' /\
                       unique_queue.nodes q' = unique_queue.nodes q ++ l.
Proof.
  induction l as [|v l IH]; intros q W ND Hf; simpl.
  - exists q. rewrite app_nil_r. auto.
  - destruct (queueP.queue_push_spec teqb h Heq q v W)
      as (q1 & r & E & W1 & Hr & _ & Hn).
    destruct r.
    + unfold push_all. cbn [foreach]. rewrite E. cbn [bind].
      apply NoDup_cons_iff in ND. destruct ND as [Hv ND].
      destruct (IH q1 W1 ND) as (q' & E' & W' & Hn').
      * intros x Hx. rewrite (Hn eq_refl). intros Hin.
        apply in_app_or in Hin. destruct Hin as [Hin|[<-|[]]].
        -- apply (Hf x); [right|]; auto.
        -- contradiction.
      * exists q'. split; [exact E'|]. split; [exact W'|].
        rewrite Hn', (Hn eq_refl), <- app_assoc. reflexivity.
    + exfalso. apply (Hf v); [left; auto|]. apply Hr. reflexivity.
Qed.

Lemma pop_n_nodes {T : Type} (teqb : T -> T -> bool) (h : T -> Z)
      (Heq : forall a b, teqb a b = true <-> a = b) (l : list T) :
  forall q, queue_wf q -> unique_queue.nodes q = l ->
            exists q', pop_n teqb h q (length l) = Ok (q', l) /\
                       queue_wf q' /\ unique_queue.nodes q' = [].
Proof.
  induction l as [|v l IH]; intros q W Hn; simpl.
  - exists q. auto.
  - destruct (queueP.queue_pop_spec teqb h Heq q v l W Hn) as (q1 & E & W1 & Hn1).
    rewrite E. cbn [bind].
    destruct (IH q1 W1 Hn1) as (q' & E' & W' & Hn').
    rewrite E'. cbn [bind]. exists q'. auto.
Qed.

(** X8.  The queue is first in, first out: when values that are not in
    the queue, and differ from one another, are pushed, and the queue is
    then emptied by [pop], the calls of [pop] return the values that were
    in the queue and then the values pushed, in the order of the pushes;
    one more [pop] throws. *)
Theorem unique_queue_is_fifo {T : Type} (teqb : T -> T -> bool) (h : T -> Z)
        (q : unique_queue.t T) (l : list T) :
  (forall a b, teqb a b = true <-> a = b) ->
  queue_wf q -> NoDup l ->
  (forall v, In v l -> ~ In v (unique_queue.nodes q)) ->
  exists q1 q2,
    push_all teqb h q l = Ok q1 /\
    unique_queue.size q1 = (unique_queue.size q + length l)%nat /\
    pop_n teqb h q1 (unique_queue.size q1) = Ok (q2, unique_queue.nodes q ++ l) /\
    unique_queue.empty q2 = true /\
    unique_queue.pop teqb h q2 = Abort EmptyQueue.
Proof.
  intros Heq W ND Hf.
  destruct (push_all_nodes teqb h Heq l q W ND Hf) as (q1 & E1 & W1 & Hn1).
  destruct (pop_n_nodes teqb h Heq _ q1 W1 eq_refl) as (q2 & E2 & W2 & Hn2).
  assert (Hsz : forall x : unique_queue.t T,
             queue_wf x -> unique_queue.size x = length (unique_queue.nodes x)).
  { intros x (Ws & NDx & Hx). unfold unique_queue.size.
    rewrite (setP.size_elems _ Ws). apply Permutation_length.
    apply NoDup_Permutation; auto.
    - apply setP.elems_NoDup, Ws.
    - intros y. symmetry. apply Hx. }
  exists q1, q2. split; [exact E1|].
  split; [rewrite (Hsz _ W1), (Hsz _ W), Hn1, length_app; reflexivity|].
  split; [rewrite (Hsz _ W1), <- Hn1; exact E2|].
  split; [apply (queueP.queue_empty_iff _ W2); exact Hn2|].
  apply queueP.queue_pop_empty; auto.
Qed.

Lemma unique_queue_is_fifo_witness :
  exists q1 q2,
    push_all Nat.eqb Z.of_nat sample_queue [3%nat; 4%nat] = Ok q1 /\
    unique_queue.size q1 = (unique_queue.size sample_queue + 2)%nat /\
    pop_n Nat.eqb Z.of_nat q1 (unique_queue.size q1)
    = Ok (q2, unique_queue.nodes sample_queue ++ [3%nat; 4%nat]) /\
    unique_queue.empty q2 = true /\
    unique_queue.pop Nat.eqb Z.of_nat q2 = Abort EmptyQueue.
Proof.
  apply (unique_queue_is_fifo Nat.eqb Z.of_nat sample_queue [3%nat; 4%nat]).
  - exact Nat.eqb_eq.
  - split; [split; [|reflexivity]|split]; vm_compute.
    + repeat constructor; simpl; intuition discriminate.
    + repeat constructor; simpl; intuition discriminate.
    + intros x. tauto.
  - repeat constructor; simpl; intuition discriminate.
  - vm_compute. intros v [<-|[<-|[]]] [H|[H|[]]]; discriminate H.
Defined.

(** ** The parser *)

Module normP.
Import NfaParser.

Lemma fold_left_Normalize (f : list C * bool -> C -> list C * bool) :
  (forall acc b c, exists b',
        f (acc, b) c = (acc ++ [c], b') \/
        f (acc, b) c = (acc ++ [Op_code OP_CONCAT; c], b')) ->
  forall s acc b,
    let r := fst (fold_left f s (acc, b)) in
    filter not_concat r = filter not_concat acc ++ filter not_concat s /\
    (length acc + length s <= length r <= length acc + 2 * length s)%nat.
Proof.
  intros Hf. induction s as [|c s IH]; intros acc b; cbn zeta.
  - simpl. rewrite app_nil_r. split; [reflexivity|lia].
  - cbn [fold_left]. destruct (Hf acc b c) as (b' & [E|E]); rewrite E.
    + destruct (IH (acc ++ [c]) b') as [IH1 IH2]. cbn zeta in IH1, IH2.
      rewrite IH1, filter_app, <- app_assoc. cbn [filter length] in *.
      rewrite length_app in IH2. cbn [length] in IH2.
      split; [destruct (not_concat c); reflexivity|lia].
    + destruct (IH (acc ++ [Op_code OP_CONCAT; c]) b') as [IH1 IH2].
      cbn zeta in IH1, IH2.
      rewrite IH1, filter_app, <- app_assoc. cbn [filter length] in *.
      rewrite length_app in IH2. cbn [length] in IH2.
      split; [|lia].
      replace (not_concat (Op_code OP_CONCAT)) with false by reflexivity.
      destruct (not_concat c); reflexivity.
Qed.

End normP.

(** X9.  [Normalize] changes the pattern only by inserting the concat
    operator ['&']: without the chars ['&'] the result is the pattern
    without its chars ['&']; the result is at least as long as the pattern
    and at most twice as long; the empty pattern is left empty. *)
Theorem Normalize_only_inserts_concat (s : list C) :
  filter not_concat (NfaParser.Normalize s) = filter not_concat s /\
  (length s <= length (NfaParser.Normalize s) <= 2 * length s)%nat /\
  NfaParser.Normalize [] = [].
Proof.
  unfold NfaParser.Normalize.
  match goal with
  | |- context [fold_left ?f s ([], false)] =>
      pose proof (normP.fold_left_Normalize f) as H
  end.
  destruct (H) with (s := s) (acc := @nil Z) (b := false) as [H1 H2].
  - intros acc b c. cbv beta iota. eexists.
    match goal with
    | |- context [if ?t then _ ++ _ else _] => destruct t
    end; [right | left]; rewrite <- ?app_assoc; reflexivity.
  - cbn zeta in H1, H2. cbn [filter app length Nat.add] in H1, H2.
    split; [exact H1|]. split; [lia|reflexivity].
Qed.

Module classP.
Import NfaParser.

Lemma skipn_nth (s : list C) (i : nat) :
  (i < length s)%nat -> skipn i s = char_at s i :: skipn (S i) s.
Proof.
  unfold char_at. revert i; induction s as [|c s IH]; intros [|i] H; simpl in *;
    try lia; auto.
  apply IH. lia.
Qed.

Lemma class_loop_spec (s1 : list C) :
  Forall (fun c => c <> 0) s1 ->
  forall fuel i range_start ranges,
    (length s1 - i <= fuel)%nat ->
    class_loop fuel s1 i range_start ranges
    = ((i + length (class_chars (skipn i s1)))%nat,
       ranges ++ pair_up ((if range_start =? EPSILON then [] else [range_start])
                          ++ filter not_range_to (class_chars (skipn i s1)))).
Proof.
  intros Hnz. induction fuel as [|f IH]; intros i rs ranges Hf.
  - rewrite skipn_all2 by lia. cbn [class_loop class_chars filter length].
    rewrite Nat.add_0_r, app_nil_r.
    destruct (rs =? EPSILON); cbn [pair_up]; rewrite app_nil_r; reflexivity.
  - cbn [class_loop]. destruct (i <? length s1)%nat eqn:Hlt.
    + apply Nat.ltb_lt in Hlt. rewrite (skipn_nth s1 i Hlt).
      assert (Hc0 : char_at s1 i <> 0).
      { rewrite Forall_forall in Hnz. apply Hnz. unfold char_at.
        apply nth_In. exact Hlt. }
      cbn [class_chars].
      destruct (char_at s1 i =? Op_code OP_RANGE_END) eqn:He; cbn [negb andb].
      * cbn [filter length]. rewrite Nat.add_0_r, app_nil_r.
        destruct (rs =? EPSILON); cbn [pair_up]; rewrite app_nil_r; reflexivity.
      * cbn [filter length]. unfold not_range_to at 1.
        destruct (char_at s1 i =? Op_code OP_RANGE_TO) eqn:Ht; cbn [negb].
        -- rewrite IH by lia. f_equal. lia.
        -- destruct (rs =? EPSILON) eqn:Hr.
           ++ rewrite IH by lia.
              replace (char_at s1 i =? EPSILON) with false
                by (symmetry; apply Z.eqb_neq; exact Hc0).
              f_equal. lia.
           ++ rewrite IH by lia. cbn [Z.eqb EPSILON app pair_up].
              rewrite <- app_assoc. f_equal. lia.
    + apply Nat.ltb_ge in Hlt. rewrite andb_false_r.
      rewrite skipn_all2 by lia. cbn [class_chars filter length].
      rewrite Nat.add_0_r, app_nil_r.
      destruct (rs =? EPSILON); cbn [pair_up]; rewrite app_nil_r; reflexivity.
Qed.

End classP.

(** X10.  In a class the chars are taken two by two as the ends of
    ranges, in the order they come; ['-'] is skipped wherever it stands,
    and a last char without a partner is dropped.  So [[a-c]] and [[ac]]
    are the range from a to c, [[abc]] is the range from a to b, and [[a]]
    is the empty class. *)
Theorem class_pairs_chars (s1 : list C) (i : nat) :
  Forall (fun c => c <> 0) s1 ->
  NfaParser.class_loop (length s1) s1 i EPSILON []
  = ((i + length (class_chars (skipn i s1)))%nat,
     pair_up (filter not_range_to (class_chars (skipn i s1)))).
Proof.
  intros Hnz. rewrite (classP.class_loop_spec s1 Hnz) by lia. reflexivity.
Qed.

Lemma class_pairs_chars_witness :
  NfaParser.class_loop 5 [91; 97; 98; 99; 93] 1 EPSILON [] = (4%nat, [(97, 98)]).
Proof.
  apply (class_pairs_chars [91; 97; 98; 99; 93] 1).
  repeat constructor; discriminate.
Defined.

Module rangeP.
Import NfaParser.

Lemma to_char_range (z : Z) : CHAR_MIN <= to_char z <= CHAR_MAX.
Proof.
  unfold to_char, CHAR_MAX, CHAR_MIN.
  pose proof (Z.mod_pos_bound (z - -128) 256). lia.
Qed.

Lemma to_char_id (z : Z) : CHAR_MIN <= z <= CHAR_MAX -> to_char z = z.
Proof.
  unfold to_char, CHAR_MAX, CHAR_MIN. intros H.
  rewrite Z.mod_small by lia. lia.
Qed.

Lemma CSet_add_spec (chs : set.t C) (c : C) :
  set_wf chs ->
  exists chs', CSet_add chs c = Ok chs' /\ set_wf chs' /\
               forall x, In x (set_elems chs') <-> x = c \/ In x (set_elems chs).
Proof.
  intros W. unfold CSet_add.
  destruct (setP.add_spec Z.eqb hash_char Z.eqb_eq chs c W)
    as (chs' & E & W' & Hin & _).
  rewrite E. cbn [bind]. eauto.
Qed.

Lemma range_loop_ends (e : C) (n : nat) :
  e < CHAR_MAX ->
  forall fuel x chs,
    set_wf chs -> CHAR_MIN <= x -> e - x + 1 <= Z.of_nat n -> (n < fuel)%nat ->
    exists chs',
      range_loop fuel x e chs = Ok chs' /\ set_wf chs' /\
      forall c, In c (set_elems chs') <-> In c (set_elems chs) \/ x <= c <= e.
Proof.
  intros He. induction n as [|n IH]; intros fuel x chs W Hx Hn Hf;
    (destruct fuel as [|f]; [lia|]); cbn [range_loop].
  - replace (x <=? e) with false by (symmetry; apply Z.leb_gt; lia).
    exists chs. split; [reflexivity|]. split; [exact W|].
    intros c. split; [auto|]. intros [H|H]; [auto|lia].
  - destruct (x <=? e) eqn:Hle.
    + apply Z.leb_le in Hle.
      destruct (CSet_add_spec chs x W) as (chs1 & E1 & W1 & H1).
      rewrite E1. cbn [bind].
      rewrite to_char_id by (unfold CHAR_MAX, CHAR_MIN in *; lia).
      destruct (IH f (x + 1) chs1 W1) as (chs' & E' & W' & H'); try lia.
      exists chs'. split; [exact E'|]. split; [exact W'|].
      intros c. rewrite H', H1. split.
      * intros [[->|H]|H]; [right; lia|auto|right; lia].
      * intros [H|H]; [auto|].
        destruct (Z.eq_dec c x) as [->|Hne]; [auto|right; lia].
    + apply Z.leb_gt in Hle. exists chs. split; [reflexivity|].
      split; [exact W|]. intros c. split; [auto|]. intros [H|H]; [auto|lia].
Qed.

Lemma range_loop_diverges (e : C) :
  CHAR_MAX <= e ->
  forall fuel x chs,
    set_wf chs -> CHAR_MIN <= x <= CHAR_MAX ->
    range_loop fuel x e chs = OutOfFuel.
Proof.
  intros He. induction fuel as [|f IH]; intros x chs W Hx; cbn [range_loop].
  - reflexivity.
  - replace (x <=? e) with true by (symmetry; apply Z.leb_le; lia).
    destruct (CSet_add_spec chs x W) as (chs1 & E1 & W1 & _).
    rewrite E1. cbn [bind]. apply IH; auto. apply to_char_range.
Qed.

End rangeP.

(** X11.  The loop [for (auto x = start; x <= end; x++) chs.add(x)] of a
    range, with [x] a char.  When [end] is below [CHAR_MAX] it ends and
    adds the chars from [start] to [end], and no other; it adds nothing
    when [start] is above [end].  When [end] is [CHAR_MAX] it does not end:
    after the char [CHAR_MAX] the increment gives [CHAR_MIN], and the test
    [x <= end] holds for every char (no amount of fuel is enough). *)
Theorem range_loop_adds_range (x e : C) (chs : set.t C) :
  set_wf chs -> CHAR_MIN <= x <= CHAR_MAX ->
  (e < CHAR_MAX ->
   exists chs',
     NfaParser.range_loop 257 x e chs = Ok chs' /\ set_wf chs' /\
     (forall c, In c (set_elems chs') <-> In c (set_elems chs) \/ x <= c <= e) /\
     (e < x -> chs' = chs)) /\
  (e = CHAR_MAX ->
   forall fuel, NfaParser.range_loop fuel x e chs = OutOfFuel).
Proof.
  intros W Hx. split.
  - intros He.
    destruct (rangeP.range_loop_ends e 256 He 257 x chs W) as (chs' & E & W' & H);
      try (unfold CHAR_MAX, CHAR_MIN in *; lia).
    exists chs'. repeat (split; [assumption|]).
    intros Hlt. cbn [NfaParser.range_loop] in E.
    replace (x <=? e) with false in E by (symmetry; apply Z.leb_gt; lia).
    congruence.
  - intros -> fuel. apply rangeP.range_loop_diverges; auto. lia.
Qed.

Lemma range_loop_adds_range_witness :
  (99 < CHAR_MAX ->
   exists chs',
     NfaParser.range_loop 257 97 99 set.new_set = Ok chs' /\ set_wf chs' /\
     (forall c, In c (set_elems chs') <->
                In c (set_elems (set.new_set : set.t Z)) \/ 97 <= c <= 99) /\
     (99 < 97 -> chs' = set.new_set)) /\
  (99 = CHAR_MAX ->
   forall fuel, NfaParser.range_loop fuel 97 99 set.new_set = OutOfFuel).
Proof.
  apply (range_loop_adds_range 97 99 set.new_set).
  - split; [constructor | reflexivity].
  - unfold CHAR_MAX, CHAR_MIN. lia.
Defined.

Module escapeP.
Import NfaParser.

Lemma fold_left_prefix (A : Type) (f : list C * bool -> A -> list C * bool) :
  (forall acc b x, exists l b', f (acc, b) x = (acc ++ l, b')) ->
  forall s acc b, exists l, fst (fold_left f s (acc, b)) = acc ++ l.
Proof.
  intros Hf. induction s as [|x s IH]; intros acc b; simpl.
  - exists []. rewrite app_nil_r. reflexivity.
  - destruct (Hf acc b x) as (l & b' & ->).
    destruct (IH (acc ++ l) b') as [l' ->].
    exists (l ++ l'). rewrite app_assoc. reflexivity.
Qed.

(** The chars of the normalized pattern at a backslash that follows the
    chars [p] and is not inside a class. *)
Lemma Normalize_escape (p : list C) (c : C) (rest : list C) :
  snd (Normalize_state p) = false ->
  exists l,
    Normalize (p ++ BACKSLASH :: c :: rest)
    = before_escape p
      ++ BACKSLASH :: (if IsAbleInsertConcat c then [Op_code OP_CONCAT] else [])
      ++ c :: l.
Proof.
  intros Hp. unfold before_escape.
  change (Normalize p) with (fst (Normalize_state p)).
  unfold Normalize. rewrite fold_left_app.
  change (fold_left _ p ([], false)) with (Normalize_state p).
  destruct (Normalize_state p) as [s1 b]. cbn [fst snd] in *. subst b.
  rewrite !unionP.fold_left_cons_eq.
  match goal with
  | |- context [fold_left ?f rest ?init] =>
      destruct (fold_left_prefix _ f) with (s := rest) (acc := fst init)
                                           (b := snd init) as [l Hl]
  end.
  - intros acc b x. cbv beta iota.
    match goal with
    | |- context [if ?t then _ ++ _ else _] => destruct t
    end; rewrite <- ?app_assoc; eauto.
  - exists l. rewrite <- surjective_pairing in Hl. rewrite Hl.
    cbv beta iota. cbn [fst snd].
    replace (IsAbleInsertConcat BACKSLASH) with true by reflexivity.
    replace (BACKSLASH =? Op_code OP_RANGE_START) with false by reflexivity.
    replace (BACKSLASH =? Op_code OP_RANGE_END) with false by reflexivity.
    cbn [negb andb]. rewrite !andb_true_r.
    set (pre := if negb (stack.empty s1) && negb (IsRightActingOperator (last s1 0))
                then s1 ++ [Op_code OP_CONCAT] else s1).
    assert (E1 : stack.empty (pre ++ [BACKSLASH]) = false)
      by (destruct pre; reflexivity).
    assert (E2 : IsRightActingOperator (last (pre ++ [BACKSLASH]) 0) = false)
      by (rewrite last_last; reflexivity).
    rewrite E1, E2. cbn [negb andb]. rewrite ?andb_true_r.
    destruct (IsAbleInsertConcat c); rewrite <- !app_assoc; reflexivity.
Qed.

Lemma char_at_middle (pre : list C) (x : C) (l : list C) :
  char_at (pre ++ x :: l) (length pre) = x.
Proof. unfold char_at. apply nth_middle. Qed.

Lemma char_at_after (pre : list C) (x y : C) (l : list C) :
  char_at (pre ++ x :: y :: l) (S (length pre)) = y.
Proof.
  unfold char_at.
  change (pre ++ x :: y :: l) with (pre ++ [x] ++ y :: l).
  rewrite app_assoc.
  replace (S (length pre)) with (length (pre ++ [x]))
    by (rewrite length_app; cbn [length]; lia).
  apply nth_middle.
Qed.

End escapeP.

(** X12.  A backslash outside a class makes a symbol of the char that
    follows it in the normalized pattern, and [Normalize] does not know
    the backslash.  Before a char that takes no concat operator on its
    left (one of [& | * ) + ? ] -]) the escape works: the char is the
    symbol.  Before every other char (a literal, ['('], ['['], a
    backslash) [Normalize] has put ['&'] between the two, and the symbol
    is ['&']: the char is parsed as if it was not escaped.  So the pattern
    [\(] accepts ["&"] and rejects ["("].  Inside a class the backslash is
    a char like another: [[\a]] is the range from the backslash to [a]. *)
Theorem escape_takes_next_normalized_char (p : list C) (c : C) (rest : list C) :
  snd (Normalize_state p) = false ->
  exists l,
    NfaParser.Normalize (p ++ BACKSLASH :: c :: rest)
    = before_escape p
      ++ BACKSLASH :: (if IsAbleInsertConcat c then [Op_code OP_CONCAT] else [])
      ++ c :: l /\
    (forall ps,
        NfaParser.parse_step (NfaParser.Normalize (p ++ BACKSLASH :: c :: rest))
                             (length (before_escape p)) ps
        = (r <- NfaParser.NewNfaFromSymbol
                  ps (if IsAbleInsertConcat c then Op_code OP_CONCAT else c) ;;
           Ok (S (S (length (before_escape p))), NfaParser.push_nfa r))) /\
    Match 10 [BACKSLASH; 40] [38] = Ok true /\
    Match 10 [BACKSLASH; 40] [40] = Ok false /\
    Match 10 [BACKSLASH; 42] [42] = Ok true /\
    Match 10 [97; BACKSLASH; 40] [97; 38] = Ok true /\
    Match 10 [91; BACKSLASH; 97; 93] [93] = Ok true.
Proof.
  intros Hp.
  destruct (escapeP.Normalize_escape p c rest Hp) as [l El].
  exists l. split; [exact El|]. split.
  - intros ps. rewrite El. unfold NfaParser.parse_step.
    rewrite escapeP.char_at_middle.
    replace (Op_of_char BACKSLASH) with (@None Op) by reflexivity.
    replace (BACKSLASH =? BACKSLASH) with true by reflexivity.
    destruct (IsAbleInsertConcat c); cbn [app];
      rewrite escapeP.char_at_after; reflexivity.
  - repeat split; vm_compute; reflexivity.
Qed.

Lemma escape_takes_next_normalized_char_witness :
  exists l,
    NfaParser.Normalize ([97; 42] ++ BACKSLASH :: 40 :: [98])
    = before_escape [97; 42]
      ++ BACKSLASH :: (if IsAbleInsertConcat 40 then [Op_code OP_CONCAT] else [])
      ++ 40 :: l /\
    (forall ps,
        NfaParser.parse_step (NfaParser.Normalize ([97; 42] ++ BACKSLASH :: 40 :: [98]))
                             (length (before_escape [97; 42])) ps
        = (r <- NfaParser.NewNfaFromSymbol
                  ps (if IsAbleInsertConcat 40 then Op_code OP_CONCAT else 40) ;;
           Ok (S (S (length (before_escape [97; 42]))), NfaParser.push_nfa r))) /\
    Match 10 [BACKSLASH; 40] [38] = Ok true /\
    Match 10 [BACKSLASH; 40] [40] = Ok false /\
    Match 10 [BACKSLASH; 42] [42] = Ok true /\
    Match 10 [97; BACKSLASH; 40] [97; 38] = Ok true /\
    Match 10 [91; BACKSLASH; 97; 93] [93] = Ok true.
Proof.
  apply (escape_takes_next_normalized_char [97; 42] 40 [98]).
  vm_compute. reflexivity.
Defined.

(** ** Matching on the DFA and on the frozen DFA *)

Lemma Match_from_total mem dfa :
  dfa_wf mem dfa ->
  forall s p, valid_ptr mem p -> exists b, Dfa.Match_from mem p s = Ok b.
Proof.
  intros W. induction s as [|c s IH]; intros p Hp; cbn [Dfa.Match_from];
    destruct (valid_ptr_deref _ _ Hp) as [st Hd]; rewrite Hd; cbn [bind]; eauto.
  destruct (DfaState.HasTransition st c) eqn:Hh; cbn [negb]; eauto.
  unfold DfaState.HasTransition in Hh. rewrite map_has_getp in Hh.
  unfold DfaState.Next, map.get.
  destruct (map.getp Z.eqb hash_char (DfaState.transitions st) c) as [to|] eqn:G;
    [|discriminate].
  cbn [bind]. apply IH.
  apply (mapP.getp_In Z.eqb hash_char Z.eqb_eq) in G.
  exact (mem_tr_valid _ (dw_mem _ _ W) _ _ _ _ Hd G).
Qed.

(** X13.  Matching on the DFA that [build] returns never fails: for every
    input [Dfa::Match] returns true or false (no transition leads out of
    the DFA, no lookup throws); so does the compile-time [Match], which
    runs it. *)
Theorem Dfa_Match_total fuel pattern mem dfa (s : list C) :
  build fuel pattern = Ok (mem, dfa) ->
  (exists b, Dfa.Match mem dfa s = Ok b) /\
  (exists b, Match_consteval fuel pattern s = Ok b).
Proof.
  intros Hb. pose proof (buildP.build_spec _ _ _ _ Hb) as W.
  destruct (dw_start _ _ W) as [Es V1].
  assert (T : forall s', exists b, Dfa.Match mem dfa s' = Ok b).
  { intros s'. unfold Dfa.Match. rewrite Es. apply (Match_from_total mem dfa W).
    exact V1. }
  split; [apply T|]. unfold Match_consteval. rewrite Hb. cbn [bind]. apply T.
Qed.

Lemma Dfa_Match_total_witness :
  (exists b, Dfa.Match (fst (built 10 pattern_ab)) (snd (built 10 pattern_ab))
                       [97; 0; 98] = Ok b) /\
  (exists b, Match_consteval 10 pattern_ab [97; 0; 98] = Ok b).
Proof.
  apply (Dfa_Match_total 10 pattern_ab (fst (built 10 pattern_ab))
                         (snd (built 10 pattern_ab)) [97; 0; 98]).
  vm_compute. reflexivity.
Defined.




Lemma Match_loop_residues (fd : FixedDfa.t) (t : list Z) :
  forall s s' st,
    map (ch_mod (FixedDfa.AlphabetSize fd)) s
    = map (ch_mod (FixedDfa.AlphabetSize fd)) s' ->
    FixedDfa.Match_loop fd t s st = FixedDfa.Match_loop fd t s' st.
Proof.
  induction s as [|c s IH]; intros [|c' s'] st H; try discriminate.
  - reflexivity.
  - cbn [map] in H. injection H as Hc Hs. cbn [FixedDfa.Match_loop].
    rewrite Hc. destruct (ch_mod (FixedDfa.AlphabetSize fd) c'); auto.
    cbn [bind]. destruct (rd t a); auto. cbn [bind].
    destruct (a0 =? 0); auto.
    destruct (rd (FixedDfa.transitions fd) (st - 1)); auto. cbn [bind].
    destruct (rd a1 (a0 - 1)); auto. cbn [bind].
    destruct (a2 =? 0); auto.
Qed.

Lemma ch_mod_128 (c : C) : ch_mod 128 (c mod 128) = ch_mod 128 c.
Proof.
  unfold ch_mod, size_t. cbn [Z.eqb]. f_equal.
  change 18446744073709551615 with (Z.ones 64).
  rewrite !Z.land_ones by lia.
  rewrite (Z.mod_mod_divide (c mod 128) (2 ^ 64) 128),
    (Z.mod_mod_divide c (2 ^ 64) 128) by (exists (2 ^ 57); reflexivity).
  apply Z.mod_mod. lia.
Qed.

(** X15.  The frozen matcher sees an input byte only through
    [ch % AlphabetSize]: two inputs with the same residues, byte by byte,
    get the same answer.  With the alphabet size 128 every byte is matched
    as its low seven bits: a byte from 0x80 on as the byte less 0x80. *)
Theorem Match_sees_residues_only (fd : FixedDfa.t) (s s' : list C) :
  map (ch_mod (FixedDfa.AlphabetSize fd)) s
  = map (ch_mod (FixedDfa.AlphabetSize fd)) s' ->
  FixedDfa.Match fd s = FixedDfa.Match fd s' /\
  (FixedDfa.AlphabetSize fd = 128 ->
   FixedDfa.Match fd (map (fun c => c mod 128) s) = FixedDfa.Match fd s).
Proof.
  intros H.
  assert (G : forall a b, map (ch_mod (FixedDfa.AlphabetSize fd)) a
                          = map (ch_mod (FixedDfa.AlphabetSize fd)) b ->
                          FixedDfa.Match fd a = FixedDfa.Match fd b).
  { intros a b Hab. unfold FixedDfa.Match.
    destruct (FixedDfa.index_table fd); auto. cbn [bind].
    rewrite (Match_loop_residues fd a0 a b 1 Hab). reflexivity. }
  split; [apply G; exact H|].
  intros EA. apply G. rewrite EA, map_map. apply map_ext.
  intros c. apply ch_mod_128.
Qed.

Lemma Match_sees_residues_only_witness :
  FixedDfa.Match fd_ab [97; 98] = FixedDfa.Match fd_ab [-31; 98] /\
  (FixedDfa.AlphabetSize fd_ab = 128 ->
   FixedDfa.Match fd_ab (map (fun c => c mod 128) [97; 98])
   = FixedDfa.Match fd_ab [97; 98]).
Proof.
  apply (Match_sees_residues_only fd_ab [97; 98] [-31; 98]).
  vm_compute. reflexivity.
Defined.



Lemma c_str_app_NUL (s t : list C) :
  Forall (fun c => c <> 0) s -> c_str (s ++ 0 :: t) = s.
Proof.
  induction 1 as [|c s Hc _ IH]; simpl; [reflexivity|].
  replace (c =? 0) with false by (symmetry; apply Z.eqb_neq; exact Hc).
  rewrite IH. reflexivity.
Qed.

Lemma c_str_no_NUL (s : list C) : Forall (fun c => c <> 0) s -> c_str s = s.
Proof.
  induction 1 as [|c s Hc _ IH]; simpl; [reflexivity|].
  replace (c =? 0) with false by (symmetry; apply Z.eqb_neq; exact Hc).
  rewrite IH. reflexivity.
Qed.

(** X17.  The pattern ends at its first NUL, and so does the input of the
    compile-time [Match]: what follows the NUL changes neither the DFA that
    is built, nor the frozen tables, nor the answer. *)
Theorem pattern_ends_at_NUL fuel (p q s t : list C) pre_index A :
  Forall (fun c => c <> 0) p -> Forall (fun c => c <> 0) s ->
  build fuel (p ++ 0 :: q) = build fuel p /\
  Compile fuel (p ++ 0 :: q) pre_index A = Compile fuel p pre_index A /\
  Match_consteval fuel p (s ++ 0 :: t) = Match_consteval fuel p s.
Proof.
  intros Hp Hs.
  assert (Eb : build fuel (p ++ 0 :: q) = build fuel p).
  { unfold build. rewrite (c_str_app_NUL p q Hp), (c_str_no_NUL p Hp).
    reflexivity. }
  split; [exact Eb|]. split.
  - unfold Compile, FixedDfa.ctor. rewrite Eb. reflexivity.
  - unfold Match_consteval.
    rewrite (c_str_app_NUL s t Hs), (c_str_no_NUL s Hs). reflexivity.
Qed.

Lemma pattern_ends_at_NUL_witness :
  build 10 ([97; 98] ++ 0 :: [99]) = build 10 [97; 98] /\
  Compile 10 ([97; 98] ++ 0 :: [99]) false 128 = Compile 10 [97; 98] false 128 /\
  Match_consteval 10 [97; 98] ([97; 98] ++ 0 :: [99])
  = Match_consteval 10 [97; 98] [97; 98].
Proof.
  apply (pattern_ends_at_NUL 10 [97; 98] [99] [97; 98] [99] false 128);
    repeat constructor; discriminate.
Defined.

(** ** The builder *)

Lemma insert_sorted_comm (x y : Z) (l : list Z) :
  insert_sorted x (insert_sorted y l) = insert_sorted y (insert_sorted x l).
Proof.
  induction l as [|z r IH]; cbn [insert_sorted].
  - destruct (x <=? y) eqn:Exy, (y <=? x) eqn:Eyx; auto.
    + apply Z.leb_le in Exy, Eyx. assert (x = y) by lia. subst. reflexivity.
    + apply Z.leb_gt in Exy, Eyx. lia.
  - destruct (y <=? z) eqn:Eyz, (x <=? z) eqn:Exz; cbn [insert_sorted];
      rewrite ?Eyz, ?Exz.
    + destruct (x <=? y) eqn:Exy, (y <=? x) eqn:Eyx; auto.
      * apply Z.leb_le in Exy, Eyx. assert (x = y) by lia. subst. reflexivity.
      * apply Z.leb_gt in Exy, Eyx. lia.
    + replace (x <=? y) with false; auto.
      symmetry. apply Z.leb_gt. apply Z.leb_le in Eyz. apply Z.leb_gt in Exz. lia.
    + replace (y <=? x) with false; auto.
      symmetry. apply Z.leb_gt. apply Z.leb_le in Exz. apply Z.leb_gt in Eyz. lia.
    + rewrite IH. reflexivity.
Qed.

Lemma sort_ids_Permutation (l l' : list Z) :
  Permutation l l' -> sort_ids l = sort_ids l'.
Proof.
  unfold sort_ids. induction 1; cbn [fold_right]; auto.
  - rewrite IHPermutation. reflexivity.
  - apply insert_sorted_comm.
  - congruence.
Qed.

(** The ids of the states in a list of pointers. *)
Lemma foreach_ids (heap : list NfaState.t) (l : list ptr) (acc : list Z) :
  (forall p, In p l -> valid_ptr heap p) ->
  foreach l acc (fun ids p => s <- deref heap p ;; Ok (ids ++ [NfaState.id s]))
  = Ok (acc ++ map (Nfa_Id heap) l).
Proof.
  revert acc; induction l as [|p l IH]; intros acc Hv; cbn [foreach map].
  - rewrite app_nil_r. reflexivity.
  - destruct (valid_ptr_deref heap p) as [st Hd]; [apply Hv; left; auto|].
    rewrite Hd. cbn [bind]. rewrite IH by (intros q Hq; apply Hv; right; auto).
    unfold Nfa_Id at 2. rewrite Hd. rewrite <- app_assoc. reflexivity.
Qed.

(** X18.  The id that [HashNfaStateIds] gives to a set of NFA states
    does not depend on the order in which the set is iterated (the ids are
    sorted before they are hashed): two sets that hold the same states, in
    whatever slots, get the same id, and the id is the hash of the sorted
    ids of the states. *)
Theorem HashNfaStateIds_ignores_order (heap : list NfaState.t)
        (N N' : NfaState.PtrSet) :
  (forall p, In p (set.elements N) -> valid_ptr heap p) ->
  Permutation (set.elements N) (set.elements N') ->
  DfaBuilder.HashNfaStateIds heap N = DfaBuilder.HashNfaStateIds heap N' /\
  DfaBuilder.HashNfaStateIds heap N
  = Ok (hash_vector (sort_ids (map (Nfa_Id heap) (set.elements N)))).
Proof.
  intros Hv P. unfold DfaBuilder.HashNfaStateIds.
  rewrite (foreach_ids heap (set.elements N) [] Hv).
  rewrite (foreach_ids heap (set.elements N') []).
  - cbn [bind app]. split; [|reflexivity]. do 2 f_equal.
    apply sort_ids_Permutation. apply Permutation_map. exact P.
  - intros p Hp. apply Hv. apply (Permutation_in _ (Permutation_sym P)). exact Hp.
Qed.

Lemma HashNfaStateIds_ignores_order_witness :
  DfaBuilder.HashNfaStateIds heap_a_star set_1_4
  = DfaBuilder.HashNfaStateIds heap_a_star set_4_1 /\
  DfaBuilder.HashNfaStateIds heap_a_star set_1_4
  = Ok (hash_vector (sort_ids (map (Nfa_Id heap_a_star) (set.elements set_1_4)))).
Proof.
  apply (HashNfaStateIds_ignores_order heap_a_star set_1_4 set_4_1).
  - intros p Hp. vm_compute in Hp. unfold valid_ptr.
    change (length heap_a_star) with 6%nat.
    destruct Hp as [<-|[<-|[<-|[<-|[]]]]]; lia.
  - vm_compute. do 2 apply perm_skip. apply perm_swap.
Defined.

(** X19.  [Dfa::AddState(st)] adds the state to the states of the DFA and
    the labels of its transitions to the accepted chars, and nothing else;
    the start state stays. *)
Theorem Dfa_AddState_adds_state_and_labels (mem : list DfaState.t) (dfa : Dfa.t)
        (Sp : ptr) (st : DfaState.t) :
  set_wf (Dfa.states dfa) -> set_wf (Dfa.chs dfa) ->
  deref mem Sp = Ok st -> map_wf (DfaState.transitions st) ->
  exists dfa',
    Dfa.AddState mem dfa Sp = Ok dfa' /\
    Dfa.start dfa' = Dfa.start dfa /\
    Dfa.Has mem dfa' Sp = true /\
    (forall p, Dfa.Has mem dfa' p = true <-> p = Sp \/ Dfa.Has mem dfa p = true) /\
    (forall c, set.has Z.eqb hash_char (Dfa.chs dfa') c = true <->
               DfaState.HasTransition st c = true \/
               set.has Z.eqb hash_char (Dfa.chs dfa) c = true).
Proof.
  intros Ws Wc Hd Wt.
  assert (Ex : exists dfa', Dfa.AddState mem dfa Sp = Ok dfa').
  { unfold Dfa.AddState.
    destruct (setP.add_spec Nat.eqb (hash_DfaState mem) Nat.eqb_eq
                            (Dfa.states dfa) Sp Ws) as (sts & E & _).
    rewrite E. cbn [bind]. rewrite Hd. cbn [bind].
    assert (G : forall l chs, set_wf chs ->
                              exists chs', foreach l chs
                                             (fun chs0 (p : Z * ptr) => CSet_add chs0 (fst p))
                                           = Ok chs').
    { induction l as [|x l IH]; intros chs W; cbn [foreach]; eauto.
      destruct (rangeP.CSet_add_spec chs (fst x) W) as (chs1 & E1 & W1 & _).
      rewrite E1. cbn [bind]. apply IH. exact W1. }
    destruct (G (map.items (DfaState.transitions st)) (Dfa.chs dfa) Wc) as [chs' E'].
    rewrite E'. cbn [bind]. eauto. }
  destruct Ex as [dfa' E]. exists dfa'. split; [exact E|].
  destruct (buildP.AddState_spec mem dfa Sp dfa' st Ws Wc Hd Wt E)
    as (Es & Ws' & Wc' & Hs & Hc).
  split; [exact Es|].
  assert (HH : forall p, Dfa.Has mem dfa' p = true <-> p = Sp \/ Dfa.Has mem dfa p = true).
  { intros p. unfold Dfa.Has.
    rewrite (setP.set_has_iff Nat.eqb (hash_DfaState mem) Nat.eqb_eq _ _ Ws'),
      (setP.set_has_iff Nat.eqb (hash_DfaState mem) Nat.eqb_eq _ _ Ws).
    apply Hs. }
  split; [apply HH; left; reflexivity|]. split; [exact HH|].
  intros c. unfold DfaState.HasTransition.
  rewrite (setP.set_has_iff Z.eqb hash_char Z.eqb_eq _ _ Wc'),
    (setP.set_has_iff Z.eqb hash_char Z.eqb_eq _ _ Wc),
    (mapP.map_has_iff Z.eqb hash_char Z.eqb_eq _ _ Wt).
  apply Hc.
Qed.

Lemma Dfa_AddState_adds_state_and_labels_witness :
  exists dfa',
    Dfa.AddState (fst (built 10 pattern_ab)) (Dfa.new_dfa 1) 1 = Ok dfa' /\
    Dfa.start dfa' = Dfa.start (Dfa.new_dfa 1) /\
    Dfa.Has (fst (built 10 pattern_ab)) dfa' 1 = true /\
    (forall p, Dfa.Has (fst (built 10 pattern_ab)) dfa' p = true <->
               p = 1%nat \/
               Dfa.Has (fst (built 10 pattern_ab)) (Dfa.new_dfa 1) p = true) /\
    (forall c, set.has Z.eqb hash_char (Dfa.chs dfa') c = true <->
               DfaState.HasTransition
                 (nth 0 (fst (built 10 pattern_ab))
                      (DfaState.mk 0 false 0 map.new_map)) c = true \/
               set.has Z.eqb hash_char (Dfa.chs (Dfa.new_dfa 1)) c = true).
Proof.
  apply (Dfa_AddState_adds_state_and_labels
           (fst (built 10 pattern_ab)) (Dfa.new_dfa 1) 1
           (nth 0 (fst (built 10 pattern_ab)) (DfaState.mk 0 false 0 map.new_map))).
  - split; [constructor | reflexivity].
  - split; [constructor | reflexivity].
  - vm_compute. reflexivity.
  - split; [|reflexivity]. vm_compute.
    repeat constructor; simpl; intuition discriminate.
Defined.

(** ** The NFA *)

Module nfaP.

Lemma valid_ptr_length {A : Type} (heap heap' : list A) (p : ptr) :
  length heap' = length heap -> valid_ptr heap p -> valid_ptr heap' p.
Proof. unfold valid_ptr. intros ->. auto. Qed.

Lemma table_wf_length heap heap' tbl :
  length heap' = length heap -> table_wf heap tbl -> table_wf heap' tbl.
Proof.
  intros Hl [W H]. split; [exact W|]. intros c ss Hin.
  destruct (H c ss Hin) as [Ws Hv]. split; [exact Ws|].
  intros q Hq. apply (valid_ptr_length heap); auto.
Qed.

(** [transitions[c].add(to)] on a well-formed table. *)
Lemma table_add (heap : list NfaState.t) (tbl : NfaState.Table) (c : C) (to : ptr) :
  table_wf heap tbl -> valid_ptr heap to ->
  exists tbl' ss ss',
    map.modify Z.eqb hash_char set.new_set tbl c
               (fun ss => PtrSet_add heap ss to) = Ok tbl' /\
    table_wf heap tbl' /\
    (In (c, ss) (map_entries tbl) \/
     ~ In c (map fst (map_entries tbl)) /\ ss = set.new_set) /\
    set_wf ss' /\
    (forall q, In q (set_elems ss') <-> q = to \/ In q (set_elems ss)) /\
    map_written tbl c ss' tbl'.
Proof.
  intros [W H] Hto. unfold map.modify.
  destruct (mapP.subscript_spec Z.eqb hash_char set.new_set Z.eqb_eq tbl c W)
    as (m1 & p & ss & E & W1 & Hp & Hcase).
  rewrite E. cbn [bind].
  destruct (mapP.subscript_store Z.eqb hash_char set.new_set Z.eqb_eq
                                 tbl m1 c p ss) with (v' := ss) as [Hss _]; auto.
  assert (Wss : set_wf ss /\ forall q, In q (set_elems ss) -> valid_ptr heap q).
  { destruct Hss as [Hin|[_ ->]]; [apply (H c ss Hin)|].
    split; [apply setP.set_wf_new|]. intros q []. }
  destruct Wss as [Wss Hvs].
  unfold PtrSet_add.
  destruct (setP.add_spec Nat.eqb (hash_NfaState heap) Nat.eqb_eq ss to Wss)
    as (ss' & Ea & Wss' & Hin' & _).
  rewrite Ea. cbn [bind].
  destruct (mapP.subscript_store Z.eqb hash_char set.new_set Z.eqb_eq
                                 tbl m1 c p ss ss' W E) as [_ Hw].
  exists (map.store m1 p ss'), ss, ss'.
  split; [reflexivity|]. split; [|auto].
  destruct Hw as (W' & Hent & _). split; [exact W'|].
  intros c' s0 Hin0. apply Hent in Hin0.
  destruct Hin0 as [[-> ->]|[_ Hin0]]; [|apply (H c' s0 Hin0)].
  split; [exact Wss'|]. intros q Hq. apply Hin' in Hq.
  destruct Hq as [->|Hq]; auto.
Qed.

Lemma Nfa_AddTransition_spec (heap : list NfaState.t) (s : ptr) (c : C)
        (to : ptr) :
  nfa_wf heap -> valid_ptr heap s -> valid_ptr heap to ->
  exists heap' st',
    Nfa_AddTransition heap s c to = Ok heap' /\
    nfa_wf heap' /\ length heap' = length heap /\
    (forall p c' q, nfa_edge heap' p c' q <->
                    nfa_edge heap p c' q \/ (p = s /\ c' = c /\ q = to)) /\
    deref heap' s = Ok st' /\
    NfaState.is_end st' = false /\
    Nfa_AcceptC st' c = true /\
    (exists ss, Nfa_Nexts st' c = Ok ss /\
                set.has Nat.eqb (hash_NfaState heap') ss to = true) /\
    (forall p, p <> s -> deref heap' p = deref heap p).
Proof.
  intros W Hs Hto.
  destruct (valid_ptr_deref _ _ Hs) as [st Hd].
  destruct (W s st Hd) as [Hid Wt].
  destruct (table_add heap (NfaState.transitions st) c to Wt Hto)
    as (tbl' & ss & ss' & E & Wt' & Hss & Wss' & Hin' & Hw).
  unfold Nfa_AddTransition. rewrite Hd. cbn [bind]. rewrite E. cbn [bind].
  set (st' := NfaState.mk (NfaState.id st)
                          (if NfaState.is_end st then false else NfaState.is_end st)
                          tbl').
  set (heap' := assign_at heap s st').
  assert (Hl : length heap' = length heap) by apply length_assign_at.
  assert (Hd' : deref heap' s = Ok st') by (eapply deref_assign_at_eq; eauto).
  assert (Hoth : forall p, p <> s -> deref heap' p = deref heap p).
  { intros p Hp. apply deref_assign_at_neq. auto. }
  assert (Hent : forall c' w, In (c', w) (map_entries tbl') <->
                              c' = c /\ w = ss' \/
                              c' <> c /\ In (c', w) (map_entries (NfaState.transitions st)))
    by apply Hw.
  exists heap', st'. split; [reflexivity|].
  split; [|split; [exact Hl|]].
  { intros p x Hx. destruct (Nat.eq_dec p s) as [->|Hne].
    - rewrite Hd' in Hx. injection Hx as <-. cbn [NfaState.id NfaState.transitions].
      split; [exact Hid|]. apply (table_wf_length heap); auto.
    - rewrite (Hoth p Hne) in Hx. destruct (W p x Hx) as [Hi Ht].
      split; [exact Hi|]. apply (table_wf_length heap); auto. }
  split.
  { intros p c' q. unfold nfa_edge. split.
    - intros (x & w & Hx & Hin & Hq). destruct (Nat.eq_dec p s) as [->|Hne].
      + rewrite Hd' in Hx. injection Hx as <-. cbn [NfaState.transitions] in Hin.
        apply Hent in Hin. destruct Hin as [[-> ->]|[Hc Hin]].
        * apply Hin' in Hq. destruct Hq as [->|Hq]; [right; auto|].
          destruct Hss as [Hin0|[_ ->]]; [|destruct Hq].
          left. exists st, ss. auto.
        * left. exists st, w. auto.
      + rewrite (Hoth p Hne) in Hx. left. exists x, w. auto.
    - intros [(x & w & Hx & Hin & Hq)|(-> & -> & ->)].
      + destruct (Nat.eq_dec p s) as [->|Hne].
        * assert (x = st) by congruence. subst x.
          destruct (Z.eq_dec c' c) as [->|Hc].
          -- exists st', ss'. split; [exact Hd'|]. split.
             ++ apply Hent. left. auto.
             ++ apply Hin'. right.
                destruct Hss as [Hin0|[Hno _]].
                ** assert (w = ss); [|subst; exact Hq].
                   assert (G1 : map.getp Z.eqb hash_char (NfaState.transitions st) c
                                = Some w)
                     by (apply (mapP.getp_complete Z.eqb hash_char Z.eqb_eq);
                         [apply Wt | exact Hin]).
                   assert (G2 : map.getp Z.eqb hash_char (NfaState.transitions st) c
                                = Some ss)
                     by (apply (mapP.getp_complete Z.eqb hash_char Z.eqb_eq);
                         [apply Wt | exact Hin0]).
                   congruence.
                ** exfalso. apply Hno. apply in_map_iff. exists (c, w). auto.
          -- exists st', w. split; [exact Hd'|]. split; [|exact Hq].
             apply Hent. right. auto.
        * exists x, w. rewrite (Hoth p Hne). auto.
      + exists st', ss'. split; [exact Hd'|]. split.
        * apply Hent. left. auto.
        * apply Hin'. left. reflexivity. }
  split; [exact Hd'|].
  split; [cbn [NfaState.is_end]; destruct (NfaState.is_end st); reflexivity|].
  assert (G : map.getp Z.eqb hash_char tbl' c = Some ss').
  { apply (mapP.getp_complete Z.eqb hash_char Z.eqb_eq); [apply Wt'|].
    apply Hent. left. auto. }
  split; [unfold Nfa_AcceptC, st'; cbn [NfaState.transitions];
          rewrite map_has_getp; unfold NfaState.PtrSet in *; rewrite G;
          reflexivity|].
  split; [|exact Hoth].
  exists ss'. split.
  - unfold Nfa_Nexts, map.get, st'. cbn [NfaState.transitions].
    unfold NfaState.PtrSet in *. rewrite G. reflexivity.
  - apply (setP.set_has_iff Nat.eqb (hash_NfaState heap') Nat.eqb_eq _ _ Wss').
    apply Hin'. left. reflexivity.
Qed.

End nfaP.

(** X20.  [NfaState::AddTransition(c, to)] on a state of a well-formed
    arena completes; it adds the transition by [c] to [to] to the state and
    changes no other transition of the arena; afterwards [AcceptC(c)] holds,
    [Nexts(c)] has [to], the state is not accepting, and the arena is well
    formed. *)
Theorem Nfa_AddTransition_adds_edge (heap : list NfaState.t) (s : ptr) (c : C)
        (to : ptr) :
  nfa_wf heap -> valid_ptr heap s -> valid_ptr heap to ->
  exists heap' st',
    Nfa_AddTransition heap s c to = Ok heap' /\
    nfa_wf heap' /\ length heap' = length heap /\
    (forall p c' q, nfa_edge heap' p c' q <->
                    nfa_edge heap p c' q \/ (p = s /\ c' = c /\ q = to)) /\
    deref heap' s = Ok st' /\
    NfaState.is_end st' = false /\
    Nfa_AcceptC st' c = true /\
    (exists ss, Nfa_Nexts st' c = Ok ss /\
                set.has Nat.eqb (hash_NfaState heap') ss to = true) /\
    (forall p, p <> s -> deref heap' p = deref heap p).
Proof. apply nfaP.Nfa_AddTransition_spec. Qed.


Lemma nodupb_sound {A : Type} (eqb : A -> A -> bool) (l : list A) :
  (forall a b, eqb a b = true <-> a = b) -> nodupb eqb l = true -> NoDup l.
Proof.
  intros Heq. induction l as [|x r IH]; cbn [nodupb]; intros H; constructor.
  - apply andb_true_iff in H. destruct H as [H _]. apply negb_true_iff in H.
    intros Hin. assert (E : existsb (eqb x) r = true).
    { apply existsb_exists. exists x. split; auto. apply Heq. reflexivity. }
    congruence.
  - apply IH. apply andb_true_iff in H. apply H.
Qed.

Lemma map_wfb_sound {K V : Type} (eqb : K -> K -> bool) (m : map.t K V) :
  (forall a b, eqb a b = true <-> a = b) -> map_wfb eqb m = true -> map_wf m.
Proof.
  intros Heq H. apply andb_true_iff in H. destruct H as [H1 H2]. split.
  - apply (nodupb_sound eqb); auto.
  - apply Nat.eqb_eq. exact H2.
Qed.

Lemma valid_ptrb_sound {A : Type} (heap : list A) (p : ptr) :
  valid_ptrb heap p = true -> valid_ptr heap p.
Proof.
  unfold valid_ptrb, valid_ptr. intros H. apply andb_true_iff in H.
  destruct H as [H1 H2]. apply Nat.leb_le in H1, H2. lia.
Qed.

Lemma table_wfb_sound heap tbl : table_wfb heap tbl = true -> table_wf heap tbl.
Proof.
  intros H. apply andb_true_iff in H. destruct H as [H1 H2]. split.
  - apply (map_wfb_sound Z.eqb); auto. apply Z.eqb_eq.
  - intros c ss Hin. rewrite forallb_forall in H2. specialize (H2 _ Hin).
    cbn [snd] in H2. apply andb_true_iff in H2. destruct H2 as [H3 H4]. split.
    + apply (map_wfb_sound Nat.eqb); auto. apply Nat.eqb_eq.
    + intros q Hq. rewrite forallb_forall in H4. apply valid_ptrb_sound. auto.
Qed.

Lemma In_combine_seq {A : Type} (l : list A) (a i : nat) (x : A) :
  nth_error l i = Some x -> In ((a + i)%nat, x) (combine (seq a (length l)) l).
Proof.
  revert a i; induction l as [|y l IH]; intros a [|i] H; try discriminate.
  - injection H as ->. rewrite Nat.add_0_r. left. reflexivity.
  - cbn [length seq combine]. right.
    replace (a + S i)%nat with (S a + i)%nat by lia. apply IH. exact H.
Qed.

Lemma nfa_wfb_sound heap : nfa_wfb heap = true -> nfa_wf heap.
Proof.
  unfold nfa_wfb. rewrite forallb_forall. intros H [|i] st Hd; [discriminate|].
  cbn [deref] in Hd. destruct (nth_error heap i) as [x|] eqn:E; [|discriminate].
  injection Hd as ->.
  specialize (H _ (In_combine_seq heap 0 i st E)). cbn [fst snd Nat.add] in H.
  apply andb_true_iff in H. destruct H as [H1 H2]. split.
  - apply Z.eqb_eq. exact H1.
  - apply table_wfb_sound. exact H2.
Qed.

Lemma Nfa_AddTransition_adds_edge_witness :
  exists heap' st',
    Nfa_AddTransition heap_a_star 3 EPSILON 5 = Ok heap' /\
    nfa_wf heap' /\ length heap' = length heap_a_star /\
    (forall p c' q, nfa_edge heap' p c' q <->
                    nfa_edge heap_a_star p c' q \/
                    (p = 3%nat /\ c' = EPSILON /\ q = 5%nat)) /\
    deref heap' 3 = Ok st' /\
    NfaState.is_end st' = false /\
    Nfa_AcceptC st' EPSILON = true /\
    (exists ss, Nfa_Nexts st' EPSILON = Ok ss /\
                set.has Nat.eqb (hash_NfaState heap') ss 5%nat = true) /\
    (forall p, p <> 3%nat -> deref heap' p = deref heap_a_star p).
Proof.
  apply (Nfa_AddTransition_adds_edge heap_a_star 3 EPSILON 5).
  - apply nfa_wfb_sound. vm_compute. reflexivity.
  - unfold valid_ptr. change (length heap_a_star) with 6%nat. lia.
  - unfold valid_ptr. change (length heap_a_star) with 6%nat. lia.
Defined.

Module arenaP.
Import NfaParser.

(** [ps'] is the parser [ps] with a larger arena. *)
Definition ext (ps ps' : NfaParser.t) : Prop :=
  parser_wf ps' /\ nfa_stack ps' = nfa_stack ps /\ op_stack ps' = op_stack ps /\
  (length (states ps) <= length (states ps'))%nat.

Lemma valid_ptr_le {A : Type} (heap heap' : list A) (p : ptr) :
  (length heap <= length heap')%nat -> valid_ptr heap p -> valid_ptr heap' p.
Proof. unfold valid_ptr. lia. Qed.

Lemma ext_refl ps : parser_wf ps -> ext ps ps.
Proof. unfold ext. auto. Qed.

Lemma ext_trans ps1 ps2 ps3 : ext ps1 ps2 -> ext ps2 ps3 -> ext ps1 ps3.
Proof.
  intros (W2 & N2 & O2 & L2) (W3 & N3 & O3 & L3).
  split; [exact W3|]. split; [congruence|]. split; [congruence|lia].
Qed.

Lemma ext_valid ps ps' p :
  ext ps ps' -> valid_ptr (states ps) p -> valid_ptr (states ps') p.
Proof. intros (_ & _ & _ & L). apply valid_ptr_le. exact L. Qed.

Lemma table_wf_le heap heap' tbl :
  (length heap <= length heap')%nat -> table_wf heap tbl -> table_wf heap' tbl.
Proof.
  intros Hl [W H]. split; [exact W|]. intros c ss Hin.
  destruct (H c ss Hin) as [Ws Hv]. split; [exact Ws|].
  intros q Hq. apply (valid_ptr_le heap); auto.
Qed.

Lemma NewState_ext ps b :
  parser_wf ps ->
  ext ps (fst (NewState ps b)) /\
  snd (NewState ps b) = S (length (states ps)) /\
  valid_ptr (states (fst (NewState ps b))) (snd (NewState ps b)).
Proof.
  intros [W Hs]. unfold NewState, with_states. cbn [fst snd states].
  assert (Hl : length (states ps ++ [NfaState.mk (u32 (Z.of_nat (length (states ps)) + 1))
                                                 b map.new_map])
               = S (length (states ps))).
  { rewrite length_app. simpl. lia. }
  split; [|split; [reflexivity|unfold valid_ptr; rewrite Hl; lia]].
  split; [|cbn [nfa_stack op_stack states]; rewrite Hl; auto].
  split; cbn [nfa_stack states].
  - intros p st Hd. apply deref_app_inv in Hd. destruct Hd as [Hd|[-> ->]].
    + destruct (W p st Hd) as [Hi Ht]. split; [exact Hi|].
      apply (table_wf_le (states ps)); [rewrite Hl; lia | exact Ht].
    + cbn [NfaState.id NfaState.transitions]. split.
      * f_equal. lia.
      * split; [apply mapP.map_wf_new|]. intros c ss [].
  - intros n Hn. destruct (Hs n Hn) as [H1 H2].
    split; apply (valid_ptr_le (states ps)); auto; rewrite Hl; lia.
Qed.

Lemma AddTransition_ext ps s c to ps' :
  parser_wf ps -> valid_ptr (states ps) s -> valid_ptr (states ps) to ->
  AddTransition ps s c to = Ok ps' -> ext ps ps'.
Proof.
  intros [W Hs] Vs Vt H. unfold AddTransition in H.
  destruct (nfaP.Nfa_AddTransition_spec (states ps) s c to W Vs Vt)
    as (heap' & st' & E & W' & Hl & _).
  rewrite E in H. cbn [bind] in H. injection H as <-.
  unfold ext, parser_wf, with_states. cbn [nfa_stack op_stack states].
  rewrite Hl. split; [|auto]. split; [exact W'|].
  intros n Hn. destruct (Hs n Hn) as [H1 H2].
  split; apply (nfaP.valid_ptr_length (states ps)); auto.
Qed.

Definition nfa_valid (ps : NfaParser.t) (n : Nfa) : Prop :=
  valid_ptr (states ps) (start n) /\ valid_ptr (states ps) (end_ n).

Lemma nfa_valid_ext ps ps' n : ext ps ps' -> nfa_valid ps n -> nfa_valid ps' n.
Proof. intros X [H1 H2]. split; eapply ext_valid; eauto. Qed.

(** What is valid in a parser is valid in its extensions. *)
Ltac transport X :=
  repeat match goal with
         | V : valid_ptr (states ?a) ?p |- _ =>
             match type of X with
             | ext a ?b => apply (ext_valid a b p X) in V
             end
         | V : nfa_valid ?a ?n |- _ =>
             match type of X with
             | ext a ?b => apply (nfa_valid_ext a b n X) in V
             end
         end.

Ltac extend Y X :=
  let Y' := fresh "Y" in
  transport X; pose proof (ext_trans _ _ _ Y X) as Y'; clear Y X;
  rename Y' into Y.

(** One [NewState] of a construction; [Y] relates the parser at the start
    to the current one. *)
Ltac step_new H Y :=
  match type of H with
  | context [NewState ?ps ?b] =>
      let X := fresh "X" in
      let V := fresh "V" in
      pose proof (NewState_ext ps b (proj1 Y)) as X;
      destruct (NewState ps b) as [? ?]; cbn [fst snd] in X;
      destruct X as (X & _ & V); extend Y X
  end.

(** One [AddTransition] of a construction, between valid states. *)
Ltac step_add H Y :=
  let E := fresh "E" in
  let ps' := fresh "ps" in
  apply bind_Ok in H; destruct H as (ps' & E & H);
  apply AddTransition_ext in E;
  [ extend Y E
  | exact (proj1 Y)
  | first [assumption | match goal with V : nfa_valid _ _ |- _ => apply V end]
  | first [assumption | match goal with V : nfa_valid _ _ |- _ => apply V end] ].

Ltac finish_wf H Y :=
  injection H as <-; cbn [fst snd]; split; [exact Y|];
  split; cbn [start end_];
  first [assumption | match goal with V : nfa_valid _ _ |- _ => apply V end].

Lemma NewNfaFromSymbol_wf ps c r :
  parser_wf ps -> NewNfaFromSymbol ps c = Ok r ->
  ext ps (fst r) /\ nfa_valid (fst r) (snd r).
Proof.
  intros W H. pose proof (ext_refl ps W) as Y. unfold NewNfaFromSymbol in H.
  step_new H Y. step_new H Y. step_add H Y. finish_wf H Y.
Qed.

Lemma NewNfaFromConcat_wf ps a b r :
  parser_wf ps -> nfa_valid ps a -> nfa_valid ps b ->
  NewNfaFromConcat ps a b = Ok r ->
  ext ps (fst r) /\ nfa_valid (fst r) (snd r).
Proof.
  intros W [A1 A2] [B1 B2] H. pose proof (ext_refl ps W) as Y.
  unfold NewNfaFromConcat in H. step_add H Y. finish_wf H Y.
Qed.

Lemma NewNfaFromUnion_wf ps a b r :
  parser_wf ps -> nfa_valid ps a -> nfa_valid ps b ->
  NewNfaFromUnion ps a b = Ok r ->
  ext ps (fst r) /\ nfa_valid (fst r) (snd r).
Proof.
  intros W [A1 A2] [B1 B2] H. pose proof (ext_refl ps W) as Y.
  unfold NewNfaFromUnion in H.
  step_new H Y. step_new H Y.
  step_add H Y. step_add H Y. step_add H Y. step_add H Y. finish_wf H Y.
Qed.

Lemma NewNfaFromClosure_wf ps a r :
  parser_wf ps -> nfa_valid ps a ->
  NewNfaFromClosure ps a = Ok r ->
  ext ps (fst r) /\ nfa_valid (fst r) (snd r).
Proof.
  intros W [A1 A2] H. pose proof (ext_refl ps W) as Y.
  unfold NewNfaFromClosure in H.
  step_new H Y. step_new H Y.
  step_add H Y. step_add H Y. step_add H Y. step_add H Y. finish_wf H Y.
Qed.

Lemma NewNfaFromOptional_wf ps a r :
  parser_wf ps -> nfa_valid ps a ->
  NewNfaFromOptional ps a = Ok r ->
  ext ps (fst r) /\ nfa_valid (fst r) (snd r).
Proof.
  intros W [A1 A2] H. pose proof (ext_refl ps W) as Y.
  unfold NewNfaFromOptional in H.
  step_new H Y. step_new H Y.
  step_add H Y. step_add H Y. step_add H Y. finish_wf H Y.
Qed.

Lemma NewNfaFromPlus_wf ps a r :
  parser_wf ps -> nfa_valid ps a ->
  NewNfaFromPlus ps a = Ok r ->
  ext ps (fst r) /\ nfa_valid (fst r) (snd r).
Proof.
  intros W A H. unfold NewNfaFromPlus in H. inv_bind H. destruct x as [ps1 p].
  destruct (NewNfaFromClosure_wf ps a _ W A E) as [X P]. cbn [fst snd] in *.
  destruct (NewNfaFromConcat_wf ps1 a p r (proj1 X) (nfa_valid_ext _ _ _ X A) P H)
    as [X' R].
  split; [eapply ext_trans; eauto | exact R].
Qed.

Lemma NewNfaFromSymbols_wf ps chs r :
  parser_wf ps -> NewNfaFromSymbols ps chs = Ok r ->
  ext ps (fst r) /\ nfa_valid (fst r) (snd r).
Proof.
  intros W H. pose proof (ext_refl ps W) as Y. unfold NewNfaFromSymbols in H.
  step_new H Y. step_new H Y. inv_bind H. injection H as <-. cbn [fst snd].
  assert (G : ext t1 x /\ valid_ptr (states x) n /\ valid_ptr (states x) n0).
  { destruct (negb (set.empty chs)).
    - set (P := fun q : NfaParser.t =>
                  ext t1 q /\ valid_ptr (states q) n /\ valid_ptr (states q) n0).
      apply (foreach_inv P) with (l := set.elements chs) (s := t1)
                                 (body := fun ps0 c => AddTransition ps0 n c n0);
        auto.
      + intros s c s' _ (X & V1 & V2) Hb.
        apply AddTransition_ext in Hb; auto; [|apply X].
        split; [eapply ext_trans; eauto|]. split; eapply ext_valid; eauto.
      + split; [apply ext_refl, Y|]. auto.
    - apply AddTransition_ext in E; auto; [|apply Y].
      split; [exact E|]. split; eapply ext_valid; eauto. }
  destruct G as (X & V1 & V2).
  split; [eapply ext_trans; eauto|]. split; assumption.
Qed.

Lemma NewNfaFromRanges_wf ps ranges r :
  parser_wf ps -> NewNfaFromRanges ps ranges = Ok r ->
  ext ps (fst r) /\ nfa_valid (fst r) (snd r).
Proof.
  intros W H. unfold NewNfaFromRanges in H. inv_bind H.
  eapply NewNfaFromSymbols_wf; eauto.
Qed.

Lemma pop_nfa_wf ps ps1 a :
  parser_wf ps -> pop_nfa ps = Ok (ps1, a) ->
  parser_wf ps1 /\ nfa_valid ps1 a /\ states ps1 = states ps.
Proof.
  intros [W Hs] H. unfold pop_nfa in H. inv_bind H. destruct x as [stk n].
  injection H as <- <-. unfold stack.pop in E.
  destruct (nfa_stack ps) as [|v r] eqn:En; [discriminate|].
  injection E as <- <-. unfold parser_wf, nfa_valid. cbn [states nfa_stack].
  split; [split; [exact W|]|split; [|reflexivity]].
  - intros n Hn. apply Hs. right. exact Hn.
  - apply Hs. left. reflexivity.
Qed.

Lemma nfa_valid_states ps ps' n :
  states ps' = states ps -> nfa_valid ps n -> nfa_valid ps' n.
Proof. unfold nfa_valid. intros ->. auto. Qed.

Lemma push_nfa_wf ps n :
  parser_wf ps -> nfa_valid ps n -> parser_wf (push_nfa (ps, n)).
Proof.
  intros [W Hs] Hn. unfold push_nfa, parser_wf, stack.push.
  cbn [fst snd states nfa_stack]. split; [exact W|].
  intros m [<-|Hm]; [exact Hn | apply Hs; exact Hm].
Qed.

Lemma push_result_wf ps (r : NfaParser.t * Nfa) :
  ext ps (fst r) /\ nfa_valid (fst r) (snd r) -> parser_wf (push_nfa r).
Proof.
  destruct r as [ps' n]. cbn [fst snd]. intros [X V].
  apply push_nfa_wf; [apply X | exact V].
Qed.

Lemma pop_op_wf ps ps1 op :
  parser_wf ps -> pop_op ps = Ok (ps1, op) -> parser_wf ps1.
Proof.
  intros W H. unfold pop_op in H. inv_bind H. destruct x as [stk o].
  injection H as <- <-. exact W.
Qed.

(** One operand taken from the stack of NFAs. *)
Ltac pop_operand H W :=
  let E := fresh "E" in
  let x := fresh "x" in
  let V := fresh "V" in
  let S := fresh "S" in
  let W' := fresh "W" in
  apply bind_Ok in H; destruct H as (x & E & H); destruct x as [? ?];
  destruct (pop_nfa_wf _ _ _ W E) as (W' & V & S); clear E.

Lemma Calc_wf ps ps' : parser_wf ps -> Calc ps = Ok ps' -> parser_wf ps'.
Proof.
  intros W H. unfold Calc in H.
  destruct (stack.empty (op_stack ps)); [injection H as <-; exact W|].
  inv_bind H. destruct x as [ps1 op].
  pose proof (pop_op_wf _ _ _ W E) as W1. clear E.
  destruct op; try (injection H as <-; exact W1).
  - pop_operand H W1. pop_operand H W0. inv_bind H. injection H as <-.
    apply (push_result_wf t1).
    apply (NewNfaFromConcat_wf t1 n0 n x W2 V0); auto.
    eapply nfa_valid_states; eauto.
  - pop_operand H W1. pop_operand H W0. inv_bind H. injection H as <-.
    apply (push_result_wf t1).
    apply (NewNfaFromUnion_wf t1 n0 n x W2 V0); auto.
    eapply nfa_valid_states; eauto.
  - pop_operand H W1. inv_bind H. injection H as <-.
    apply (push_result_wf t0). apply (NewNfaFromClosure_wf t0 n x W0 V); auto.
  - pop_operand H W1. inv_bind H. injection H as <-.
    apply (push_result_wf t0). apply (NewNfaFromPlus_wf t0 n x W0 V); auto.
  - pop_operand H W1. inv_bind H. injection H as <-.
    apply (push_result_wf t0). apply (NewNfaFromOptional_wf t0 n x W0 V); auto.
Qed.

Lemma while_Calc_wf fuel cond ps ps' :
  parser_wf ps -> while_Calc fuel cond ps = Ok ps' -> parser_wf ps'.
Proof.
  revert ps; induction fuel as [|f IH]; simpl; intros ps W H.
  - injection H as <-; auto.
  - destruct (op_stack ps) as [|top rest]; [injection H as <-; auto|].
    destruct (cond top); [|injection H as <-; auto].
    inv_bind H. eapply IH; [|eauto]. eapply Calc_wf; eauto.
Qed.

Lemma parse_step_wf s1 i ps r :
  parser_wf ps -> parse_step s1 i ps = Ok r -> parser_wf (snd r).
Proof.
  unfold parse_step. intros W H.
  assert (Hsym : forall (j : nat) (x : C) (r : nat * NfaParser.t),
             (r0 <- NewNfaFromSymbol ps x ;; Ok (j, push_nfa r0)) = Ok r ->
             parser_wf (snd r)).
  { intros j x r0 H0. inv_bind H0. injection H0 as <-. cbn [snd].
    apply (push_result_wf ps). eapply NewNfaFromSymbol_wf; eauto. }
  assert (Hop : forall (op : Op) (r : nat * NfaParser.t),
             (ps0 <- while_Calc (length (op_stack ps))
                       (fun top => IsCalculationOperator (Op_code top)
                                   && (GetOperatorPriority op <=? GetOperatorPriority top))
                       ps ;; Ok (S i, push_op ps0 op)) = Ok r ->
             parser_wf (snd r)).
  { intros op r0 H0. inv_bind H0. injection H0 as <-. cbn [snd].
    apply while_Calc_wf in E; auto. }
  destruct (Op_of_char (char_at s1 i)) as [[]|]; eauto.
  - injection H as <-. exact W.
  - inv_bind H. inv_bind H. destruct x0 as [ps1 o]. injection H as <-. cbn [snd].
    eapply pop_op_wf; [|eauto]. eapply while_Calc_wf; eauto.
  - destruct (class_loop (length s1) s1 (S i) EPSILON []) as [j ranges].
    inv_bind H. injection H as <-. cbn [snd].
    apply (push_result_wf ps). eapply NewNfaFromRanges_wf; eauto.
  - injection H as <-. exact W.
  - destruct (char_at s1 i =? BACKSLASH); eauto.
  - destruct (char_at s1 i =? BACKSLASH); eauto.
Qed.

Lemma parse_loop_wf fuel s1 i ps ps' :
  parser_wf ps -> parse_loop fuel s1 i ps = Ok ps' -> parser_wf ps'.
Proof.
  revert i ps; induction fuel as [|f IH]; simpl; intros i ps W H.
  - destruct (i <? length s1)%nat; [discriminate | injection H as <-; auto].
  - destruct (i <? length s1)%nat; [|injection H as <-; auto].
    inv_bind H. destruct x as [i' ps1].
    eapply IH; [|eauto]. apply (parse_step_wf s1 i ps (i', ps1)); auto.
Qed.

Lemma Parse_wf ps s r :
  parser_wf ps -> Parse ps s = Ok r ->
  parser_wf (fst r) /\ nfa_valid (fst r) (snd r).
Proof.
  intros W H. unfold Parse in H. inv_bind H. inv_bind H. inv_bind H. inv_bind H.
  injection H as <-. cbn [fst snd].
  assert (W2 : parser_wf x1).
  { eapply while_Calc_wf; [|eauto]. eapply parse_loop_wf; [|eauto].
    apply (push_result_wf ps). eapply NewNfaFromSymbol_wf; eauto. }
  split; [exact W2|]. apply W2. unfold stack.top in E2.
  destruct (nfa_stack x1); [discriminate|]. injection E2 as <-. left. reflexivity.
Qed.

End arenaP.

(** X21. Whenever the parser accepts a pattern, the NFA it returns has no
    dangling pointer: the start and the end are states of the arena, and
    every transition of every state, by whatever label, leads to a state
    of the arena, which is stored at the address of its id; the tables
    and the sets of targets hold no duplicates. *)
Theorem Parse_leaves_no_dangling_state (s : list C) (ps : NfaParser.t) (nfa : Nfa) :
  NfaParser.Parse NfaParser.new_parser s = Ok (ps, nfa) ->
  let heap := NfaParser.states ps in
  nfa_wf heap /\
  valid_ptr heap (start nfa) /\ valid_ptr heap (end_ nfa) /\
  (forall p c q, nfa_edge heap p c q ->
                 exists st, deref heap q = Ok st /\
                            NfaState.id st = u32 (Z.of_nat q)).
Proof.
  intros H heap.
  assert (W0 : parser_wf NfaParser.new_parser).
  { split.
    - intros p st Hd. apply deref_lt in Hd. simpl in Hd. lia.
    - intros n []. }
  destruct (arenaP.Parse_wf _ _ _ W0 H) as [[W Hs] [V1 V2]].
  cbn [fst snd] in *. fold heap in W, V1, V2.
  split; [exact W|]. split; [exact V1|]. split; [exact V2|].
  intros p c q (st & ss & Hd & Hin & Hq).
  destruct (W p st Hd) as [_ [_ Ht]].
  destruct (Ht c ss Hin) as [_ Hv].
  destruct (valid_ptr_deref heap q (Hv q Hq)) as [st' Hd'].
  exists st'. split; [exact Hd'|]. apply (W q st' Hd').
Qed.

Lemma Parse_leaves_no_dangling_state_witness :
  NfaParser.Parse NfaParser.new_parser [91; 97; 45; 99; 93; 120; 63]
  = Ok parsed_class_opt /\
  let heap := NfaParser.states (fst parsed_class_opt) in
  nfa_wf heap /\
  valid_ptr heap (start (snd parsed_class_opt)) /\
  valid_ptr heap (end_ (snd parsed_class_opt)) /\
  (forall p c q, nfa_edge heap p c q ->
                 exists st, deref heap q = Ok st /\
                            NfaState.id st = u32 (Z.of_nat q)).
Proof.
  split; [vm_compute; reflexivity|].
  apply (Parse_leaves_no_dangling_state [91; 97; 45; 99; 93; 120; 63]
           (fst parsed_class_opt) (snd parsed_class_opt)).
  vm_compute. reflexivity.
Defined.

(** ** DfaBuilder::EpsilonClosure *)

Module closureP.
Section facts.
Variable heap : list NfaState.t.
Hypothesis W : nfa_wf heap.

Local Abbreviation h := (hash_NfaState heap).
Local Abbreviation edge := (fun p q => nfa_edge heap p EPSILON q).

Lemma entries_functional {K V : Type} (keqb : K -> K -> bool) (hk : K -> Z)
      (m : map.t K V) (k : K) (v v' : V) :
  (forall a b, keqb a b = true <-> a = b) -> map_wf m ->
  In (k, v) (map_entries m) -> In (k, v') (map_entries m) -> v = v'.
Proof.
  intros Heq Wm H1 H2.
  apply (mapP.getp_complete keqb hk Heq _ _ _ Wm) in H1, H2. congruence.
Qed.

(** The EPSILON transitions of a state of the arena, as [AcceptC] and
    [Nexts] give them. *)
Lemma eps_nexts (p : ptr) (st : NfaState.t) :
  deref heap p = Ok st ->
  (Nfa_AcceptC st EPSILON = false /\ forall q, ~ edge p q) \/
  (Nfa_AcceptC st EPSILON = true /\
   exists ss, Nfa_Nexts st EPSILON = Ok ss /\ set_wf ss /\
              (forall q, In q (set_elems ss) -> valid_ptr heap q) /\
              (forall q, edge p q <-> In q (set_elems ss))).
Proof.
  intros Hd. destruct (W p st Hd) as [_ [Wm Ht]].
  unfold Nfa_AcceptC, Nfa_Nexts, map.has, map.get.
  destruct (map.getp Z.eqb hash_char (NfaState.transitions st) EPSILON)
    as [ss|] eqn:E.
  - right. split; [reflexivity|]. exists ss. split; [reflexivity|].
    apply (mapP.getp_iff Z.eqb hash_char Z.eqb_eq _ _ _ Wm) in E.
    destruct (Ht _ _ E) as [Ws Hv]. split; [exact Ws|]. split; [exact Hv|].
    intros q. split.
    + intros (st' & ss' & Hd' & Hin & Hq).
      assert (st' = st) by congruence. subst st'.
      rewrite (entries_functional Z.eqb hash_char _ _ _ _ Z.eqb_eq Wm E Hin).
      exact Hq.
    + intros Hq. exists st, ss. auto.
  - left. split; [reflexivity|]. intros q (st' & ss' & Hd' & Hin & _).
    assert (st' = st) by congruence. subst st'.
    apply (mapP.getp_complete Z.eqb hash_char Z.eqb_eq _ _ _ Wm) in Hin.
    congruence.
Qed.

(** The loop over [Nexts(EPSILON)]: the states that are not in [N] are
    added to [N] and pushed. *)
Lemma nexts_loop (l : list ptr) :
  forall (N : NfaState.PtrSet) (stk : stack.t ptr),
    set_wf N ->
    exists N' new,
      foreach l (N, stk)
        (fun '(N, stk) t =>
           if negb (set.has Nat.eqb h N t)
           then N' <- PtrSet_add heap N t ;; Ok (N', stack.push stk t)
           else Ok (N, stk))
      = Ok (N', new ++ stk) /\
      set_wf N' /\
      (forall x, In x (set_elems N') <-> In x l \/ In x (set_elems N)) /\
      (forall x, In x new -> In x l) /\
      (forall x, In x (set_elems N') -> In x (set_elems N) \/ In x new) /\
      length (set_elems N') = (length new + length (set_elems N))%nat.
Proof.
  induction l as [|a l IH]; intros N stk WN.
  - exists N, []. cbn [foreach app length Nat.add].
    split; [reflexivity|]. split; [exact WN|].
    split; [intros x; cbn [In]; tauto|].
    split; [intros x []|]. split; [auto | reflexivity].
  - cbn [foreach].
    destruct (set.has Nat.eqb h N a) eqn:Ha; cbn [negb].
    + cbn [bind]. destruct (IH N stk WN) as (N' & new & E & W' & HI & Hn & Hs & Hl).
      exists N', new. split; [exact E|]. split; [exact W'|].
      split; [|split; [|split; [exact Hs | exact Hl]]].
      * intros x. rewrite HI. cbn [In]. split; [tauto|].
        intros [[<-|H]|H]; auto. right.
        apply (setP.set_has_iff Nat.eqb h Nat.eqb_eq N a WN). exact Ha.
      * intros x Hx. right. auto.
    + unfold PtrSet_add.
      destruct (setP.add_spec Nat.eqb h Nat.eqb_eq N a WN)
        as (N1 & E1 & W1 & HI1 & _ & HP).
      rewrite E1. cbn [bind]. unfold stack.push.
      destruct (IH N1 (a :: stk) W1) as (N' & new & E & W' & HI & Hn & Hs & Hl).
      exists N', (new ++ [a]). rewrite <- app_assoc. cbn [app].
      split; [exact E|]. split; [exact W'|].
      assert (Hna : ~ In a (set_elems N)).
      { intros Hin.
        apply (setP.set_has_iff Nat.eqb h Nat.eqb_eq N a WN) in Hin. congruence. }
      split; [|split; [|split]].
      * intros x. rewrite HI, HI1. cbn [In]. split.
        -- intros [H|[H|H]]; auto.
        -- intros [[H|H]|H]; auto.
      * intros x Hx. apply in_app_or in Hx. destruct Hx as [Hx|[<-|[]]].
        -- right. auto.
        -- left. reflexivity.
      * intros x Hx. destruct (Hs x Hx) as [H|H].
        -- apply HI1 in H. destruct H as [->|H]; [|auto].
           right. apply in_or_app. right. left. reflexivity.
        -- right. apply in_or_app. auto.
      * rewrite Hl, length_app. cbn [length].
        rewrite (Permutation_length (HP Hna)). cbn [length]. lia.
Qed.

(** A set of states of the arena has at most as many elements as the
    arena has states. *)
Lemma elems_bound (l : list ptr) :
  NoDup l -> (forall x, In x l -> valid_ptr heap x) ->
  (length l <= length heap)%nat.
Proof.
  intros ND Hv. rewrite <- (length_seq (length heap) 1).
  apply NoDup_incl_length; [exact ND|].
  intros x Hx. apply in_seq. specialize (Hv x Hx). unfold valid_ptr in Hv. lia.
Qed.

Section loop.
Variable N0 : list ptr.

(** The invariant of the walk: [N] holds states reached from [N0], and a
    state of [N] whose transitions have not been followed is on the stack. *)
Definition walk_inv (stk : stack.t ptr) (N : NfaState.PtrSet) : Prop :=
  set_wf N /\
  (forall x, In x (set_elems N) -> valid_ptr heap x) /\
  (forall x, In x stk -> In x (set_elems N)) /\
  (forall x, In x (set_elems N) -> eps_reach heap N0 x) /\
  (forall x, In x N0 -> In x (set_elems N)) /\
  (forall p, In p (set_elems N) ->
             In p stk \/ forall q, edge p q -> In q (set_elems N)).

Lemma walk_done (N : NfaState.PtrSet) :
  walk_inv [] N -> forall q, In q (set_elems N) <-> eps_reach heap N0 q.
Proof.
  intros (_ & _ & _ & Hr & H0 & Hc) q. split; [apply Hr|].
  induction 1 as [p Hp|p q' _ IH He]; [apply H0; exact Hp|].
  destruct (Hc p IH) as [[]|Hcl]. apply Hcl. exact He.
Qed.

Lemma walk_spec (fuel : nat) :
  forall (stk : stack.t ptr) (N : NfaState.PtrSet),
    walk_inv stk N ->
    (length stk + length heap <= fuel + length (set_elems N))%nat ->
    exists N', DfaBuilder.EpsilonClosure_loop heap fuel stk N = Ok N' /\
               set_wf N' /\
               (forall q, In q (set_elems N') <-> eps_reach heap N0 q).
Proof.
  induction fuel as [|f IH]; intros stk N I Hm.
  - destruct stk as [|s stk].
    + exists N. split; [reflexivity|]. split; [apply I | apply walk_done; exact I].
    + exfalso. destruct I as (WN & Hv & _).
      pose proof (elems_bound _ (setP.elems_NoDup N WN) Hv). cbn [length] in Hm. lia.
  - destruct stk as [|s stk].
    + exists N. split; [reflexivity|]. split; [apply I | apply walk_done; exact I].
    + destruct I as (WN & Hv & Hs & Hr & H0 & Hc).
      assert (HsN : In s (set_elems N)) by (apply Hs; left; reflexivity).
      destruct (valid_ptr_deref heap s (Hv s HsN)) as [st Hd].
      cbn [DfaBuilder.EpsilonClosure_loop]. rewrite Hd. cbn [bind].
      cbn [length] in Hm.
      destruct (eps_nexts s st Hd) as [[Ha Hno]|[Ha (ss & En & Ws & Hvs & He)]];
        rewrite Ha; cbn [negb].
      * apply IH; [|lia]. split; [exact WN|]. split; [exact Hv|].
        split; [intros x Hx; apply Hs; right; exact Hx|].
        split; [exact Hr|]. split; [exact H0|].
        intros p Hp. destruct (Hc p Hp) as [[<-|H]|H]; auto.
        right. intros q Hq. destruct (Hno q Hq).
      * rewrite En. cbn [bind].
        rewrite (setP.elements_elems ss Ws).
        destruct (nexts_loop (set_elems ss) N stk WN)
          as (N' & new & E & W' & HI & Hn & Hs' & Hl).
        match goal with
        | |- exists _, bind ?r _ = _ /\ _ =>
            replace r with (@Ok (NfaState.PtrSet * stack.t ptr) (N', new ++ stk))
              by (symmetry; exact E)
        end.
        cbn [bind]. apply IH; [|rewrite length_app; lia].
        split; [exact W'|].
        split; [intros x Hx; apply HI in Hx; destruct Hx; auto|].
        split.
        { intros x Hx. apply HI. apply in_app_or in Hx. destruct Hx as [Hx|Hx].
          - left. auto.
          - right. apply Hs. right. exact Hx. }
        split.
        { intros x Hx. apply HI in Hx. destruct Hx as [Hx|Hx]; [|auto].
          apply (reach_step heap N0 s x); [auto | apply He; exact Hx]. }
        split; [intros x Hx; apply HI; right; auto|].
        intros p Hp. destruct (Hs' p Hp) as [HpN|Hpn].
        -- destruct (Hc p HpN) as [[<-|H]|H].
           ++ right. intros q Hq. apply HI. left. apply He. exact Hq.
           ++ left. apply in_or_app. right. exact H.
           ++ right. intros q Hq. apply HI. right. auto.
        -- left. apply in_or_app. left. exact Hpn.
Qed.
End loop.

Lemma push_all_rev (l acc : list ptr) :
  fold_left stack.push l acc = rev l ++ acc.
Proof.
  revert acc; induction l as [|a l IH]; intros acc; [reflexivity|].
  cbn [fold_left rev]. rewrite IH, <- app_assoc. reflexivity.
Qed.

Lemma EpsilonClosure_spec (cfuel : nat) (N : NfaState.PtrSet) :
  set_wf N -> (forall p, In p (set_elems N) -> valid_ptr heap p) ->
  (length heap <= cfuel)%nat ->
  exists N', DfaBuilder.EpsilonClosure heap cfuel N = Ok N' /\ set_wf N' /\
             (forall q, In q (set_elems N') <-> eps_reach heap (set_elems N) q).
Proof.
  intros WN Hv Hf. unfold DfaBuilder.EpsilonClosure.
  rewrite (setP.elements_elems N WN), push_all_rev, app_nil_r.
  apply walk_spec.
  - split; [exact WN|]. split; [exact Hv|].
    split; [intros x Hx; apply in_rev; exact Hx|].
    split; [intros x Hx; apply reach_start; exact Hx|].
    split; [auto|]. intros p Hp. left. apply in_rev in Hp. exact Hp.
  - rewrite length_rev. lia.
Qed.

End facts.
End closureP.

(** X22. The epsilon closure is computed in full and the walk ends: on a
    well-formed arena and a set [N] of its states, [EpsilonClosure(N)]
    completes within as many turns of its loop as the arena has states;
    afterwards [N] holds exactly the states that are reached from a state
    it held by transitions labelled EPSILON (the states it held among
    them), each once. *)
Theorem EpsilonClosure_is_the_closure (heap : list NfaState.t) (cfuel : nat)
        (N : NfaState.PtrSet) :
  nfa_wf heap -> set_wf N ->
  (forall p, In p (set_elems N) -> valid_ptr heap p) ->
  (length heap <= cfuel)%nat ->
  exists N', DfaBuilder.EpsilonClosure heap cfuel N = Ok N' /\
             set_wf N' /\
             (forall q, set.has Nat.eqb (hash_NfaState heap) N' q = true
                        <-> eps_reach heap (set_elems N) q) /\
             (forall q, In q (set_elems N) ->
                        set.has Nat.eqb (hash_NfaState heap) N' q = true) /\
             (forall p q, set.has Nat.eqb (hash_NfaState heap) N' p = true ->
                          nfa_edge heap p EPSILON q ->
                          set.has Nat.eqb (hash_NfaState heap) N' q = true).
Proof.
  intros W WN Hv Hf.
  destruct (closureP.EpsilonClosure_spec heap W cfuel N WN Hv Hf)
    as (N' & E & W' & HI).
  exists N'. split; [exact E|]. split; [exact W'|].
  assert (Hh : forall q, set.has Nat.eqb (hash_NfaState heap) N' q = true
                         <-> eps_reach heap (set_elems N) q).
  { intros q. rewrite (setP.set_has_iff Nat.eqb _ Nat.eqb_eq N' q W'). apply HI. }
  split; [exact Hh|]. split.
  - intros q Hq. apply Hh. apply reach_start. exact Hq.
  - intros p q Hp He. apply Hh. apply Hh in Hp.
    apply (reach_step heap _ p q); assumption.
Qed.

Lemma EpsilonClosure_is_the_closure_witness :
  exists N', DfaBuilder.EpsilonClosure heap_a_star 6 set_1_4 = Ok N' /\
             set_wf N' /\
             (forall q, set.has Nat.eqb (hash_NfaState heap_a_star) N' q = true
                        <-> eps_reach heap_a_star (set_elems set_1_4) q) /\
             (forall q, In q (set_elems set_1_4) ->
                        set.has Nat.eqb (hash_NfaState heap_a_star) N' q = true) /\
             (forall p q, set.has Nat.eqb (hash_NfaState heap_a_star) N' p = true ->
                          nfa_edge heap_a_star p EPSILON q ->
                          set.has Nat.eqb (hash_NfaState heap_a_star) N' q = true).
Proof.
  apply (EpsilonClosure_is_the_closure heap_a_star 6 set_1_4).
  - apply nfa_wfb_sound. vm_compute. reflexivity.
  - apply (map_wfb_sound Nat.eqb); [apply Nat.eqb_eq | vm_compute; reflexivity].
  - intros p Hp. apply valid_ptrb_sound.
    assert (F : forallb (valid_ptrb heap_a_star) (set_elems set_1_4) = true)
      by (vm_compute; reflexivity).
    rewrite forallb_forall in F. apply F. exact Hp.
  - change (length heap_a_star) with 6%nat. lia.
Defined.
